(** * A-star path finding on a fixed grid: graph construction and search

    A shallow embedding of [sample_project/c]: [pathfinding.h] (the
    [stop] and [route] records), [pathfinding.c] ([init_stops],
    [init_routes]) and [main.c] ([main]).  The body of [find_path] is
    declared in [pathfinding.h] but is not part of the sources; it is
    modelled from section 4.2 of the specification.

    C [int]s are integers [Z] (every value that occurs is below 1000, so
    no wrap-around is involved); C [double]s are kept abstract behind the
    class [Arith], with two instances: IEEE binary64 ([ieee], Rocq's
    primitive floats) and exact real arithmetic ([exact]). *)

From Stdlib Require Import ZArith List Lia Bool Reals Lra Floats.
From stdpp Require Import base tactics option list list_numbers sorting.

Local Open Scope Z_scope.

(** ** Arithmetic on [double] *)

(** The operations on [double] the program uses: conversion from [int],
    [+], [-], [pow(x, 2)], [sqrt], [<] and the constant [DBL_MAX]. *)
Class Arith := {
  double : Type;
  of_int : Z → double;
  dadd : double → double → double;
  dsub : double → double → double;
  dpow2 : double → double;
  dsqrt : double → double;
  dlt : double → double → bool;
  DBL_MAX : double
}.

(** [(double) z] for a C [int] [z]. *)
Definition float_of_int (z : Z) : float :=
  if decide (z < 0) then PrimFloat.opp (PrimFloat.of_uint63 (Uint63.of_Z (- z)))
  else PrimFloat.of_uint63 (Uint63.of_Z z).

(** IEEE binary64.  [pow(x, 2)] is [x * x]: the squares the program takes
    are of integers of absolute value below 8, which are exact. *)
Definition ieee : Arith := {|
  double := float;
  of_int := float_of_int;
  dadd := PrimFloat.add;
  dsub := PrimFloat.sub;
  dpow2 := fun x => PrimFloat.mul x x;
  dsqrt := PrimFloat.sqrt;
  dlt := PrimFloat.ltb;
  DBL_MAX := 0x1.fffffffffffffp+1023%float
|}.

(** Exact arithmetic on the reals; [DBL_MAX] is [2^1024 - 2^971]. *)
Definition exact : Arith := {|
  double := R;
  of_int := IZR;
  dadd := Rplus;
  dsub := Rminus;
  dpow2 := Rsqr;
  dsqrt := R_sqrt.sqrt;
  dlt := fun x y => if Rlt_dec x y then true else false;
  DBL_MAX := IZR (2 ^ 1024 - 2 ^ 971)
|}.

(** ** Tables indexed by a C [int] *)

Section Tables.
Context {T : Type}.

(** [l[i]]: [None] outside the table. *)
Definition zlookup (l : list T) (i : Z) : option T :=
  if decide (0 ≤ i) then l !! Z.to_nat i else None.

(** [l[i] = f (l[i])]; outside the table nothing is stored. *)
Definition zalter (f : T → T) (i : Z) (l : list T) : list T :=
  if decide (0 ≤ i) then alter f (Z.to_nat i) l else l.

(** [realloc(l, k * sizeof(T))] when it succeeds: the first [k] elements are
    kept, new slots hold [blank] (their content is indeterminate in C; the
    callers overwrite them). *)
Definition realloc (blank : T) (l : list T) (k : Z) : list T :=
  take (Z.to_nat k) l ++ replicate (Z.to_nat k - length l) blank.

End Tables.

(** ** pathfinding.h, map.h *)

Section Model.
Context {ar : Arith}.

(** [struct stop].  [n] is the array behind the pointer ([NULL] is the empty
    array).  [f] and [h] are [None] while they have never been assigned. *)
Record stop := {
  stop_col : double;
  stop_row : double;
  stop_n : list Z;
  stop_n_len : Z;
  stop_f : option double;
  stop_g : double;
  stop_h : option double;
  stop_from : Z
}.

(** [struct route]. *)
Record route := {
  route_x : Z;
  route_y : Z;
  route_d : double
}.

Definition MAP_SIZE_ROWS : Z := 10.
Definition MAP_SIZE_COLS : Z := 10.

(** [char map[MAP_SIZE_ROWS][MAP_SIZE_COLS]] and
    [int ind[MAP_SIZE_ROWS][MAP_SIZE_COLS]], by row and column. *)
Definition table := Z → Z → Z.

(** [tbl[i][j] = t]. *)
Definition table_set (tbl : table) (i j t : Z) : table :=
  fun i' j' => if decide (i' = i ∧ j' = j) then t else tbl i' j'.

Definition set_col (s : stop) (v : double) : stop :=
  {| stop_col := v; stop_row := stop_row s; stop_n := stop_n s;
     stop_n_len := stop_n_len s; stop_f := stop_f s; stop_g := stop_g s;
     stop_h := stop_h s; stop_from := stop_from s |}.
Definition set_row (s : stop) (v : double) : stop :=
  {| stop_col := stop_col s; stop_row := v; stop_n := stop_n s;
     stop_n_len := stop_n_len s; stop_f := stop_f s; stop_g := stop_g s;
     stop_h := stop_h s; stop_from := stop_from s |}.
Definition set_n (s : stop) (v : list Z) : stop :=
  {| stop_col := stop_col s; stop_row := stop_row s; stop_n := v;
     stop_n_len := stop_n_len s; stop_f := stop_f s; stop_g := stop_g s;
     stop_h := stop_h s; stop_from := stop_from s |}.
Definition set_n_len (s : stop) (v : Z) : stop :=
  {| stop_col := stop_col s; stop_row := stop_row s; stop_n := stop_n s;
     stop_n_len := v; stop_f := stop_f s; stop_g := stop_g s;
     stop_h := stop_h s; stop_from := stop_from s |}.
Definition set_f (s : stop) (v : option double) : stop :=
  {| stop_col := stop_col s; stop_row := stop_row s; stop_n := stop_n s;
     stop_n_len := stop_n_len s; stop_f := v; stop_g := stop_g s;
     stop_h := stop_h s; stop_from := stop_from s |}.
Definition set_g (s : stop) (v : double) : stop :=
  {| stop_col := stop_col s; stop_row := stop_row s; stop_n := stop_n s;
     stop_n_len := stop_n_len s; stop_f := stop_f s; stop_g := v;
     stop_h := stop_h s; stop_from := stop_from s |}.
Definition set_h (s : stop) (v : option double) : stop :=
  {| stop_col := stop_col s; stop_row := stop_row s; stop_n := stop_n s;
     stop_n_len := stop_n_len s; stop_f := stop_f s; stop_g := stop_g s;
     stop_h := v; stop_from := stop_from s |}.
Definition set_from (s : stop) (v : Z) : stop :=
  {| stop_col := stop_col s; stop_row := stop_row s; stop_n := stop_n s;
     stop_n_len := stop_n_len s; stop_f := stop_f s; stop_g := stop_g s;
     stop_h := stop_h s; stop_from := v |}.

(** A slot of the node table fresh from [realloc]. *)
Definition blank_stop : stop :=
  {| stop_col := of_int 0; stop_row := of_int 0; stop_n := []; stop_n_len := 0;
     stop_f := None; stop_g := of_int 0; stop_h := None; stop_from := 0 |}.

(** A slot of the edge table fresh from [realloc]. *)
Definition blank_route : route :=
  {| route_x := 0; route_y := 0; route_d := of_int 0 |}.

(** [sqrt(pow(a.row - b.row, 2) + pow(a.col - b.col, 2))]. *)
Definition euclid (a b : stop) : double :=
  dsqrt (dadd (dpow2 (dsub (stop_row a) (stop_row b)))
              (dpow2 (dsub (stop_col a) (stop_col b)))).

(** ** pathfinding.c: init_stops *)

(** The node table [*stops], the counter [*s_len] and the global [ind]. *)
Record stops_state := {
  st_stops : list stop;
  st_len : Z;
  st_ind : table
}.

(** The six assignments to [( *stops)[t]] (lines 18 to 23). *)
Definition fill_stop (i j : Z) (s : stop) : stop :=
  set_n (set_n_len (set_g (set_from (set_row (set_col s (of_int j)) (of_int i))
                                    (-1)) DBL_MAX) 0) [].

(** The body of the inner loop (lines 14 to 25) at cell [(i, j)]. *)
Definition scan_cell (grid : table) (i j : Z) (st : stops_state) : stops_state :=
  if decide (grid i j = 0) then
    let s_len := st_len st + 1 in
    let stops := realloc blank_stop (st_stops st) s_len in
    let t := s_len - 1 in
    {| st_stops := zalter (fill_stop i j) t stops;
       st_len := s_len;
       st_ind := table_set (st_ind st) i j t |}
  else st.

(** [for (i = 1; i < MAP_SIZE_ROWS - 1; i++)] and
    [for (j = 1; j < MAP_SIZE_COLS - 1; j++)]. *)
Definition rows : list Z := seqZ 1 (MAP_SIZE_ROWS - 2).
Definition cols : list Z := seqZ 1 (MAP_SIZE_COLS - 2).

(** The first pass (lines 10 to 27), from [*stops = NULL] as [main] calls it. *)
Definition scan_stops (grid : table) (ind0 : table) : stops_state :=
  foldl (fun st i => foldl (fun st j => scan_cell grid i j st) st cols)
        {| st_stops := []; st_len := 0; st_ind := ind0 |} rows.

(** One round of the heuristics loop (lines 32 and 33): nothing is stored
    when [e] or [i] is outside the table. *)
Definition set_heuristic (e : Z) (stops : list stop) (i : Z) : list stop :=
  match zlookup stops e, zlookup stops i with
  | Some se, Some si => zalter (fun s => set_h s (Some (euclid se si))) i stops
  | _, _ => stops
  end.

Definition init_stops (grid : table) (ind0 : table) : stops_state :=
  let st := scan_stops grid ind0 in
  let e := st_len st - 1 in
  {| st_stops := foldl (set_heuristic e) (st_stops st) (seqZ 0 (st_len st));
     st_len := st_len st;
     st_ind := st_ind st |}.

(** ** pathfinding.c: init_routes *)

(** The edge table [*routes], the counter [*r_len] and the node table. *)
Record routes_state := {
  rt_routes : list route;
  rt_len : Z;
  rt_stops : list stop
}.

(** Lines 51 to 56: the fields of [( *routes)[t]]; the distance reads the
    node table at the two indices just stored (blank when outside it). *)
Definition fill_route (stops : list stop) (x y : Z) (r : route) : route :=
  {| route_x := x; route_y := y;
     route_d := euclid (default blank_stop (zlookup stops y))
                       (default blank_stop (zlookup stops x)) |}.

(** Lines 58 to 61: [++stops[x].n_len], the [realloc] of [stops[x].n] and the
    store of [t] in its last slot. *)
Definition push_edge (t : Z) (s : stop) : stop :=
  let s1 := set_n_len s (stop_n_len s + 1) in
  set_n s1 (zalter (fun _ => t) (stop_n_len s1 - 1)
                   (realloc 0 (stop_n s1) (stop_n_len s1))).

(** Lines 48 to 61: one more edge, from node [x] to node [y]. *)
Definition append_edge (x y : Z) (st : routes_state) : routes_state :=
  let r_len := rt_len st + 1 in
  let routes := realloc blank_route (rt_routes st) r_len in
  let t := r_len - 1 in
  let routes := zalter (fill_route (rt_stops st) x y) t routes in
  {| rt_routes := routes;
     rt_len := r_len;
     rt_stops := zalter (push_edge t) x (rt_stops st) |}.

(** The body of the innermost loop (lines 46 to 62) at cell [(i, j)] and
    neighbour [(k, l)]. *)
Definition link_cell (ind : table) (i j k l : Z) (st : routes_state) : routes_state :=
  if decide (k = i ∧ l = j) then st
  else if decide (0 ≤ ind k l) then append_edge (ind i j) (ind k l) st
  else st.

(** Lines 43 to 65 at cell [(i, j)]: [k] from [i - 1] to [i + 1], [l] from
    [j - 1] to [j + 1]. *)
Definition link_around (ind : table) (i j : Z) (st : routes_state) : routes_state :=
  if decide (0 ≤ ind i j) then
    foldl (fun st k => foldl (fun st l => link_cell ind i j k l st) st (seqZ (j - 1) 3))
          st (seqZ (i - 1) 3)
  else st.

Definition init_routes (ind : table) (stops : list stop) (s_len : Z) : routes_state :=
  foldl (fun st i => foldl (fun st j => link_around ind i j st) st cols)
        {| rt_routes := []; rt_len := 0; rt_stops := stops |} rows.

(** ** Outcomes of code that can go wrong *)

(** What the C standard leaves undefined and the program can run into: a store
    or a load through a null pointer, an index outside a table, the read of a
    field that was never assigned.  [Fuel] is not a fault of the program: the
    bounded loops of [find_path] below end with it when their bound is
    reached. *)
Inductive fault := NullStore | NullLoad | OutOfRange | Indeterminate | Fuel.

Inductive outcome (T : Type) :=
  | Done (x : T)
  | Fault (e : fault).
Global Arguments Done {T} x.
Global Arguments Fault {T} e.

Global Instance outcome_ret : MRet outcome := @Done.
Global Instance outcome_bind : MBind outcome := fun _ _ k m =>
  match m with Done x => k x | Fault e => Fault e end.

(** [realloc] succeeds or returns [NULL]: [al c] says whether the call number
    [c] of a run succeeds. *)
Definition alloc := nat → bool.

(** Code that calls [realloc]: from the allocator and the number of calls made
    so far to an outcome and the new number of calls. *)
Definition M (T : Type) : Type := alloc → nat → outcome (T * nat).

Global Instance M_ret : MRet M := fun _ x _ c => Done (x, c).
Global Instance M_bind : MBind M := fun _ _ k m al c =>
  match m al c with Done (x, c') => k x al c' | Fault e => Fault e end.

Definition lift {T} (o : outcome T) : M T := fun _ c =>
  match o with Done x => Done (x, c) | Fault e => Fault e end.

(** [p = realloc(l, k * sizeof(T))]: the new table, or [NULL]. *)
Definition try_realloc {T} (blank : T) (l : list T) (k : Z) : M (option (list T)) :=
  fun al c => Done (if al c then Some (realloc blank l k) else None, S c).

(** [p[i] = f (p[i])] through the pointer [p]. *)
Definition store {T} (p : option (list T)) (i : Z) (f : T → T) : outcome (list T) :=
  match p with
  | None => Fault NullStore
  | Some l => if decide (0 ≤ i < Z.of_nat (length l)) then Done (zalter f i l) else Fault OutOfRange
  end.

(** [l[i]] as a value. *)
Definition load {T} (l : list T) (i : Z) : outcome T :=
  match zlookup l i with Some x => Done x | None => Fault OutOfRange end.

(** The value of a field that must have been assigned. *)
Definition assigned {T} (o : option T) : outcome T :=
  match o with Some x => Done x | None => Fault Indeterminate end.

Fixpoint foldM {S T} (f : S → T → M S) (s : S) (l : list T) : M S :=
  match l with
  | [] => mret s
  | x :: l' => s' ← f s x; foldM f s' l'
  end.

Fixpoint foldO {S T} (f : S → T → outcome S) (s : S) (l : list T) : outcome S :=
  match l with
  | [] => Done s
  | x :: l' => s' ← f s x; foldO f s' l'
  end.

(** ** init_stops and init_routes with the result of [realloc] and every index
    checked *)

Definition scan_cell_chk (grid : table) (i j : Z) (st : stops_state) : M stops_state :=
  if decide (grid i j = 0) then
    let s_len := st_len st + 1 in
    p ← try_realloc blank_stop (st_stops st) s_len;
    let t := s_len - 1 in
    stops ← lift (store p t (fill_stop i j));
    mret {| st_stops := stops; st_len := s_len;
            st_ind := table_set (st_ind st) i j t |}
  else mret st.

Definition set_heuristic_chk (e : Z) (stops : list stop) (i : Z) : outcome (list stop) :=
  se ← load stops e;
  si ← load stops i;
  store (Some stops) i (fun s => set_h s (Some (euclid se si))).

Definition init_stops_chk (grid : table) (ind0 : table) : M stops_state :=
  st ← foldM (fun st i => foldM (fun st j => scan_cell_chk grid i j st) st cols)
             {| st_stops := []; st_len := 0; st_ind := ind0 |} rows;
  let e := st_len st - 1 in
  stops ← lift (foldO (set_heuristic_chk e) (st_stops st) (seqZ 0 (st_len st)));
  mret {| st_stops := stops; st_len := st_len st; st_ind := st_ind st |}.

Definition link_cell_chk (ind : table) (i j k l : Z) (st : routes_state) : M routes_state :=
  if decide (k = i ∧ l = j) then mret st
  else if decide (0 ≤ ind k l) then
    let r_len := rt_len st + 1 in
    p ← try_realloc blank_route (rt_routes st) r_len;
    let t := r_len - 1 in
    let x := ind i j in
    let y := ind k l in
    routes ← lift (store p t (fun r => {| route_x := x; route_y := y;
                                          route_d := route_d r |}));
    sy ← lift (load (rt_stops st) y);
    sx ← lift (load (rt_stops st) x);
    routes ← lift (store (Some routes) t
                         (fun r => {| route_x := route_x r; route_y := route_y r;
                                      route_d := euclid sy sx |}));
    let n_len := stop_n_len sx + 1 in
    q ← try_realloc 0 (stop_n sx) n_len;
    n ← lift (store q (n_len - 1) (fun _ => t));
    stops ← lift (store (Some (rt_stops st)) x (fun s => set_n (set_n_len s n_len) n));
    mret {| rt_routes := routes; rt_len := r_len; rt_stops := stops |}
  else mret st.

Definition link_around_chk (ind : table) (i j : Z) (st : routes_state) : M routes_state :=
  if decide (0 ≤ ind i j) then
    foldM (fun st k => foldM (fun st l => link_cell_chk ind i j k l st) st (seqZ (j - 1) 3))
          st (seqZ (i - 1) 3)
  else mret st.

Definition init_routes_chk (ind : table) (stops : list stop) (s_len : Z) : M routes_state :=
  foldM (fun st i => foldM (fun st j => link_around_chk ind i j st) st cols)
        {| rt_routes := []; rt_len := 0; rt_stops := stops |} rows.

(** ** find_path *)

(** The result of [find_path]: success with the path, goal first, whose length
    is the value stored in [*p_len]; or failure. *)
Inductive verdict := Found (path : list Z) | NoPath.

(** The state of a search: the node table, whose [g], [f] and [from] fields
    the search assigns, the frontier and the closed nodes. *)
Record search := {
  nodes : list stop;
  frontier : list Z;
  closed : list Z
}.

(** Whether frontier node [c] is to be expanded before [b]: lower [f], or
    equal [f] and lower index. *)
Definition before (stops : list stop) (c b : Z) : outcome bool :=
  sc ← load stops c;
  sb ← load stops b;
  fc ← assigned (stop_f sc);
  fb ← assigned (stop_f sb);
  mret (dlt fc fb || (negb (dlt fb fc) && bool_decide (c < b))).

(** Step 2a: the frontier node with minimum [f], ties to the lowest index. *)
Fixpoint select_min (stops : list stop) (best : Z) (rest : list Z) : outcome Z :=
  match rest with
  | [] => Done best
  | c :: rest' =>
      b ← before stops c best;
      select_min stops (if b : bool then c else best) rest'
  end.

Definition discover (u : Z) (g' : double) (hv : double) (s : stop) : stop :=
  set_f (set_from (set_g s g') u) (Some (dadd g' hv)).

(** Step 2d for the outgoing edge [routes[t]] of [u]. *)
Definition relax (routes : list route) (u : Z) (st : search) (t : Z) : outcome search :=
  r ← load routes t;
  let v := route_y r in
  if bool_decide (v ∈ closed st) then mret st
  else
    su ← load (nodes st) u;
    sv ← load (nodes st) v;
    let g' := dadd (stop_g su) (route_d r) in
    if dlt g' (stop_g sv) then
      hv ← assigned (stop_h sv);
      mret {| nodes := zalter (discover u g' hv) v (nodes st);
              frontier := if bool_decide (v ∈ frontier st) then frontier st
                          else frontier st ++ [v];
              closed := closed st |}
    else mret st.

(** Path reconstruction: from [cur] along the [from] links to the node that
    has none. *)
Fixpoint reconstruct (fuel : nat) (stops : list stop) (cur : Z) : outcome (list Z) :=
  match fuel with
  | O => Fault Fuel
  | S fuel' =>
      s ← load stops cur;
      if decide (stop_from s < 0) then mret [cur]
      else rest ← reconstruct fuel' stops (stop_from s); mret (cur :: rest)
  end.

(** Step 2, at most [fuel] rounds. *)
Fixpoint search_loop (fuel : nat) (routes : list route) (goal : Z) (st : search)
    : outcome (verdict * list stop) :=
  match fuel with
  | O => Fault Fuel
  | S fuel' =>
      match frontier st with
      | [] => mret (NoPath, nodes st)
      | c :: cs =>
          u ← select_min (nodes st) c cs;
          if decide (u = goal) then
            path ← reconstruct (length (nodes st)) (nodes st) u;
            mret (Found path, nodes st)
          else
            su ← load (nodes st) u;
            st' ← foldO (relax routes u)
                        {| nodes := nodes st;
                           frontier := filter (fun w => w ≠ u) (frontier st);
                           closed := u :: closed st |}
                        (stop_n su);
            search_loop fuel' routes goal st'
      end
  end.

(** Modelled from the spec: the body of [find_path], which [pathfinding.h]
    declares and [main] calls but whose definition is not in the sources.
    This is the algorithm of section 4.2: the search goes from node 0 to node
    [s_len - 1]; step 1 assigns [g] and [f] of the start node.  Each round
    closes one node, so [s_len + 1] rounds are never exceeded.  The result
    carries the node table as the search leaves it. *)
Definition find_path (stops : list stop) (routes : list route) (s_len : Z)
    : outcome (verdict * list stop) :=
  let start := 0 in
  let goal := s_len - 1 in
  s0 ← load stops start;
  h0 ← assigned (stop_h s0);
  let stops := zalter (fun s => set_f (set_g s (of_int 0)) (Some h0)) start stops in
  search_loop (Z.to_nat s_len + 1) routes goal
              {| nodes := stops; frontier := [start]; closed := [] |}.

(** ** main.c *)

(** What [main] prints: the path length and the coordinates [(col, row)] of
    the nodes from start to goal, or [IMPOSSIBLE]. *)
Inductive report :=
  | PathPrinted (p_len : Z) (coords : list (double * double))
  | Impossible.

(** [path[i]] through the pointer [path]. *)
Definition load_ptr {T} (p : option (list T)) (i : Z) : outcome T :=
  match p with None => Fault NullLoad | Some l => load l i end.

(** Lines 15 to 23: what [main] does with the result of [find_path].  [path]
    is the variable of [main]; [p_len] is what [find_path] stored in [*p_len],
    the length of the path it found.  The loop of lines 18 to 20 loads
    [path[i]] for [i] from [p_len - 1] down to 0.  The call of [print_map]
    (line 16), whose definition is not part of the sources, is left out. *)
Definition print_result (path : option (list Z))
    (r : outcome (verdict * list stop)) : M report :=
  '(v, stops) ← lift r;
  match v with
  | Found p =>
      let p_len := Z.of_nat (length p) in
      coords ← lift (foldO (fun acc i =>
                              t ← load_ptr path i;
                              s ← load stops t;
                              mret (acc ++ [(stop_col s, stop_row s)]))
                           [] (reverse (seqZ 0 p_len)));
      mret (PathPrinted p_len coords)
  | NoPath => mret Impossible
  end.

(** Lines 7 to 23, with the body of [find_path] as a parameter.  [path] is
    passed to [find_path] by value: whatever [find_path] does with its
    parameter, the variable of [main] keeps the value [NULL] it was initialised
    with. *)
Definition main_with
    (find_path : list stop → list route → Z → outcome (verdict * list stop))
    (grid : table) (ind0 : table) : M report :=
  let path : option (list Z) := None in
  st ← init_stops_chk grid ind0;
  rs ← init_routes_chk (st_ind st) (st_stops st) (st_len st);
  print_result path (find_path (rt_stops rs) (rt_routes rs) (st_len st)).

Definition main : table → table → M report := main_with find_path.

(** ** The vocabulary of the properties *)

(** The cells strictly inside the border, in row-major scan order. *)
Definition interior : list (Z * Z) := i ← rows; j ← cols; [(i, j)].

(** A cell whose map value is open. *)
Definition is_open (grid : table) (c : Z * Z) : Prop := grid c.1 c.2 = 0.

Global Instance is_open_dec grid c : Decision (is_open grid c).
Proof. unfold is_open. apply _. Defined.

(** The open interior cells, in row-major scan order. *)
Definition open_interior (grid : table) : list (Z * Z) :=
  filter (is_open grid) interior.

(** The coordinates [(row, col)] of a node, and of a cell as [double]s. *)
Definition coords (s : stop) : double * double := (stop_row s, stop_col s).
Definition cell_coords (c : Z * Z) : double * double := (of_int c.1, of_int c.2).

(** The lookup table holds the "not a node" sentinel everywhere, as it does
    before [init_stops] runs ([map.c], which defines [ind], is not part of the
    sources). *)
Definition sentinel (ind0 : table) : Prop := ∀ i j, ind0 i j < 0.

(** Two distinct cells that touch by a side or by a corner. *)
Definition adjacent8 (c c' : Z * Z) : Prop :=
  c ≠ c' ∧ c.1 - 1 ≤ c'.1 ≤ c.1 + 1 ∧ c.2 - 1 ≤ c'.2 ≤ c.2 + 1.

(** Same row or same column. *)
Definition axis_aligned (c c' : Z * Z) : Prop := c.1 = c'.1 ∨ c.2 = c'.2.

Global Instance axis_aligned_dec c c' : Decision (axis_aligned c c').
Proof. unfold axis_aligned. apply _. Defined.

(** The Euclidean distance between the coordinates of two cells, computed as
    the program does between their nodes. *)
Definition cell_dist (a b : Z * Z) : double :=
  dsqrt (dadd (dpow2 (dsub (of_int a.1) (of_int b.1)))
              (dpow2 (dsub (of_int a.2) (of_int b.2)))).

(** The node that lines 16 to 23 append for cell [c]. *)
Definition node_at (c : Z * Z) : stop := fill_stop c.1 c.2 blank_stop.

(** The cells that the loops over [k] and [l] visit around [c], in order. *)
Definition around (c : Z * Z) : list (Z * Z) :=
  k ← seqZ (c.1 - 1) 3; l ← seqZ (c.2 - 1) 3; [(k, l)].

(** The neighbours of [c] that [init_routes] links [c] to, in order. *)
Definition links_of (ind : table) (c : Z * Z) : list (Z * Z) :=
  if decide (0 ≤ ind c.1 c.2)
  then filter (fun c' => ¬ (c'.1 = c.1 ∧ c'.2 = c.2) ∧ 0 ≤ ind c'.1 c'.2) (around c)
  else [].

(** All the ordered pairs that [init_routes] links, in order of creation. *)
Definition links (ind : table) : list ((Z * Z) * (Z * Z)) :=
  c ← interior; (fun c' => (c, c')) <$> links_of ind c.

(** The edge that lines 48 to 56 append for the pair [(c, c')]. *)
Definition edge_of (ind : table) (stops : list stop) (p : (Z * Z) * (Z * Z)) : route :=
  fill_route stops (ind p.1.1 p.1.2) (ind p.2.1 p.2.2) blank_route.

(** A node with its heuristic assigned from the goal node [e]. *)
Definition with_h (e : stop) (s : stop) : stop := set_h s (Some (euclid e s)).

(** A node with its edge list and edge count assigned. *)
Definition with_edges (n : list Z) (s : stop) : stop :=
  set_n (set_n_len s (Z.of_nat (length n))) n.

(** Lines 12 and 13 of [main]: the graph that [init_stops] and [init_routes]
    build, with the lookup table as [init_stops] left it. *)
Definition build_graph (grid : table) (ind0 : table) : routes_state :=
  let st := init_stops grid ind0 in
  init_routes (st_ind st) (st_stops st) (st_len st).

(** [reach routes s y p c]: [p] lists the nodes of a path of [routes] from
    node [s] to node [y], [y] first and [s] last, and [c] is the sum of the
    weights of its edges, added from [s] on. *)
Inductive reach (routes : list route) (s : Z) : Z → list Z → double → Prop :=
  | reach_start : reach routes s s [s] (of_int 0)
  | reach_step x y p c r :
      reach routes s x p c →
      r ∈ routes → route_x r = x → route_y r = y →
      reach routes s y (y :: p) (dadd c (route_d r)).

(** The indices of the edges of [routes] whose source is [u], increasing. *)
Definition edges_from (routes : list route) (u : Z) : list Z :=
  filter (fun t => route_x <$> zlookup routes t = Some u)
         (seqZ 0 (Z.of_nat (length routes))).

(** The state of [init_routes] once it has linked the pairs [ps], from the
    node table [stops0]. *)
Definition linked (ind : table) (stops0 : list stop) (ps : list ((Z * Z) * (Z * Z)))
    (st : routes_state) : Prop :=
  rt_routes st = edge_of ind stops0 <$> ps
  ∧ rt_len st = Z.of_nat (length ps)
  ∧ length (rt_stops st) = length stops0
  ∧ ∀ (u : nat) s0, stops0 !! u = Some s0 →
      rt_stops st !! u
      = Some (with_edges (edges_from (rt_routes st) (Z.of_nat u)) s0).

(** There is an edge from the node of cell [c] to the node of cell [c'] in the
    built graph, of weight [w], which is the distance the program computes
    between the two nodes. *)
Definition edge_between (grid ind0 : table) (c c' : Z * Z) (w : double) : Prop :=
  let st := init_stops grid ind0 in
  let rs := build_graph grid ind0 in
  ∃ t r sx sy,
    zlookup (rt_routes rs) t = Some r
    ∧ route_x r = st_ind st c.1 c.2 ∧ route_y r = st_ind st c'.1 c'.2
    ∧ zlookup (rt_stops rs) (route_x r) = Some sx ∧ coords sx = cell_coords c
    ∧ zlookup (rt_stops rs) (route_y r) = Some sy ∧ coords sy = cell_coords c'
    ∧ route_d r = euclid sy sx
    ∧ route_d r = w.

(** What the first pass of [init_stops] keeps true of its state. *)
Definition stops_ok (st : stops_state) : Prop :=
  st_len st = Z.of_nat (length (st_stops st)).

(** What [init_routes] keeps true of its tables, [n0] being the number of
    nodes. *)
Definition routes_ok (n0 : nat) (st : routes_state) : Prop :=
  rt_len st = Z.of_nat (length (rt_routes st))
  ∧ length (rt_stops st) = n0
  ∧ Forall (fun s => stop_n_len s = Z.of_nat (length (stop_n s))) (rt_stops st).

End Model.

(** ** Scan order, neighbours and sums *)

Global Instance adjacent8_dec c c' : Decision (adjacent8 c c').
Proof. unfold adjacent8. apply _. Defined.

(** The sum of a list of integers. *)
Definition total (l : list Z) : Z := foldr Z.add 0 l.

(** Cell [c] comes before cell [c'] in row-major scan order. *)
Definition scanned_before (c c' : Z * Z) : Prop :=
  c.1 < c'.1 ∨ (c.1 = c'.1 ∧ c.2 < c'.2).

Global Instance scanned_before_dec c c' : Decision (scanned_before c c').
Proof. unfold scanned_before. apply _. Defined.

(** A [double] that is at least 0 and below 10; it is no NaN and no
    infinity. *)
Definition small_nonneg (x : float) : bool :=
  PrimFloat.leb 0%float x && PrimFloat.ltb x 10%float.

(** ** Sample grids *)

(** A grid from its rows; cells outside the rows are blocked. *)
Definition grid_of_rows (rs : list (list Z)) : table := fun i j =>
  default 1 (row ← zlookup rs i; zlookup row j).

(** The lookup table before [init_stops] runs: no cell has a node. *)
Definition no_node : table := fun _ _ => -1.

(** Every cell blocked. *)
Definition all_blocked : table := fun _ _ => 1.

(** One open interior cell, at row 1 and column 1. *)
Definition one_cell : table := grid_of_rows [[1; 1; 1]; [1; 0; 1]; [1; 1; 1]].

(** Two open interior cells side by side. *)
Definition two_cells : table := grid_of_rows [[1; 1; 1; 1]; [1; 0; 0; 1]; [1; 1; 1; 1]].


(** Every cell open. *)
Definition all_open : table := fun _ _ => 0.

(** Three open interior cells around a corner: (1, 1), (1, 2) and (2, 2). *)
Definition corner_cells : table :=
  grid_of_rows [[1; 1; 1; 1]; [1; 0; 0; 1]; [1; 1; 0; 1]; [1; 1; 1; 1]].

(** Every interior cell blocked, every other cell open. *)
Definition open_border : table := fun i j =>
  if decide (1 ≤ i ≤ MAP_SIZE_ROWS - 2 ∧ 1 ≤ j ≤ MAP_SIZE_COLS - 2) then 1 else 0.

(** The lookup table [ind] read as 0, a node index, outside its bounds. *)
Definition padded (ind : table) : table := fun i j =>
  if decide (0 ≤ i < MAP_SIZE_ROWS ∧ 0 ≤ j < MAP_SIZE_COLS) then ind i j else 0.


(** ** Allocation failures *)

(** The outcome of code that calls [realloc] [n] times from call number [c]
    and stores through each result at once. *)
Definition after_allocs {T} (al : alloc) (c n : nat) (x : T) : outcome (T * nat) :=
  if forallb al (seq c n) then Done (x, (c + n)%nat) else Fault NullStore.

(** [fc] does what [f] does when every [realloc] succeeds and stores through a
    null pointer otherwise; [m] counts the calls of [realloc] behind a state. *)
Definition refines {S} (I : S → Prop) (m : S → nat) (fc : S → M S) (f : S → S) : Prop :=
  ∀ s al c, I s →
    I (f s) ∧ (m s ≤ m (f s))%nat
    ∧ fc s al c = after_allocs al c (m (f s) - m s) (f s).

(** ** The state of a search in exact arithmetic *)

Section SearchState.
Local Existing Instance exact.

(** The [g], [h] and [f] of node [v]; [DBL_MAX] and [0] outside the table. *)
Definition gof (ns : list stop) (v : Z) : R :=
  match zlookup ns v with Some s => stop_g s | None => DBL_MAX end.
Definition hof (ns : list stop) (v : Z) : R :=
  match zlookup ns v with Some s => default 0%R (stop_h s) | None => 0%R end.
Definition fof (ns : list stop) (v : Z) : R :=
  match zlookup ns v with Some s => default 0%R (stop_f s) | None => 0%R end.

(** The closed nodes, last closed first: the [from] link of each, when it has
    one, goes to a node closed before it. *)
Fixpoint chain_ok (ns : list stop) (cl : list Z) : Prop :=
  match cl with
  | [] => True
  | z :: cl' =>
      (∀ s, zlookup ns z = Some s → stop_from s < 0 ∨ stop_from s ∈ cl')
      ∧ chain_ok ns cl'
  end.

Variable routes : list route.
Variable stops0 : list stop.

(** What every round of the search keeps true.  While node [u] is being
    expanded, [pend] lists its edges that are not relaxed yet. *)
Record search_inv (u : Z) (pend : list Z) (st : search) : Prop := {
  inv_shape : ∀ v s, zlookup (nodes st) v = Some s →
    ∃ s0, zlookup stops0 v = Some s0 ∧ stop_n s = stop_n s0 ∧ stop_h s = stop_h s0;
  inv_start : gof (nodes st) 0 = 0%R;
  inv_bound : ∀ v, (0 <= gof (nodes st) v <= DBL_MAX)%R;
  inv_front : ∀ v, v ∈ frontier st →
    (v ∉ closed st) ∧ (gof (nodes st) v < DBL_MAX)%R
    ∧ ∃ s hv, zlookup (nodes st) v = Some s ∧ stop_h s = Some hv
              ∧ stop_f s = Some (stop_g s + hv)%R;
  inv_unseen : ∀ v, v ∉ closed st → v ∉ frontier st → gof (nodes st) v = DBL_MAX;
  inv_closed : ∀ v, v ∈ closed st →
    (gof (nodes st) v < DBL_MAX)%R
    ∧ ∀ p c, reach routes 0 v p c → (gof (nodes st) v <= c)%R;
  inv_relaxed : ∀ x t r, x ∈ closed st → zlookup routes t = Some r → route_x r = x →
    (gof (nodes st) (route_y r) <= gof (nodes st) x + route_d r)%R
    ∨ (x = u ∧ t ∈ pend);
  inv_real : ∀ v, (gof (nodes st) v < DBL_MAX)%R →
    ∃ p, reach routes 0 v p (gof (nodes st) v);
  inv_from : ∀ v s, zlookup (nodes st) v = Some s →
    (stop_from s < 0 ∧ (v = 0 ∨ stop_g s = DBL_MAX))
    ∨ ((stop_from s ∈ closed st)
       ∧ ∃ r, r ∈ routes ∧ route_x r = stop_from s ∧ route_y r = v
              ∧ stop_g s = (gof (nodes st) (stop_from s) + route_d r)%R)
}.

End SearchState.

Global Arguments inv_shape {routes stops0 u pend st} _.
Global Arguments inv_start {routes stops0 u pend st} _.
Global Arguments inv_bound {routes stops0 u pend st} _.
Global Arguments inv_front {routes stops0 u pend st} _.
Global Arguments inv_unseen {routes stops0 u pend st} _.
Global Arguments inv_closed {routes stops0 u pend st} _.
Global Arguments inv_relaxed {routes stops0 u pend st} _.
Global Arguments inv_real {routes stops0 u pend st} _.
Global Arguments inv_from {routes stops0 u pend st} _.

(** * Proofs *)

(** ** Tables *)

Section TableFacts.
Context {T : Type}.
Implicit Types (l : list T) (i : Z).

Lemma zlookup_Some l i x :
  zlookup l i = Some x ↔ 0 ≤ i ∧ l !! Z.to_nat i = Some x.
Proof. unfold zlookup. case_decide; [tauto|]. split; [done|tauto]. Qed.

Lemma zlookup_of_nat l (k : nat) : zlookup l (Z.of_nat k) = l !! k.
Proof. unfold zlookup. case_decide; [|lia]. by rewrite Nat2Z.id. Qed.

Lemma zlookup_lt l i x : zlookup l i = Some x → 0 ≤ i < Z.of_nat (length l).
Proof.
  intros [? H%lookup_lt_Some]%zlookup_Some. lia.
Qed.

Lemma zlookup_is_Some l i : is_Some (zlookup l i) ↔ 0 ≤ i < Z.of_nat (length l).
Proof.
  split.
  - intros [x ?]. by eapply zlookup_lt.
  - intros [? ?]. unfold zlookup. case_decide; [|lia].
    apply lookup_lt_is_Some. lia.
Qed.

Lemma zlookup_None l i : zlookup l i = None ↔ ¬ (0 ≤ i < Z.of_nat (length l)).
Proof. rewrite <- zlookup_is_Some, eq_None_not_Some. done. Qed.

Lemma length_zalter (f : T → T) i l : length (zalter f i l) = length l.
Proof. unfold zalter. case_decide; [apply length_alter|done]. Qed.

Lemma zlookup_zalter (f : T → T) i l :
  zlookup (zalter f i l) i = f <$> zlookup l i.
Proof.
  unfold zlookup, zalter. case_decide; [|done]. apply list_lookup_alter_eq.
Qed.

Lemma zlookup_zalter_ne (f : T → T) i j l :
  i ≠ j → zlookup (zalter f i l) j = zlookup l j.
Proof.
  intros. unfold zlookup, zalter. repeat case_decide; try done.
  apply list_lookup_alter_ne. lia.
Qed.

Lemma zlookup_app_l l1 l2 i :
  i < Z.of_nat (length l1) → zlookup (l1 ++ l2) i = zlookup l1 i.
Proof.
  intros. unfold zlookup. case_decide; [|done]. apply lookup_app_l. lia.
Qed.

Lemma zlookup_snoc l x : zlookup (l ++ [x]) (Z.of_nat (length l)) = Some x.
Proof. rewrite zlookup_of_nat. apply list_lookup_middle. done. Qed.

Lemma realloc_grow (blank : T) l k :
  k = Z.of_nat (length l) + 1 → realloc blank l k = l ++ [blank].
Proof.
  intros ->. unfold realloc.
  rewrite firstn_all2 by lia.
  by replace (Z.to_nat (Z.of_nat (length l) + 1) - length l)%nat with 1%nat by lia.
Qed.

Lemma zalter_snoc (f : T → T) l x i :
  i = Z.of_nat (length l) → zalter f i (l ++ [x]) = l ++ [f x].
Proof.
  intros ->. unfold zalter. case_decide; [|lia].
  rewrite Nat2Z.id.
  replace (length l) with (length l + 0)%nat at 1 by lia.
  by rewrite alter_app_r.
Qed.

End TableFacts.

(** ** Nested loops and the cells they visit *)

Lemma foldl_nested {S} (f : Z → Z → S → S) (s : S) (rs cs : list Z) :
  foldl (fun st i => foldl (fun st j => f i j st) st cs) s rs
  = foldl (fun st c => f c.1 c.2 st) s (i ← rs; j ← cs; [(i, j)]).
Proof.
  revert s. induction rs as [|i rs IH]; intros s; [done|].
  cbn [foldl mbind list_bind]. rewrite foldl_app, <- IH. f_equal.
  clear. revert s. induction cs as [|j cs IH]; intros s; [done|].
  cbn. apply IH.
Qed.

Lemma foldl_filter {S X} (P : X → Prop) `{!∀ x, Decision (P x)}
    (f : S → X → S) (s : S) (l : list X) :
  foldl (fun st x => if decide (P x) then f st x else st) s l
  = foldl f s (filter P l).
Proof.
  revert s. induction l as [|x l IH]; intros s; [done|].
  cbn [foldl]. rewrite filter_cons. case_decide; cbn [foldl]; apply IH.
Qed.

Lemma seqZ_snoc (m : Z) (k : nat) :
  seqZ m (Z.of_nat (S k)) = seqZ m (Z.of_nat k) ++ [m + Z.of_nat k].
Proof.
  replace (Z.of_nat (S k)) with (Z.of_nat k + 1) by lia.
  rewrite seqZ_app by lia. done.
Qed.

Lemma interior_spec i j :
  (i, j) ∈ interior ↔ 1 ≤ i ≤ 8 ∧ 1 ≤ j ≤ 8.
Proof.
  unfold interior. rewrite list_elem_of_bind. split.
  - intros (i' & (j' & Hc & Hj)%list_elem_of_bind & Hi).
    apply list_elem_of_singleton in Hc. inversion Hc; subst.
    apply elem_of_seqZ in Hi, Hj. unfold MAP_SIZE_ROWS, MAP_SIZE_COLS in *. lia.
  - intros [? ?]. exists i. split.
    + apply list_elem_of_bind. exists j. split; [by apply list_elem_of_singleton|].
      apply elem_of_seqZ. unfold MAP_SIZE_COLS. lia.
    + apply elem_of_seqZ. unfold MAP_SIZE_ROWS. lia.
Qed.

Lemma NoDup_interior : NoDup interior.
Proof. apply (bool_decide_unpack _). vm_compute. exact I. Qed.

Lemma open_interior_spec grid c :
  c ∈ open_interior grid ↔ (1 ≤ c.1 ≤ 8 ∧ 1 ≤ c.2 ≤ 8) ∧ grid c.1 c.2 = 0.
Proof.
  unfold open_interior. rewrite list_elem_of_filter. destruct c as [i j].
  rewrite interior_spec. unfold is_open. tauto.
Qed.

(** ** init_stops *)

Section Stops.
Context {ar : Arith}.

(** One round of the first pass appends the node of the cell, when open. *)
Lemma scan_cell_spec grid i j st :
  st_len st = Z.of_nat (length (st_stops st)) →
  scan_cell grid i j st =
    if decide (is_open grid (i, j))
    then {| st_stops := st_stops st ++ [node_at (i, j)];
            st_len := st_len st + 1;
            st_ind := table_set (st_ind st) i j (st_len st) |}
    else st.
Proof.
  intros Hlen. unfold scan_cell.
  destruct (decide (grid i j = 0)) as [Ho|Ho];
    [rewrite decide_True by exact Ho | by rewrite decide_False by exact Ho].
  rewrite (realloc_grow _ _ _ (f_equal (fun z => z + 1) Hlen)).
  assert (Hi : st_len st + 1 - 1 = Z.of_nat (length (st_stops st))) by lia.
  rewrite (zalter_snoc _ _ _ _ Hi). f_equal. f_equal. lia.
Qed.

(** The first pass over any list of distinct cells. *)
Lemma scan_cells_spec grid cs st :
  NoDup cs →
  st_len st = Z.of_nat (length (st_stops st)) →
  let st' := foldl (fun st c => scan_cell grid c.1 c.2 st) st cs in
  st_stops st' = st_stops st ++ (node_at <$> filter (is_open grid) cs)
  ∧ st_len st' = st_len st + Z.of_nat (length (filter (is_open grid) cs))
  ∧ (∀ (k : nat) c, filter (is_open grid) cs !! k = Some c →
       st_ind st' c.1 c.2 = st_len st + Z.of_nat k)
  ∧ (∀ i j, (i, j) ∉ filter (is_open grid) cs → st_ind st' i j = st_ind st i j).
Proof.
  intros Hnd. revert st. induction Hnd as [|c cs Hc Hnd IH]; intros st Hlen.
  { cbn. rewrite app_nil_r. split_and!; [done|lia| |done]. intros k c. by rewrite lookup_nil. }
  cbn [foldl]. rewrite scan_cell_spec by done.
  rewrite <- (surjective_pairing c). rewrite filter_cons.
  case_decide as Hopen; [|by apply IH].
  set (st1 := {| st_stops := _ |}).
  destruct (IH st1) as (Hs & Hl & Hi & Ho).
  { subst st1; cbn. rewrite length_app. cbn. lia. }
  cbv zeta. rewrite Hs, Hl. subst st1. cbn [st_stops st_len st_ind] in *.
  split_and!.
  - by rewrite fmap_cons, <- app_assoc.
  - cbn [length]. lia.
  - intros [|k] c' Hk.
    + injection Hk as <-. rewrite Ho.
      * unfold table_set. rewrite decide_True by done. lia.
      * rewrite <- surjective_pairing. intros [_ ?]%list_elem_of_filter. done.
    + rewrite (Hi k c') by done. lia.
  - intros i j Hij. apply not_elem_of_cons in Hij as [Hne Hij].
    rewrite Ho by done. unfold table_set. rewrite decide_False; [done|].
    intros [-> ->]. apply Hne. by rewrite <- surjective_pairing.
Qed.

(** The first pass of [init_stops]. *)
Lemma scan_stops_spec grid ind0 :
  let st := scan_stops grid ind0 in
  st_stops st = node_at <$> open_interior grid
  ∧ st_len st = Z.of_nat (length (open_interior grid))
  ∧ (∀ (k : nat) c, open_interior grid !! k = Some c → st_ind st c.1 c.2 = Z.of_nat k)
  ∧ (∀ i j, (i, j) ∉ open_interior grid → st_ind st i j = ind0 i j).
Proof.
  unfold scan_stops.
  rewrite (foldl_nested (scan_cell grid)).
  pose proof (scan_cells_spec grid interior
    {| st_stops := []; st_len := 0; st_ind := ind0 |} NoDup_interior eq_refl) as H.
  cbv zeta in *. cbn [st_stops st_len st_ind] in H.
  destruct H as (H1 & H2 & H3 & H4). fold interior. repeat split.
  - done.
  - by rewrite H2.
  - intros k c Hk. rewrite (H3 k c Hk). lia.
  - done.
Qed.

(** The heuristic reads only the coordinates. *)
Lemma euclid_coords a a' b b' :
  coords a = coords a' → coords b = coords b' → euclid a b = euclid a' b'.
Proof.
  unfold coords, euclid. intros [= -> ->] [= -> ->]. done.
Qed.

(** The second pass, up to any round. *)
Lemma set_heuristic_prefix stops e (k : nat) :
  zlookup stops (Z.of_nat (length stops) - 1) = Some e →
  (k ≤ length stops)%nat →
  foldl (set_heuristic (Z.of_nat (length stops) - 1)) stops (seqZ 0 (Z.of_nat k))
  = (with_h e <$> take k stops) ++ drop k stops.
Proof.
  intros He. induction k as [|k IH]; intros Hk.
  { by rewrite take_0, drop_0. }
  rewrite seqZ_snoc, foldl_app, IH by lia. cbn [foldl]. rewrite Z.add_0_l.
  set (cur := (with_h e <$> take k stops) ++ drop k stops).
  assert (Hlen : length cur = length stops).
  { subst cur. rewrite length_app, length_fmap, length_take, length_drop. lia. }
  destruct (lookup_lt_is_Some_2 stops k) as [si Hsi]; [lia|].
  assert (Hcur_k : zlookup cur (Z.of_nat k) = Some si).
  { rewrite zlookup_of_nat. subst cur.
    rewrite lookup_app_r; rewrite length_fmap, length_take; [|lia].
    rewrite lookup_drop. replace (k + (k - k `min` length stops))%nat with k by lia. done. }
  assert (∃ se, zlookup cur (Z.of_nat (length stops) - 1) = Some se
                         ∧ coords se = coords e) as (se & Hse & Hce).
  { apply zlookup_Some in He as [? He].
    unfold zlookup. rewrite decide_True by done. subst cur.
    destruct (decide (Z.to_nat (Z.of_nat (length stops) - 1) < k)%nat).
    - exists (with_h e e). split; [|done].
      rewrite lookup_app_l by (rewrite length_fmap, length_take; lia).
      rewrite list_lookup_fmap, lookup_take_lt by lia. by rewrite He.
    - exists e. split; [|done].
      rewrite lookup_app_r; rewrite length_fmap, length_take; [|lia].
      rewrite lookup_drop. rewrite <- He. f_equal. lia. }
  unfold set_heuristic. rewrite Hse, Hcur_k.
  rewrite (euclid_coords se e si si Hce eq_refl).
  unfold zalter. rewrite decide_True by lia. rewrite Nat2Z.id.
  subst cur.
  rewrite (take_S_r _ _ _ Hsi), fmap_app, <- app_assoc.
  rewrite (drop_S _ _ _ Hsi).
  replace k with (length (with_h e <$> take k stops) + 0)%nat at 1
    by (rewrite length_fmap, length_take; lia).
  rewrite alter_app_r. done.
Qed.

Lemma set_heuristic_all stops :
  foldl (set_heuristic (Z.of_nat (length stops) - 1)) stops
        (seqZ 0 (Z.of_nat (length stops)))
  = match last stops with Some e => with_h e <$> stops | None => [] end.
Proof.
  destruct (last stops) as [e|] eqn:He.
  - rewrite (set_heuristic_prefix stops e (length stops)); [|..|done].
    + by rewrite firstn_all, drop_all, app_nil_r.
    + rewrite last_lookup in He. apply zlookup_Some.
      destruct stops; [done|]. cbn [length] in *. split; [lia|].
      rewrite <- He. f_equal. lia.
  - apply last_None in He. by subst.
Qed.

(** What [init_stops] returns. *)
Lemma init_stops_spec grid ind0 :
  let st := init_stops grid ind0 in
  let base := node_at <$> open_interior grid in
  st_stops st = match last base with Some e => with_h e <$> base | None => [] end
  ∧ st_len st = Z.of_nat (length (open_interior grid))
  ∧ (∀ (k : nat) c, open_interior grid !! k = Some c → st_ind st c.1 c.2 = Z.of_nat k)
  ∧ (∀ i j, (i, j) ∉ open_interior grid → st_ind st i j = ind0 i j).
Proof.
  destruct (scan_stops_spec grid ind0) as (H1 & H2 & H3 & H4).
  cbv zeta in *. unfold init_stops. cbn [st_stops st_len st_ind].
  repeat split; try done.
  rewrite H2, H1. 
  rewrite <- (length_fmap node_at (open_interior grid)).
  apply set_heuristic_all.
Qed.

End Stops.

Lemma foldl_ext {S X} (f g : S → X → S) (s : S) (l : list X) :
  (∀ s x, f s x = g s x) → foldl f s l = foldl g s l.
Proof.
  intros Hfg. revert s. induction l as [|x l IH]; intros s; [done|].
  cbn [foldl]. by rewrite Hfg, IH.
Qed.

Lemma foldl_bind {S X Y} (f : S → Y → S) (g : X → list Y) (s : S) (l : list X) :
  foldl (fun st x => foldl f st (g x)) s l = foldl f s (l ≫= g).
Proof.
  revert s. induction l as [|x l IH]; intros s; [done|].
  cbn [foldl]. rewrite bind_cons, foldl_app. apply IH.
Qed.

Lemma filter_ext_in {X} (P Q : X → Prop) `{!∀ x, Decision (P x)}
    `{!∀ x, Decision (Q x)} (l : list X) :
  (∀ x, x ∈ l → P x ↔ Q x) → filter P l = filter Q l.
Proof.
  induction l as [|x l IH]; intros Hext; [done|].
  rewrite !filter_cons. rewrite IH by (intros; apply Hext; by right).
  destruct (decide (P x)) as [HP|HP], (decide (Q x)) as [HQ|HQ]; try done.
  - destruct HQ. apply Hext; [by left|done].
  - destruct HP. apply Hext; [by left|done].
Qed.

(** ** init_routes *)

Section Routes.
Context {ar : Arith}.

Lemma link_around_spec ind i j st :
  link_around ind i j st
  = foldl (fun st p => append_edge (ind p.1.1 p.1.2) (ind p.2.1 p.2.2) st) st
          ((fun c' => ((i, j), c')) <$> links_of ind (i, j)).
Proof.
  unfold link_around, links_of. cbn [fst snd].
  case_decide; [|done].
  rewrite (foldl_nested (link_cell ind i j)).
  rewrite foldl_fmap. cbn [fst snd].
  rewrite <- (foldl_filter _ (fun st c' => append_edge (ind i j) (ind c'.1 c'.2) st)).
  unfold around. cbn [fst snd].
  apply foldl_ext. intros st' [k l]. unfold link_cell. cbn [fst snd].
  repeat case_decide; try done; tauto.
Qed.

Lemma init_routes_links ind stops s_len :
  init_routes ind stops s_len
  = foldl (fun st p => append_edge (ind p.1.1 p.1.2) (ind p.2.1 p.2.2) st)
          {| rt_routes := []; rt_len := 0; rt_stops := stops |} (links ind).
Proof.
  unfold init_routes, links.
  rewrite (foldl_nested (link_around ind)). fold interior.
  rewrite <- foldl_bind. apply foldl_ext. intros st [i j].
  apply link_around_spec.
Qed.

Lemma edges_from_snoc routes r u :
  edges_from (routes ++ [r]) u
  = edges_from routes u
    ++ (if decide (route_x r = u) then [Z.of_nat (length routes)] else []).
Proof.
  unfold edges_from. rewrite length_app. cbn [length].
  replace (length routes + 1)%nat with (S (length routes)) by lia.
  rewrite seqZ_S, filter_app, Z.add_0_l. f_equal.
  - apply filter_ext_in. intros t [? ?]%elem_of_seqZ.
    rewrite zlookup_app_l by lia. done.
  - rewrite filter_cons, filter_nil, zlookup_snoc. cbn.
    repeat case_decide; congruence.
Qed.

Lemma push_edge_with_edges t n s :
  push_edge t (with_edges n s) = with_edges (n ++ [t]) s.
Proof.
  unfold push_edge, with_edges. cbn.
  rewrite (realloc_grow 0 n) by done.
  rewrite zalter_snoc by lia.
  rewrite length_app. unfold set_n, set_n_len. cbn. f_equal. lia.
Qed.

Lemma fill_route_linked ind stops0 ps st x y :
  linked ind stops0 ps st →
  fill_route (rt_stops st) x y blank_route = fill_route stops0 x y blank_route.
Proof.
  intros (_ & _ & Hlen & Hst). unfold fill_route. f_equal.
  assert (∀ z, coords (default blank_stop (zlookup (rt_stops st) z))
               = coords (default blank_stop (zlookup stops0 z))) as Hc.
  { intros z. unfold zlookup. case_decide; [|done].
    destruct (stops0 !! Z.to_nat z) as [s0|] eqn:Hz.
    - by rewrite (Hst _ _ Hz).
    - rewrite (lookup_ge_None_2 (rt_stops st)); [done|].
      apply lookup_ge_None_1 in Hz. lia. }
  by apply euclid_coords.
Qed.

Lemma linked_step ind stops0 ps st p :
  Forall (fun s => stop_n s = [] ∧ stop_n_len s = 0) stops0 →
  linked ind stops0 ps st →
  linked ind stops0 (ps ++ [p])
         (append_edge (ind p.1.1 p.1.2) (ind p.2.1 p.2.2) st).
Proof.
  intros Hblank Hl. pose proof Hl as (Hr & Hn & Hlen & Hst).
  unfold append_edge.
  assert (Hroutes : zalter (fill_route (rt_stops st) (ind p.1.1 p.1.2) (ind p.2.1 p.2.2))
            (rt_len st + 1 - 1) (realloc blank_route (rt_routes st) (rt_len st + 1))
          = rt_routes st ++ [edge_of ind stops0 p]).
  { assert (rt_len st = Z.of_nat (length (rt_routes st))) as Hn'
      by (rewrite Hr, length_fmap; done).
    rewrite (realloc_grow _ _ _ (f_equal (fun z => z + 1) Hn')).
    rewrite zalter_snoc by lia.
    by rewrite (fill_route_linked _ _ _ _ _ _ Hl). }
  rewrite Hroutes. split_and!; cbn [rt_routes rt_len rt_stops].
  - by rewrite Hr, fmap_app.
  - rewrite length_app. cbn. lia.
  - by rewrite length_zalter.
  - intros u s0 Hu. rewrite edges_from_snoc.
    specialize (Hst u s0 Hu).
    change (route_x (edge_of ind stops0 p)) with (ind p.1.1 p.1.2).
    unfold zalter. destruct (decide (ind p.1.1 p.1.2 = Z.of_nat u)) as [Hx|Hx].
    + rewrite Hx. rewrite decide_True by (clear; lia). rewrite Nat2Z.id.
      rewrite list_lookup_alter_eq, Hst. cbn.
      rewrite push_edge_with_edges. do 3 f_equal.
      f_equal. rewrite Hn, Hr, length_fmap. lia.
    + rewrite app_nil_r. case_decide; [|done].
      rewrite list_lookup_alter_ne by lia. done.
Qed.

Lemma linked_init ind stops0 :
  Forall (fun s => stop_n s = [] ∧ stop_n_len s = 0) stops0 →
  linked ind stops0 [] {| rt_routes := []; rt_len := 0; rt_stops := stops0 |}.
Proof.
  intros Hblank. split_and!; try done.
  intros u s0 Hu. cbn. rewrite Hu. f_equal.
  rewrite Forall_lookup in Hblank. destruct (Hblank _ _ Hu) as [Hn Hl].
  destruct s0. cbn in *. by subst.
Qed.

Lemma linked_foldl ind stops0 ps0 ps st :
  Forall (fun s => stop_n s = [] ∧ stop_n_len s = 0) stops0 →
  linked ind stops0 ps0 st →
  linked ind stops0 (ps0 ++ ps)
    (foldl (fun st p => append_edge (ind p.1.1 p.1.2) (ind p.2.1 p.2.2) st) st ps).
Proof.
  intros Hblank. revert ps0 st. induction ps as [|p ps IH]; intros ps0 st Hl.
  { by rewrite app_nil_r. }
  cbn [foldl]. rewrite (assoc_L _ ps0 [p] ps : ps0 ++ p :: ps = (ps0 ++ [p]) ++ ps).
  apply IH. by apply linked_step.
Qed.

(** What [init_routes] returns on a table whose nodes have no edges yet. *)
Lemma init_routes_spec ind stops0 s_len :
  Forall (fun s => stop_n s = [] ∧ stop_n_len s = 0) stops0 →
  linked ind stops0 (links ind) (init_routes ind stops0 s_len).
Proof.
  intros Hblank. rewrite init_routes_links.
  apply (linked_foldl ind stops0 [] (links ind)); [done|].
  by apply linked_init.
Qed.

End Routes.

(** ** The built graph *)

Section Built.
Context {ar : Arith}.

(** The node of the [k]-th open interior cell after [init_stops]. *)
Lemma init_stops_lookup grid ind0 (k : nat) c :
  open_interior grid !! k = Some c →
  ∃ e, last (node_at <$> open_interior grid) = Some e
       ∧ st_stops (init_stops grid ind0) !! k = Some (with_h e (node_at c))
       ∧ st_ind (init_stops grid ind0) c.1 c.2 = Z.of_nat k.
Proof.
  intros Hk. destruct (init_stops_spec grid ind0) as (Hs & _ & Hi & _).
  cbv zeta in *.
  destruct (last (node_at <$> open_interior grid)) as [e|] eqn:He.
  - exists e. split; [done|]. rewrite Hs, !list_lookup_fmap, Hk. split; [done|].
    by apply Hi.
  - apply last_None, fmap_nil_inv in He. by rewrite He in Hk.
Qed.

Lemma init_stops_length grid ind0 :
  length (st_stops (init_stops grid ind0)) = length (open_interior grid).
Proof.
  destruct (init_stops_spec grid ind0) as (Hs & _). cbv zeta in *. rewrite Hs.
  destruct (last _) eqn:He.
  - by rewrite !length_fmap.
  - apply last_None, fmap_nil_inv in He. by rewrite He.
Qed.

Lemma init_stops_coords grid ind0 :
  coords <$> st_stops (init_stops grid ind0) = cell_coords <$> open_interior grid.
Proof.
  destruct (init_stops_spec grid ind0) as (Hs & _). cbv zeta in *. rewrite Hs.
  destruct (last _) eqn:He.
  - rewrite <- !list_fmap_compose. by apply list_fmap_ext.
  - apply last_None, fmap_nil_inv in He. by rewrite He.
Qed.

Lemma init_stops_no_edges grid ind0 :
  Forall (fun s => stop_n s = [] ∧ stop_n_len s = 0) (st_stops (init_stops grid ind0)).
Proof.
  destruct (init_stops_spec grid ind0) as (Hs & _). cbv zeta in *. rewrite Hs.
  destruct (last _); [|done]. rewrite !Forall_fmap. by apply Forall_true.
Qed.

(** The lookup table after [init_stops], from a table of sentinels. *)
Lemma init_stops_ind grid ind0 i j :
  sentinel ind0 →
  0 ≤ st_ind (init_stops grid ind0) i j →
  ∃ k : nat, open_interior grid !! k = Some (i, j)
             ∧ st_ind (init_stops grid ind0) i j = Z.of_nat k.
Proof.
  intros Hsen Hij. destruct (init_stops_spec grid ind0) as (_ & _ & Hi & Ho).
  cbv zeta in *.
  destruct (decide ((i, j) ∈ open_interior grid)) as [Hin|Hout].
  - apply list_elem_of_lookup_1 in Hin as [k Hk]. exists k. split; [done|].
    apply (Hi k (i, j) Hk).
  - rewrite (Ho i j Hout) in Hij. specialize (Hsen i j). lia.
Qed.

Lemma build_graph_linked grid ind0 :
  let st := init_stops grid ind0 in
  linked (st_ind st) (st_stops st) (links (st_ind st)) (build_graph grid ind0).
Proof. apply init_routes_spec, init_stops_no_edges. Qed.

(** Every node of the built graph is the node of its cell with its
    heuristic and its edges. *)
Lemma build_graph_lookup grid ind0 (u : nat) s :
  rt_stops (build_graph grid ind0) !! u = Some s ↔
  ∃ c e, open_interior grid !! u = Some c
         ∧ last (node_at <$> open_interior grid) = Some e
         ∧ s = with_edges (edges_from (rt_routes (build_graph grid ind0)) (Z.of_nat u))
                          (with_h e (node_at c)).
Proof.
  destruct (build_graph_linked grid ind0) as (_ & _ & Hlen & Hst).
  rewrite init_stops_length in Hlen. split.
  - intros Hu.
    destruct (lookup_lt_is_Some_2 (open_interior grid) u) as [c Hc].
    { apply lookup_lt_Some in Hu. lia. }
    destruct (init_stops_lookup grid ind0 u c Hc) as (e & He & Hs0 & _).
    exists c, e. split_and!; try done.
    rewrite (Hst u _ Hs0) in Hu. by injection Hu.
  - intros (c & e & Hc & He & ->).
    destruct (init_stops_lookup grid ind0 u c Hc) as (e' & He' & Hs0 & _).
    rewrite (Hst u _ Hs0). congruence.
Qed.

End Built.

Lemma around_spec c c' :
  c' ∈ around c ↔ c.1 - 1 ≤ c'.1 ≤ c.1 + 1 ∧ c.2 - 1 ≤ c'.2 ≤ c.2 + 1.
Proof.
  unfold around. rewrite list_elem_of_bind. destruct c' as [k l]. cbn [fst snd]. split.
  - intros (k' & (l' & Hc & Hl)%list_elem_of_bind & Hk).
    apply list_elem_of_singleton in Hc. inversion Hc; subst.
    apply elem_of_seqZ in Hk, Hl. lia.
  - intros [? ?]. exists k. split.
    + apply list_elem_of_bind. exists l. split; [by apply list_elem_of_singleton|].
      apply elem_of_seqZ. lia.
    + apply elem_of_seqZ. lia.
Qed.

Lemma length_around c : length (around c) = 9%nat.
Proof. done. Qed.

Lemma links_of_spec ind c c' :
  c' ∈ links_of ind c ↔
  0 ≤ ind c.1 c.2 ∧ 0 ≤ ind c'.1 c'.2 ∧ c ≠ c'
  ∧ c.1 - 1 ≤ c'.1 ≤ c.1 + 1 ∧ c.2 - 1 ≤ c'.2 ≤ c.2 + 1.
Proof.
  unfold links_of. case_decide.
  - rewrite list_elem_of_filter, around_spec.
    destruct c as [i j], c' as [k l]. cbn in *.
    split.
    + intros [[Hne Hk] Hr]. split_and!; try tauto.
      intros [= <- <-]. by apply Hne.
    + intros (_ & Hk & Hne & Hr). split_and!; try tauto.
      intros [-> ->]. by apply Hne.
  - split; [by intros ?%elem_of_nil|]. tauto.
Qed.

Lemma length_links_of ind c : (length (links_of ind c) ≤ 8)%nat.
Proof.
  unfold links_of. case_decide; [|cbn; lia].
  pose proof (length_filter_lt
    (fun c' : Z * Z => ¬ (c'.1 = c.1 ∧ c'.2 = c.2) ∧ 0 ≤ ind c'.1 c'.2) (around c) c) as Hlt.
  rewrite length_around in Hlt.
  assert (c ∈ around c) as Hin by (apply around_spec; lia).
  specialize (Hlt Hin). cbn beta in Hlt.
  assert (¬ (¬ (c.1 = c.1 ∧ c.2 = c.2) ∧ 0 ≤ ind c.1 c.2)) as Hno by tauto.
  specialize (Hlt Hno). lia.
Qed.

Lemma links_spec ind c c' :
  (c, c') ∈ links ind ↔ c ∈ interior ∧ c' ∈ links_of ind c.
Proof.
  unfold links. rewrite list_elem_of_bind. split.
  - intros (c0 & (c1 & [= -> ->] & ?)%list_elem_of_fmap & ?). done.
  - intros [? ?]. exists c. split; [|done]. apply list_elem_of_fmap. by exists c'.
Qed.

Lemma filter_none {X} (P : X → Prop) `{!∀ x, Decision (P x)} (l : list X) :
  (∀ x, x ∈ l → ¬ P x) → filter P l = [].
Proof.
  induction l as [|x l IH]; intros Hno; [done|].
  rewrite filter_cons_False by (apply Hno; by left).
  apply IH. intros y ?. apply Hno. by right.
Qed.

Section Edges.
Context {ar : Arith}.

Lemma length_edges_from {X} (f : X → route) (ps : list X) u :
  length (edges_from (f <$> ps) u)
  = length (filter (fun p => route_x (f p) = u) ps).
Proof.
  induction ps as [|p ps IH] using rev_ind; [done|].
  rewrite fmap_app. cbn [fmap list_fmap]. rewrite edges_from_snoc.
  rewrite filter_app, !length_app, IH. f_equal.
  rewrite filter_cons, filter_nil. by repeat case_decide.
Qed.

(** At most eight edges leave a node: the pairs of its one cell. *)
Lemma links_from_bound ind stops u (cs : list (Z * Z)) :
  NoDup cs →
  (∀ c c', c ∈ cs → c' ∈ cs → 0 ≤ ind c.1 c.2 →
     ind c.1 c.2 = ind c'.1 c'.2 → c = c') →
  (length (filter (fun p => route_x (edge_of ind stops p) = u)
                  (cs ≫= fun c => (fun c' => (c, c')) <$> links_of ind c)) ≤ 8)%nat.
Proof.
  intros Hnd Hinj. induction Hnd as [|c cs Hc Hnd IH]; [cbn; lia|].
  rewrite bind_cons, filter_app, length_app.
  destruct (decide (0 ≤ ind c.1 c.2 ∧ ind c.1 c.2 = u)) as [[Hpos Hu]|Hno].
  - rewrite (filter_none _ (cs ≫= _)).
    + pose proof (length_filter (fun p => route_x (edge_of ind stops p) = u)
        ((fun c' => (c, c')) <$> links_of ind c)) as Hle.
      rewrite length_fmap in Hle. pose proof (length_links_of ind c). cbn [length]. lia.
    + intros [c1 c2] (c0 & (c3 & [= -> ->] & Hin)%list_elem_of_fmap & Hc0)%list_elem_of_bind.
      cbn. intros Hx. apply Hc.
      rewrite (Hinj c c0); [done|by left|by right|done|congruence].
  - rewrite (filter_none _ ((fun c' => (c, c')) <$> links_of ind c)).
    + cbn [length]. apply IH. intros c1 c2 ? ?. apply Hinj; by right.
    + intros [c1 c2] (c3 & [= -> ->] & Hin)%list_elem_of_fmap. cbn. intros Hx.
      apply Hno. split; [|done]. by apply links_of_spec in Hin as (? & _).
Qed.

End Edges.

Lemma StronglySorted_seqZ m n : StronglySorted Z.lt (seqZ m n).
Proof.
  destruct (decide (0 ≤ n)) as [Hn|Hn]; [|rewrite seqZ_nil by lia; constructor].
  rewrite <- (Z2Nat.id n Hn). generalize (Z.to_nat n). clear. intros k.
  induction k as [|k IH]; [rewrite seqZ_nil by lia; constructor|].
  rewrite seqZ_S. apply StronglySorted_app_2; [|done|repeat constructor].
  intros x y [? ?]%elem_of_seqZ ->%list_elem_of_singleton. lia.
Qed.

Lemma StronglySorted_filter {X} (R : X → X → Prop) (P : X → Prop)
    `{!∀ x, Decision (P x)} (l : list X) :
  StronglySorted R l → StronglySorted R (filter P l).
Proof.
  induction 1 as [|x l Hl IH Hx]; [constructor|].
  rewrite filter_cons. case_decide; [|done].
  constructor; [done|]. apply Forall_forall.
  intros y [_ Hy]%list_elem_of_filter. rewrite Forall_forall in Hx. by apply Hx.
Qed.

(** ** The lookup table, the edges and the edge lists *)

Section GraphFacts.
Context {ar : Arith}.

Lemma open_cell_node grid ind0 c :
  c ∈ open_interior grid →
  ∃ (k : nat) s,
    open_interior grid !! k = Some c
    ∧ st_ind (init_stops grid ind0) c.1 c.2 = Z.of_nat k
    ∧ zlookup (rt_stops (build_graph grid ind0)) (Z.of_nat k) = Some s
    ∧ coords s = cell_coords c.
Proof.
  intros [k Hk]%list_elem_of_lookup_1.
  destruct (init_stops_lookup grid ind0 k c Hk) as (e & He & Hs0 & Hi).
  exists k, (with_edges (edges_from (rt_routes (build_graph grid ind0)) (Z.of_nat k))
                        (with_h e (node_at c))).
  split_and!; try done.
  rewrite zlookup_of_nat. apply build_graph_lookup. by exists c, e.
Qed.

Lemma nonneg_ind_open grid ind0 i j :
  sentinel ind0 → 0 ≤ st_ind (init_stops grid ind0) i j → (i, j) ∈ open_interior grid.
Proof.
  intros Hsen Hpos.
  destruct (init_stops_ind grid ind0 i j Hsen Hpos) as (k & Hk & _).
  by eapply list_elem_of_lookup_2.
Qed.

(** C6: from a lookup table of sentinels, after graph construction [ind]
    holds at every open interior cell the index of the node of that cell, and
    at every other coordinate (blocked or border) a negative value, which is
    no index of the node table; every edge of the edge table goes from the
    node of an open interior cell to the node of an 8-adjacent, distinct open
    interior cell. *)
Theorem lookup_table_and_edges grid ind0 :
  sentinel ind0 →
  let st := init_stops grid ind0 in
  let rs := build_graph grid ind0 in
  (∀ c, c ∈ open_interior grid →
     ∃ s, zlookup (rt_stops rs) (st_ind st c.1 c.2) = Some s ∧ coords s = cell_coords c)
  ∧ (∀ i j, (i, j) ∉ open_interior grid →
       st_ind st i j < 0 ∧ zlookup (rt_stops rs) (st_ind st i j) = None)
  ∧ (∀ r, r ∈ rt_routes rs →
       ∃ c c', c ∈ open_interior grid ∧ c' ∈ open_interior grid ∧ adjacent8 c c'
               ∧ route_x r = st_ind st c.1 c.2 ∧ route_y r = st_ind st c'.1 c'.2).
Proof.
  intros Hsen st rs. split_and!.
  - intros c Hc. destruct (open_cell_node grid ind0 c Hc) as (k & s & _ & Hi & Hs & Hco).
    exists s. fold st in Hi. by rewrite Hi.
  - intros i j Hout.
    assert (st_ind st i j < 0) as Hneg.
    { destruct (init_stops_spec grid ind0) as (_ & _ & _ & Ho). cbv zeta in Ho.
      subst st. rewrite (Ho i j Hout). apply Hsen. }
    split; [done|]. apply zlookup_None. lia.
  - intros r Hr.
    destruct (build_graph_linked grid ind0) as (Hroutes & _). fold st rs in Hroutes.
    rewrite Hroutes in Hr.
    apply list_elem_of_fmap in Hr as ([c c'] & -> & Hp).
    apply links_spec in Hp as [Hc Hl].
    apply links_of_spec in Hl as (Hpc & Hpc' & Hne & Hrow & Hcol).
    exists c, c'. split_and!; try done.
    + destruct c. by apply (nonneg_ind_open grid ind0).
    + destruct c'. by apply (nonneg_ind_open grid ind0).
Qed.

(** Every node index of the lookup table belongs to one cell only. *)
Lemma ind_inj grid ind0 c c' :
  sentinel ind0 →
  0 ≤ st_ind (init_stops grid ind0) c.1 c.2 →
  st_ind (init_stops grid ind0) c.1 c.2 = st_ind (init_stops grid ind0) c'.1 c'.2 →
  c = c'.
Proof.
  intros Hsen Hpos Heq.
  destruct (init_stops_ind grid ind0 c.1 c.2 Hsen Hpos) as (k & Hk & Hik).
  rewrite Heq in Hpos.
  destruct (init_stops_ind grid ind0 c'.1 c'.2 Hsen Hpos) as (k' & Hk' & Hik').
  rewrite <- !surjective_pairing in *.
  assert (k = k') as <- by lia. congruence.
Qed.

(** C10: after [init_routes], [r_len] is the length of the edge table and
    the edge list [n] of every node [u] holds exactly the indices [t] of the
    edges whose source [x] is [u], each a valid index of the edge table, in
    increasing order; [n_len] is the length of that list and is at most 8. *)
Theorem outgoing_edge_lists grid ind0 :
  sentinel ind0 →
  let rs := build_graph grid ind0 in
  rt_len rs = Z.of_nat (length (rt_routes rs))
  ∧ ∀ u s, zlookup (rt_stops rs) u = Some s →
      stop_n s = edges_from (rt_routes rs) u
      ∧ (∀ t, t ∈ stop_n s ↔ ∃ r, zlookup (rt_routes rs) t = Some r ∧ route_x r = u)
      ∧ Forall (fun t => 0 ≤ t < rt_len rs) (stop_n s)
      ∧ StronglySorted Z.lt (stop_n s)
      ∧ stop_n_len s = Z.of_nat (length (stop_n s))
      ∧ stop_n_len s ≤ 8.
Proof.
  intros Hsen rs.
  destruct (build_graph_linked grid ind0) as (Hroutes & Hn & _). fold rs in Hroutes, Hn.
  assert (Hlen : rt_len rs = Z.of_nat (length (rt_routes rs))).
  { by rewrite Hn, Hroutes, length_fmap. }
  split; [done|]. intros u s [Hu Hs]%zlookup_Some.
  apply build_graph_lookup in Hs as (c & e & Hc & He & ->).
  rewrite Z2Nat.id by done. fold rs. cbn [stop_n stop_n_len with_edges set_n set_n_len].
  split_and!; try done.
  - intros t. unfold edges_from. rewrite list_elem_of_filter, elem_of_seqZ. split.
    + intros [Hx _]. destruct (zlookup (rt_routes rs) t) as [r|]; [|done].
      exists r. split; [done|]. by injection Hx.
    + intros (r & Hr & Hx). rewrite Hr. split; [cbn; by rewrite Hx|].
      apply zlookup_lt in Hr. lia.
  - apply Forall_forall. intros t [_ ?%elem_of_seqZ]%list_elem_of_filter. lia.
  - apply StronglySorted_filter, StronglySorted_seqZ.
  - rewrite Hroutes, length_edges_from.
    pose proof (links_from_bound (st_ind (init_stops grid ind0))
      (st_stops (init_stops grid ind0)) u interior NoDup_interior) as Hb.
    unfold links. enough (length (filter
      (fun p => route_x (edge_of (st_ind (init_stops grid ind0))
         (st_stops (init_stops grid ind0)) p) = u)
      (interior ≫= fun c => (fun c' => (c, c')) <$>
         links_of (st_ind (init_stops grid ind0)) c)) ≤ 8)%nat by lia.
    apply Hb. intros c1 c2 _ _. by apply ind_inj.
Qed.

(** The edge of an ordered pair of adjacent open interior cells. *)
Lemma adjacent_edge grid ind0 c c' :
  c ∈ open_interior grid → c' ∈ open_interior grid → adjacent8 c c' →
  let st := init_stops grid ind0 in
  let rs := build_graph grid ind0 in
  ∃ t r sx sy,
    zlookup (rt_routes rs) t = Some r
    ∧ route_x r = st_ind st c.1 c.2 ∧ route_y r = st_ind st c'.1 c'.2
    ∧ zlookup (rt_stops rs) (route_x r) = Some sx ∧ coords sx = cell_coords c
    ∧ zlookup (rt_stops rs) (route_y r) = Some sy ∧ coords sy = cell_coords c'
    ∧ route_d r = euclid sy sx
    ∧ route_d r = cell_dist c' c.
Proof.
  intros Hc Hc' (Hne & Hrow & Hcol) st rs.
  destruct (open_cell_node grid ind0 c Hc) as (k & sx & Hk & Hi & Hsx & Hcx).
  destruct (open_cell_node grid ind0 c' Hc') as (k' & sy & Hk' & Hi' & Hsy & Hcy).
  fold st in Hi, Hi'. fold rs in Hsx, Hsy.
  assert ((c, c') ∈ links (st_ind st)) as [t Ht]%list_elem_of_lookup_1.
  { apply links_spec. split.
    - apply open_interior_spec in Hc as [? _]. destruct c. by apply interior_spec.
    - apply links_of_spec. split_and!; try done; lia. }
  destruct (build_graph_linked grid ind0) as (Hroutes & _ & Hlen & Hst).
  fold st rs in Hroutes, Hlen, Hst.
  exists (Z.of_nat t), (edge_of (st_ind st) (st_stops st) (c, c')), sx, sy.
  cbn [route_x route_y route_d edge_of fill_route fst snd].
  rewrite Hi, Hi'. split_and!; try done.
  - by rewrite zlookup_of_nat, Hroutes, list_lookup_fmap, Ht.
  - destruct (init_stops_lookup grid ind0 k c Hk) as (e & _ & Hx0 & _).
    destruct (init_stops_lookup grid ind0 k' c' Hk') as (e' & _ & Hy0 & _).
    fold st in Hx0, Hy0. rewrite !zlookup_of_nat, Hx0, Hy0. cbn [default].
    apply euclid_coords.
    + by rewrite Hcy.
    + by rewrite Hcx.
  - destruct (init_stops_lookup grid ind0 k c Hk) as (e & _ & Hx0 & _).
    destruct (init_stops_lookup grid ind0 k' c' Hk') as (e' & _ & Hy0 & _).
    fold st in Hx0, Hy0. rewrite !zlookup_of_nat, Hx0, Hy0. done.
Qed.

End GraphFacts.

(** ** The nodes *)

Section NodeFacts.
Context {ar : Arith}.

(** C3: on a grid with at least one open interior cell, after [init_stops]
    [s_len] is the number of open interior cells and the coordinates of the
    nodes are, in order, those of the open interior cells in row-major scan
    order; node 0 is the first and node [s_len - 1] the last such cell. *)
Theorem init_stops_nodes grid ind0 :
  open_interior grid ≠ [] →
  let st := init_stops grid ind0 in
  st_len st = Z.of_nat (length (open_interior grid))
  ∧ coords <$> st_stops st = cell_coords <$> open_interior grid
  ∧ coords <$> zlookup (st_stops st) 0 = cell_coords <$> head (open_interior grid)
  ∧ coords <$> zlookup (st_stops st) (st_len st - 1)
    = cell_coords <$> last (open_interior grid).
Proof.
  intros Hne st.
  assert (Hlen : st_len st = Z.of_nat (length (open_interior grid)))
    by apply (init_stops_spec grid ind0).
  pose proof (init_stops_coords grid ind0 : coords <$> st_stops st = _) as Hc.
  split_and!; [done..| |].
  - change 0 with (Z.of_nat 0). rewrite zlookup_of_nat, head_lookup.
    by rewrite <- !list_lookup_fmap, Hc.
  - rewrite last_lookup, Hlen.
    replace (Z.of_nat (length (open_interior grid)) - 1)
      with (Z.of_nat (pred (length (open_interior grid)))).
    + rewrite zlookup_of_nat. by rewrite <- !list_lookup_fmap, Hc.
    + destruct (open_interior grid); [done|]. cbn [length]. lia.
Qed.

(** C9: after [init_stops], and still after [init_routes], every node has
    [g = DBL_MAX] and [from = -1]. *)
Theorem built_nodes_unreached grid ind0 :
  Forall (fun s => stop_g s = DBL_MAX ∧ stop_from s = -1)
         (st_stops (init_stops grid ind0))
  ∧ Forall (fun s => stop_g s = DBL_MAX ∧ stop_from s = -1)
           (rt_stops (build_graph grid ind0)).
Proof.
  split.
  - destruct (init_stops_spec grid ind0) as (Hs & _). cbv zeta in *. rewrite Hs.
    destruct (last _); [|done]. rewrite !Forall_fmap. by apply Forall_true.
  - apply Forall_lookup. intros u s (c & e & _ & _ & ->)%build_graph_lookup. done.
Qed.

(** C5: on a grid with at least one open interior cell, the first pass of
    [init_stops] assigns no [h]; when [init_stops] returns, [h] of every node is
    the distance [sqrt(pow(e.row - s.row, 2) + pow(e.col - s.col, 2))] from the
    node to the last-created node [e]; [init_routes] leaves every [h] as it
    is. *)
Theorem heuristic_is_distance_to_goal grid ind0 :
  open_interior grid ≠ [] →
  ∃ e, last (st_stops (init_stops grid ind0)) = Some e
       ∧ Forall (fun s => stop_h s = None) (st_stops (scan_stops grid ind0))
       ∧ Forall (fun s => stop_h s = Some (euclid e s)) (st_stops (init_stops grid ind0))
       ∧ stop_h <$> rt_stops (build_graph grid ind0)
         = stop_h <$> st_stops (init_stops grid ind0).
Proof.
  intros Hne.
  destruct (init_stops_spec grid ind0) as (Hs & _). cbv zeta in *.
  destruct (last (node_at <$> open_interior grid)) as [e0|] eqn:He0.
  2:{ apply last_None, fmap_nil_inv in He0. done. }
  exists (with_h e0 e0). split_and!.
  - rewrite Hs, fmap_last, He0. done.
  - destruct (scan_stops_spec grid ind0) as (H1 & _). cbv zeta in H1. rewrite H1.
    rewrite Forall_fmap. by apply Forall_true.
  - rewrite Hs, Forall_fmap. by apply Forall_true.
  - apply list_eq. intros u. rewrite !list_lookup_fmap.
    destruct (build_graph_linked grid ind0) as (_ & _ & Hlen & Hst). cbv zeta in *.
    destruct (st_stops (init_stops grid ind0) !! u) as [s0|] eqn:Hu.
    + by rewrite (Hst u s0 Hu).
    + rewrite (lookup_ge_None_2 (rt_stops _)); [done|].
      apply lookup_ge_None_1 in Hu. lia.
Qed.

End NodeFacts.

(** The difference of the coordinates of neighbouring cells is exact. *)
Lemma ieee_sub_small i k :
  1 ≤ i ≤ 8 → i - 1 ≤ k ≤ i + 1 →
  PrimFloat.sub (float_of_int k) (float_of_int i) = float_of_int (k - i).
Proof.
  intros Hi Hk.
  assert (i = 1 ∨ i = 2 ∨ i = 3 ∨ i = 4 ∨ i = 5 ∨ i = 6 ∨ i = 7 ∨ i = 8) as Hi' by lia.
  assert (k = i - 1 ∨ k = i ∨ k = i + 1) as Hk' by lia.
  destruct_or!; subst; vm_compute; reflexivity.
Qed.

Lemma ieee_cell_dist c c' :
  c ∈ interior → adjacent8 c c' →
  cell_dist (ar := ieee) c' c
  = if decide (axis_aligned c c') then 1%float else PrimFloat.sqrt 2%float.
Proof.
  destruct c as [i j], c' as [k l]. intros [Hi Hj]%interior_spec (Hne & Hrow & Hcol).
  cbn [fst snd] in *. unfold cell_dist. cbn [fst snd of_int dsub dpow2 dadd dsqrt ieee].
  rewrite !ieee_sub_small by lia.
  assert (k - i = -1 ∨ k - i = 0 ∨ k - i = 1) as Hk by lia.
  assert (l - j = -1 ∨ l - j = 0 ∨ l - j = 1) as Hl by lia.
  assert (¬ (k - i = 0 ∧ l - j = 0)) as Hnz.
  { intros [? ?]. apply Hne. f_equal; lia. }
  unfold axis_aligned. cbn [fst snd].
  destruct_or!; try (exfalso; lia); rewrite Hk, Hl;
    first [ rewrite decide_True by lia | rewrite decide_False by lia ];
    vm_compute; reflexivity.
Qed.

Lemma exact_cell_dist c c' :
  adjacent8 c c' →
  cell_dist (ar := exact) c' c
  = if decide (axis_aligned c c') then 1%R else R_sqrt.sqrt 2%R.
Proof.
  destruct c as [i j], c' as [k l]. intros (Hne & Hrow & Hcol).
  cbn [fst snd] in *. unfold cell_dist. cbn [fst snd of_int dsub dpow2 dadd dsqrt exact].
  rewrite <- !minus_IZR.
  assert (k - i = -1 ∨ k - i = 0 ∨ k - i = 1) as Hk by lia.
  assert (l - j = -1 ∨ l - j = 0 ∨ l - j = 1) as Hl by lia.
  assert (¬ (k - i = 0 ∧ l - j = 0)) as Hnz.
  { intros [? ?]. apply Hne. f_equal; lia. }
  unfold axis_aligned. cbn [fst snd].
  destruct_or!; try (exfalso; lia); rewrite Hk, Hl;
    first [ rewrite decide_True by lia | rewrite decide_False by lia ];
    unfold Rsqr;
    match goal with
    | |- R_sqrt.sqrt ?x = 1%R => replace x with 1%R by lra; apply sqrt_1
    | |- R_sqrt.sqrt ?x = R_sqrt.sqrt 2 => replace x with 2%R by lra; reflexivity
    end.
Qed.

(** C4: for every ordered pair of distinct, 8-adjacent open interior cells
    the edge table holds an edge from the node of the first to the node of the
    second, whose weight is the distance the program computes between the two
    nodes: in IEEE binary64 arithmetic [1.0] when the cells share a row or a
    column and [sqrt(2.0)] otherwise, in exact arithmetic [1] and the square
    root of 2. *)
Theorem adjacent_cells_linked grid ind0 c c' :
  c ∈ open_interior grid → c' ∈ open_interior grid → adjacent8 c c' →
  edge_between (ar := ieee) grid ind0 c c'
    (if decide (axis_aligned c c') then 1%float else PrimFloat.sqrt 2%float)
  ∧ edge_between (ar := exact) grid ind0 c c'
      (if decide (axis_aligned c c') then 1%R else R_sqrt.sqrt 2%R).
Proof.
  intros Hc Hc' Hadj. split.
  - destruct (adjacent_edge (ar := ieee) grid ind0 c c' Hc Hc' Hadj)
      as (t & r & sx & sy & ? & ? & ? & ? & ? & ? & ? & ? & Hd).
    exists t, r, sx, sy. split_and!; try done.
    rewrite Hd. apply ieee_cell_dist; [|done].
    apply open_interior_spec in Hc as [? _]. destruct c. by apply interior_spec.
  - destruct (adjacent_edge (ar := exact) grid ind0 c c' Hc Hc' Hadj)
      as (t & r & sx & sy & ? & ? & ? & ? & ? & ? & ? & ? & Hd).
    exists t, r, sx, sy. split_and!; try done.
    rewrite Hd. by apply exact_cell_dist.
Qed.

Lemma after_allocs_0 {T} al c (x : T) : after_allocs al c 0 x = Done (x, c).
Proof. unfold after_allocs. cbn. by rewrite Nat.add_0_r. Qed.

Lemma after_allocs_add {T} al c n1 n2 (x : T) :
  (if forallb al (seq c n1) then after_allocs al (c + n1) n2 x else Fault NullStore)
  = after_allocs al c (n1 + n2) x.
Proof.
  unfold after_allocs. rewrite seq_app, forallb_app.
  destruct (forallb al (seq c n1)); [|done]. cbn.
  destruct (forallb al (seq (c + n1) n2)); [|done]. do 2 f_equal. lia.
Qed.

Lemma refines_ret {S} (I : S → Prop) m : refines I m (fun s => mret s) (fun s => s).
Proof.
  intros s al c Hs. split_and!; [done..|].
  rewrite Nat.sub_diag, after_allocs_0. done.
Qed.

Lemma refines_fold {S X} (I : S → Prop) m (fc : S → X → M S) (f : S → X → S) l :
  (∀ x, x ∈ l → refines I m (fun s => fc s x) (fun s => f s x)) →
  refines I m (fun s => foldM fc s l) (fun s => foldl f s l).
Proof.
  induction l as [|x l IH]; intros Hstep.
  { apply refines_ret. }
  intros s al c Hs. cbn [foldM foldl].
  destruct (Hstep x ltac:(by left) s al c Hs) as (Hs1 & Hm1 & Hx).
  destruct (IH ltac:(intros; apply Hstep; by right) (f s x) al
              (c + (m (f s x) - m s))%nat Hs1) as (Hs2 & Hm2 & Hl).
  split_and!; [done|lia|].
  unfold mbind at 1, M_bind at 1. rewrite Hx. unfold after_allocs at 1.
  replace (m (foldl f (f s x) l) - m s)%nat
    with ((m (f s x) - m s) + (m (foldl f (f s x) l) - m (f s x)))%nat by lia.
  rewrite <- after_allocs_add.
  destruct (forallb al (seq c (m (f s x) - m s))); [|done].
  by rewrite Hl.
Qed.

(** ** Failing allocations *)

Section Checked.
Context {ar : Arith}.

Lemma length_realloc {T} (blank : T) l k :
  length (realloc blank l k) = Z.to_nat k.
Proof. unfold realloc. rewrite length_app, length_take, length_replicate. lia. Qed.

Lemma scan_cell_refines grid i j :
  refines stops_ok (fun st => Z.to_nat (st_len st))
          (scan_cell_chk grid i j) (scan_cell grid i j).
Proof.
  intros st al c Hok. unfold stops_ok in *.
  rewrite scan_cell_spec by done. unfold scan_cell_chk.
  destruct (decide (grid i j = 0)) as [Ho|Ho];
    [rewrite decide_True by exact Ho|rewrite decide_False by exact Ho].
  2:{ apply (refines_ret stops_ok (fun st => Z.to_nat (st_len st)) st al c Hok). }
  cbn [st_len st_stops]. split_and!.
  - rewrite length_app. cbn. lia.
  - lia.
  - replace (Z.to_nat (st_len st + 1) - Z.to_nat (st_len st))%nat with 1%nat by lia.
    unfold after_allocs, mbind, M_bind, try_realloc, lift, store. cbn [seq forallb].
    destruct (al c); [|done]. cbn.
    rewrite decide_True by (rewrite length_realloc; lia).
    rewrite (realloc_grow _ _ _ (f_equal (fun z => z + 1) Hok)).
    rewrite zalter_snoc by lia. unfold mret, M_ret. do 3 f_equal; [|lia].
    f_equal. lia.
Qed.

Lemma set_heuristic_chk_spec e stops i :
  0 ≤ e < Z.of_nat (length stops) → 0 ≤ i < Z.of_nat (length stops) →
  set_heuristic_chk e stops i = Done (set_heuristic e stops i).
Proof.
  intros He Hi. unfold set_heuristic_chk, set_heuristic, load.
  destruct (proj2 (zlookup_is_Some stops e) He) as [se ->].
  destruct (proj2 (zlookup_is_Some stops i) Hi) as [si ->].
  cbn. unfold store. by rewrite decide_True.
Qed.

Lemma length_set_heuristic e stops i :
  length (set_heuristic e stops i) = length stops.
Proof.
  unfold set_heuristic. repeat case_match; try done. apply length_zalter.
Qed.

Lemma heuristics_chk_spec e stops l :
  (l ≠ [] → 0 ≤ e < Z.of_nat (length stops)) →
  Forall (fun i => 0 ≤ i < Z.of_nat (length stops)) l →
  foldO (set_heuristic_chk e) stops l = Done (foldl (set_heuristic e) stops l).
Proof.
  revert stops. induction l as [|i l IH]; intros stops He Hl; [done|].
  apply Forall_cons in Hl as [Hi Hl]. cbn [foldO foldl].
  rewrite set_heuristic_chk_spec by auto. cbn.
  apply IH; rewrite length_set_heuristic; auto.
Qed.

Lemma init_stops_chk_spec grid ind0 al c :
  init_stops_chk grid ind0 al c
  = after_allocs al c (length (open_interior grid)) (init_stops grid ind0).
Proof.
  unfold init_stops_chk.
  pose proof (refines_fold stops_ok (fun st => Z.to_nat (st_len st))
    (fun st i => foldM (fun st j => scan_cell_chk grid i j st) st cols)
    (fun st i => foldl (fun st j => scan_cell grid i j st) st cols) rows) as Hout.
  destruct (Hout ltac:(intros i _; apply refines_fold; intros j _; apply scan_cell_refines)
              {| st_stops := []; st_len := 0; st_ind := ind0 |} al c eq_refl)
    as (Hok & _ & Hrun).
  fold (scan_stops grid ind0) in Hok, Hrun.
  destruct (scan_stops_spec grid ind0) as (Hs & Hlen & _). cbv zeta in Hs, Hlen.
  cbn [st_len] in Hrun. rewrite Hlen, Nat2Z.id, Nat.sub_0_r in Hrun.
  unfold mbind at 1, M_bind at 1. rewrite Hrun. unfold after_allocs.
  destruct (forallb al _); [|done].
  rewrite heuristics_chk_spec.
  - done.
  - intros Hne. rewrite <- Hok. destruct (decide (st_len (scan_stops grid ind0) ≤ 0)); [|lia].
    by rewrite seqZ_nil in Hne.
  - apply Forall_forall. intros i ?%elem_of_seqZ. rewrite <- Hok. lia.
Qed.

End Checked.

Section CheckedRoutes.
Context {ar : Arith}.

Lemma length_push_edge t s :
  stop_n_len s = Z.of_nat (length (stop_n s)) →
  stop_n_len (push_edge t s) = Z.of_nat (length (stop_n (push_edge t s))).
Proof.
  intros Hn. unfold push_edge. cbn. rewrite length_zalter, length_realloc. lia.
Qed.

Lemma append_edge_ok n0 x y st : routes_ok n0 st → routes_ok n0 (append_edge x y st).
Proof.
  intros (Hr & Hs & Hn). unfold append_edge. split_and!; cbn.
  - rewrite length_zalter, length_realloc. lia.
  - by rewrite length_zalter.
  - unfold zalter. case_decide; [|done]. apply Forall_alter; [done|].
    intros s _. apply length_push_edge.
Qed.

Lemma append_edge_chk ind n0 i j k l st al c :
  (∀ i j, 0 ≤ ind i j → ind i j < Z.of_nat n0) →
  0 ≤ ind i j → ¬ (k = i ∧ l = j) → 0 ≤ ind k l →
  routes_ok n0 st →
  link_cell_chk ind i j k l st al c
  = after_allocs al c 2 (append_edge (ind i j) (ind k l) st).
Proof.
  intros Hv Hx Hne Hy (Hr & Hs & Hn).
  unfold link_cell_chk. rewrite decide_False, decide_True by done.
  destruct (proj2 (zlookup_is_Some (rt_stops st) (ind i j))) as [sx Hsx].
  { specialize (Hv i j Hx). lia. }
  destruct (proj2 (zlookup_is_Some (rt_stops st) (ind k l))) as [sy Hsy].
  { specialize (Hv k l Hy). lia. }
  assert (stop_n_len sx = Z.of_nat (length (stop_n sx))) as Hnx.
  { apply zlookup_Some in Hsx as [_ Hsx]. by eapply Forall_lookup_1 in Hn. }
  unfold after_allocs, mbind, M_bind, try_realloc, lift, store, load.
  cbn [seq forallb]. destruct (al c); [|done].
  rewrite decide_True by (rewrite length_realloc; lia).
  rewrite Hsy, Hsx.
  rewrite decide_True by (rewrite length_zalter, length_realloc; lia).
  destruct (al (S c)); [|done]. cbn [andb].
  rewrite decide_True by (rewrite length_realloc; lia).
  rewrite decide_True by (pose proof (Hv i j Hx); lia).
  unfold mret, M_ret. do 2 f_equal; [|lia].
  unfold append_edge. f_equal.
  - unfold zalter. case_decide; [|done]. rewrite list_alter_alter_eq.
    apply list_alter_ext; [|done]. intros r _. unfold fill_route. cbn.
    by rewrite Hsy, Hsx.
  - unfold zalter. case_decide; [|done].
    apply list_alter_ext; [|done]. intros s Hs'.
    apply zlookup_Some in Hsx as [_ Hsx]. rewrite Hsx in Hs'. injection Hs' as <-.
    done.
Qed.

Lemma link_cell_refines ind n0 i j k l :
  (∀ i j, 0 ≤ ind i j → ind i j < Z.of_nat n0) →
  0 ≤ ind i j →
  refines (routes_ok n0) (fun st => (2 * Z.to_nat (rt_len st))%nat)
          (link_cell_chk ind i j k l) (link_cell ind i j k l).
Proof.
  intros Hv Hx st al c Hok.
  destruct (decide (¬ (k = i ∧ l = j) ∧ 0 ≤ ind k l)) as [[Hne Hy]|Hno].
  - rewrite (append_edge_chk ind n0) by done.
    unfold link_cell. rewrite decide_False, decide_True by done.
    split_and!.
    + by apply append_edge_ok.
    + cbn. lia.
    + f_equal. destruct Hok as (Hr & _). cbn. lia.
  - assert (link_cell_chk ind i j k l st = mret st) as ->.
    { unfold link_cell_chk. repeat case_decide; try done. tauto. }
    assert (link_cell ind i j k l st = st) as ->.
    { unfold link_cell. repeat case_decide; try done. tauto. }
    apply (refines_ret (routes_ok n0) (fun st => (2 * Z.to_nat (rt_len st))%nat)
             st al c Hok).
Qed.

Lemma link_around_refines ind n0 i j :
  (∀ i j, 0 ≤ ind i j → ind i j < Z.of_nat n0) →
  refines (routes_ok n0) (fun st => (2 * Z.to_nat (rt_len st))%nat)
          (link_around_chk ind i j) (link_around ind i j).
Proof.
  intros Hv. unfold link_around_chk, link_around.
  case_decide; [|apply refines_ret].
  apply (refines_fold _ _
    (fun st k => foldM (fun st l => link_cell_chk ind i j k l st) st (seqZ (j - 1) 3))
    (fun st k => foldl (fun st l => link_cell ind i j k l st) st (seqZ (j - 1) 3))).
  intros k _.
  apply (refines_fold _ _ (fun st l => link_cell_chk ind i j k l st)
                          (fun st l => link_cell ind i j k l st)).
  intros l _. by apply link_cell_refines.
Qed.

Lemma init_routes_chk_spec ind stops s_len al c :
  (∀ i j, 0 ≤ ind i j → ind i j < Z.of_nat (length stops)) →
  Forall (fun s => stop_n s = [] ∧ stop_n_len s = 0) stops →
  init_routes_chk ind stops s_len al c
  = after_allocs al c (2 * length (rt_routes (init_routes ind stops s_len)))
                 (init_routes ind stops s_len).
Proof.
  intros Hv Hblank. unfold init_routes_chk.
  pose proof (refines_fold (routes_ok (length stops))
    (fun st => (2 * Z.to_nat (rt_len st))%nat)
    (fun st i => foldM (fun st j => link_around_chk ind i j st) st cols)
    (fun st i => foldl (fun st j => link_around ind i j st) st cols) rows) as Hout.
  destruct (Hout
      ltac:(intros i _;
            apply (refines_fold _ _ (fun st j => link_around_chk ind i j st)
                                    (fun st j => link_around ind i j st));
            intros j _; by apply link_around_refines)
      {| rt_routes := []; rt_len := 0; rt_stops := stops |} al c)
    as ((Hlen & _) & _ & Hrun).
  { split_and!; try done. eapply Forall_impl; [done|]. intros s [-> ->]. done. }
  fold (init_routes ind stops s_len) in Hlen, Hrun.
  rewrite Hrun. f_equal. cbn [rt_len]. rewrite Hlen. lia.
Qed.

End CheckedRoutes.

Lemma sentinel_no_node : sentinel no_node.
Proof. intros i j. unfold no_node. lia. Qed.

(** ** What the caller gets *)

Section Reports.
Context {ar : Arith}.

Lemma ind_in_range grid ind0 i j :
  sentinel ind0 →
  0 ≤ st_ind (init_stops grid ind0) i j →
  st_ind (init_stops grid ind0) i j
  < Z.of_nat (length (st_stops (init_stops grid ind0))).
Proof.
  intros Hsen Hpos.
  destruct (init_stops_ind grid ind0 i j Hsen Hpos) as (k & Hk%lookup_lt_Some & ->).
  rewrite init_stops_length. lia.
Qed.

(** C8 (as amended): [init_stops] and [init_routes] do not test what
    [realloc] returns and report nothing.  From a lookup table of sentinels:
    when each of their calls of [realloc] succeeds (one per open interior cell;
    two per edge) they build the tables; when one returns [NULL], the store
    that follows goes through the null pointer. *)
Theorem realloc_failure_is_null_store grid ind0 al c :
  sentinel ind0 →
  let st := init_stops grid ind0 in
  let rs := build_graph grid ind0 in
  init_stops_chk grid ind0 al c
  = after_allocs al c (length (open_interior grid)) st
  ∧ init_routes_chk (st_ind st) (st_stops st) (st_len st) al c
    = after_allocs al c (2 * length (rt_routes rs)) rs.
Proof.
  intros Hsen st rs. split; [apply init_stops_chk_spec|].
  apply init_routes_chk_spec.
  - intros i j. by apply ind_in_range.
  - apply init_stops_no_edges.
Qed.

Lemma scan_stops_degenerate grid ind0 :
  open_interior grid = [] →
  scan_stops grid ind0 = {| st_stops := []; st_len := 0; st_ind := ind0 |}.
Proof.
  intros Hnone. unfold scan_stops. rewrite (foldl_nested (scan_cell grid)).
  fold interior.
  assert (Forall (fun c => ¬ is_open grid c) interior) as Hall.
  { apply Forall_forall. intros c Hc Ho.
    assert (c ∈ open_interior grid) as Hin by (by apply list_elem_of_filter).
    rewrite Hnone in Hin. by apply elem_of_nil in Hin. }
  generalize {| st_stops := []; st_len := 0; st_ind := ind0 |}.
  induction Hall as [|c cs Hc _ IH]; intros st; [done|].
  cbn [foldl]. unfold scan_cell at 2.
  rewrite decide_False by exact Hc. apply IH.
Qed.

Lemma init_stops_degenerate grid ind0 :
  open_interior grid = [] →
  init_stops grid ind0 = {| st_stops := []; st_len := 0; st_ind := ind0 |}.
Proof.
  intros Hnone. unfold init_stops. by rewrite scan_stops_degenerate.
Qed.

Lemma links_sentinel ind0 : sentinel ind0 → links ind0 = [].
Proof.
  intros Hsen. apply elem_of_nil_inv. intros [c c'] [_ Hl]%links_spec.
  apply links_of_spec in Hl as (Hpos & _). specialize (Hsen c.1 c.2). lia.
Qed.

Lemma init_routes_degenerate ind0 :
  sentinel ind0 →
  init_routes ind0 [] 0 = {| rt_routes := []; rt_len := 0; rt_stops := [] |}.
Proof.
  intros Hsen. by rewrite init_routes_links, links_sentinel.
Qed.

(** [main] up to the call of [find_path]. *)
Lemma main_with_run fp grid ind0 al c st c1 rs c2 :
  init_stops_chk grid ind0 al c = Done (st, c1) →
  init_routes_chk (st_ind st) (st_stops st) (st_len st) al c1 = Done (rs, c2) →
  main_with fp grid ind0 al c
  = print_result None (fp (rt_stops rs) (rt_routes rs) (st_len st)) al c2.
Proof.
  intros Hs Hr. unfold main_with, mbind at 1, M_bind at 1. rewrite Hs.
  unfold mbind at 1, M_bind at 1. by rewrite Hr.
Qed.

Lemma init_stops_chk_degenerate grid ind0 al c :
  open_interior grid = [] →
  init_stops_chk grid ind0 al c
  = Done ({| st_stops := []; st_len := 0; st_ind := ind0 |}, c).
Proof.
  intros Hnone. rewrite init_stops_chk_spec, Hnone, init_stops_degenerate by done.
  apply after_allocs_0.
Qed.

Lemma init_routes_chk_degenerate ind0 al c :
  sentinel ind0 →
  init_routes_chk ind0 [] 0 al c
  = Done ({| rt_routes := []; rt_len := 0; rt_stops := [] |}, c).
Proof.
  intros Hsen. rewrite init_routes_chk_spec.
  - rewrite init_routes_degenerate by done. apply after_allocs_0.
  - intros i j Hpos. specialize (Hsen i j). lia.
  - done.
Qed.

(** C7 (as amended): on a grid with no open interior cell, [init_stops]
    returns with [s_len = 0] and an empty node table and [init_routes] with
    [r_len = 0] and an empty edge table, neither indexing a table out of range
    nor calling [realloc]; nothing is detected or reported: [main] hands the
    empty tables and [s_len = 0] to [find_path], whatever its body, and goes
    on with what it returns. *)
Theorem degenerate_grid_unreported grid ind0 al c :
  sentinel ind0 →
  open_interior grid = [] →
  init_stops_chk grid ind0 al c
  = Done ({| st_stops := []; st_len := 0; st_ind := ind0 |}, c)
  ∧ init_routes_chk ind0 [] 0 al c
    = Done ({| rt_routes := []; rt_len := 0; rt_stops := [] |}, c)
  ∧ ∀ fp, main_with fp grid ind0 al c = print_result None (fp [] [] 0) al c.
Proof.
  intros Hsen Hnone. split_and!.
  - by apply init_stops_chk_degenerate.
  - by apply init_routes_chk_degenerate.
  - intros fp.
    apply (main_with_run fp grid ind0 al c
             {| st_stops := []; st_len := 0; st_ind := ind0 |} c
             {| rt_routes := []; rt_len := 0; rt_stops := [] |} c).
    + by apply init_stops_chk_degenerate.
    + by apply init_routes_chk_degenerate.
Qed.

Lemma reverse_seqZ_S (k : nat) :
  reverse (seqZ 0 (Z.of_nat (S k))) = Z.of_nat k :: reverse (seqZ 0 (Z.of_nat k)).
Proof. by rewrite seqZ_S, reverse_snoc, Z.add_0_l. Qed.

(** C2 (what the code does instead): whenever the graph is built and
    [find_path], whatever its body, reports success with a path of at least
    one node, the variable [path] of [main] is still [NULL] and [main] loads
    [path[p_len - 1]] through it: the path is not available to [main]. *)
Theorem main_loads_null_path fp grid ind0 al c st c1 rs c2 p stops' :
  init_stops_chk grid ind0 al c = Done (st, c1) →
  init_routes_chk (st_ind st) (st_stops st) (st_len st) al c1 = Done (rs, c2) →
  fp (rt_stops rs) (rt_routes rs) (st_len st) = Done (Found p, stops') →
  p ≠ [] →
  main_with fp grid ind0 al c = Fault NullLoad.
Proof.
  intros Hs Hr Hfp Hp. rewrite (main_with_run fp grid ind0 al c st c1 rs c2 Hs Hr).
  unfold print_result, mbind at 1, M_bind at 1, lift at 1. rewrite Hfp.
  destruct p as [|v p]; [done|]. cbn [length].
  rewrite reverse_seqZ_S. done.
Qed.

End Reports.

(** ** Outcomes *)

Lemma bind_Done {S T} (m : outcome S) (k : S → outcome T) y :
  m ≫= k = Done y ↔ ∃ x, m = Done x ∧ k x = Done y.
Proof.
  unfold mbind, outcome_bind. destruct m as [x|e].
  - split; [by exists x|]. by intros (? & [= <-] & ?).
  - split; [done|]. by intros (? & ? & _).
Qed.

Lemma load_Done {T} (l : list T) i x : load l i = Done x ↔ zlookup l i = Some x.
Proof. unfold load. destruct (zlookup l i); split; congruence. Qed.

Lemma assigned_Done {T} (o : option T) x : assigned o = Done x ↔ o = Some x.
Proof. unfold assigned. destruct o; split; congruence. Qed.

(** ** The search in exact arithmetic *)

Lemma exact_dlt (x y : R) : dlt (Arith := exact) x y = true ↔ (x < y)%R.
Proof. cbn. destruct (Rlt_dec x y); split; congruence. Qed.

Lemma exact_dlt_false (x y : R) : dlt (Arith := exact) x y = false ↔ (y <= x)%R.
Proof. cbn. destruct (Rlt_dec x y); split; try congruence; lra. Qed.

Lemma exact_DBL_MAX_pos : (0 < DBL_MAX (Arith := exact))%R.
Proof. cbn. apply IZR_lt. by apply Z.ltb_lt. Qed.

Section Astar.
Local Existing Instance exact.

Lemma before_Done ns c b r :
  before ns c b = Done r →
  r = (dlt (fof ns c) (fof ns b) || (negb (dlt (fof ns b) (fof ns c)) && bool_decide (c < b))).
Proof.
  unfold before. intros (sc & Hc%load_Done & (sb & Hb%load_Done &
    (fc & Hfc%assigned_Done & (fb & Hfb%assigned_Done & [= <-])%bind_Done)%bind_Done)%bind_Done)%bind_Done.
  unfold fof. by rewrite Hc, Hb, Hfc, Hfb.
Qed.

(** Step 2a returns a frontier node of minimum [f]. *)
Lemma select_min_spec ns best rest u :
  select_min ns best rest = Done u →
  u ∈ best :: rest ∧ ∀ w, w ∈ best :: rest → (fof ns u <= fof ns w)%R.
Proof.
  revert best. induction rest as [|c rest IH]; intros best Hsel.
  { injection Hsel as <-. split; [by left|]. intros w ->%list_elem_of_singleton. lra. }
  cbn [select_min] in Hsel.
  apply bind_Done in Hsel as (b & Hb%before_Done & Hsel).
  apply IH in Hsel as [Hin Hmin]. split.
  - apply elem_of_cons in Hin as [->|Hin]; [|by do 2 right].
    destruct b; [right; by left|by left].
  - intros w Hw.
    assert (fof ns u <= fof ns (if b then c else best))%R as Hu by (apply Hmin; by left).
    apply elem_of_cons in Hw as [->|[->|Hw]%elem_of_cons].
    + destruct b; [|done]. symmetry in Hb.
      apply orb_true_iff in Hb as [Hlt%exact_dlt|[Hge%negb_true_iff%exact_dlt_false _]%andb_true_iff];
        lra.
    + destruct b; [done|]. symmetry in Hb.
      apply orb_false_iff in Hb as [Hge%exact_dlt_false _]. lra.
    + apply Hmin. by right.
Qed.

Variable routes : list route.
Variable stops0 : list stop.

Hypothesis wf_edges : ∀ u su, zlookup stops0 u = Some su →
  ∀ t, t ∈ stop_n su ↔ ∃ r, zlookup routes t = Some r ∧ route_x r = u.
Hypothesis wf_weight : ∀ r, r ∈ routes → (0 <= route_d r)%R.
Hypothesis wf_consistent : ∀ r, r ∈ routes →
  (hof stops0 (route_x r) <= route_d r + hof stops0 (route_y r))%R.
Hypothesis wf_init : ∀ s, s ∈ stops0 → stop_g s = DBL_MAX ∧ stop_from s = -1.

Lemma hof_shape u pend st v :
  search_inv routes stops0 u pend st → is_Some (zlookup (nodes st) v) → hof (nodes st) v = hof stops0 v.
Proof.
  intros Hinv [s Hs]. destruct (inv_shape Hinv v s Hs) as (s0 & Hs0 & _ & Hh).
  unfold hof. by rewrite Hs, Hs0, Hh.
Qed.

Lemma lookup_routes_elem_gen {T} (l : list T) t x : zlookup l t = Some x → x ∈ l.
Proof. intros [_ ?]%zlookup_Some. by eapply list_elem_of_lookup_2. Qed.

Lemma lookup_routes_elem t r : zlookup routes t = Some r → r ∈ routes.
Proof. apply lookup_routes_elem_gen. Qed.

(** Along any path from the start, either every node is closed or some node
    that is not closed bounds the cost from below. *)
Lemma open_node_on_path u st y p c :
  search_inv routes stops0 u [] st →
  reach routes 0 y p c →
  y ∈ closed st
  ∨ ∃ z cz, (z ∉ closed st) ∧ (gof (nodes st) z <= cz)%R ∧ (cz <= c)%R
            ∧ (cz + hof stops0 z <= c + hof stops0 y)%R.
Proof.
  intros Hinv. induction 1 as [|x y p c r Hreach IH Hr Hx Hy].
  - destruct (decide (0 ∈ closed st)) as [?|Hopen]; [by left|]. right.
    exists 0, 0%R. rewrite (inv_start Hinv). cbn. split_and!; [done|lra..].
  - pose proof (wf_weight r Hr) as Hw. pose proof (wf_consistent r Hr) as Hc.
    rewrite Hx, Hy in Hc. cbn [dadd exact].
    destruct IH as [Hcl|(z & cz & Hz & Hgz & Hcz & Hhz)].
    + destruct (decide (y ∈ closed st)) as [?|Hopen]; [by left|]. right.
      exists y, (c + route_d r)%R. split_and!; [done| |lra..].
      destruct (list_elem_of_lookup_1 _ _ Hr) as [t Ht].
      assert (zlookup routes (Z.of_nat t) = Some r) as Ht' by (by rewrite zlookup_of_nat).
      destruct (inv_relaxed Hinv x _ r Hcl Ht' Hx) as [Hrel|[_ []%elem_of_nil]].
      rewrite Hy in Hrel.
      destruct (inv_closed Hinv x Hcl) as [_ Hopt]. specialize (Hopt p c Hreach). lra.
    + right. exists z, cz. split_and!; [done..|lra|lra].
Qed.

(** The node that step 2a selects carries its least cost. *)
Lemma selected_optimal u0 st u p c :
  search_inv routes stops0 u0 [] st →
  u ∈ frontier st →
  (∀ w, w ∈ frontier st → (fof (nodes st) u <= fof (nodes st) w)%R) →
  reach routes 0 u p c →
  (gof (nodes st) u <= c)%R.
Proof.
  intros Hinv Hu Hmin Hreach.
  destruct (inv_front Hinv u Hu) as (Hucl & Hult & su & hu & Hsu & Hhu & Hfu).
  destruct (open_node_on_path _ _ _ _ _ Hinv Hreach)
    as [?|(z & cz & Hz & Hgz & Hcz & Hhz)]; [done|].
  destruct (decide (z ∈ frontier st)) as [Hzf|Hzf].
  - destruct (inv_front Hinv z Hzf) as (_ & _ & sz & hz & Hsz & Hhz' & Hfz).
    specialize (Hmin z Hzf). unfold fof in Hmin. rewrite Hsu, Hsz, Hfu, Hfz in Hmin.
    cbn in Hmin.
    rewrite <- (hof_shape _ _ _ u Hinv), <- (hof_shape _ _ _ z Hinv) in Hhz by done.
    unfold hof, gof in *. rewrite ?Hsu, ?Hsz, ?Hhu, ?Hhz' in *. cbn in *. lra.
  - rewrite (inv_unseen Hinv z Hz Hzf) in Hgz.
    pose proof (inv_bound Hinv u). lra.
Qed.

Lemma gof_lookup ns v s : zlookup ns v = Some s → gof ns v = stop_g s.
Proof. unfold gof. by intros ->. Qed.

Lemma gof_lt_valid ns v : (gof ns v < DBL_MAX)%R → is_Some (zlookup ns v).
Proof. unfold gof. destruct (zlookup ns v); [by eexists|]. lra. Qed.

Lemma gof_zalter f ns v w :
  gof (zalter f v ns) w
  = if decide (w = v) then match zlookup ns v with
                           | Some s => stop_g (f s) | None => DBL_MAX end
    else gof ns w.
Proof.
  unfold gof. case_decide as Hw.
  - subst w. rewrite zlookup_zalter. by destruct (zlookup ns v).
  - by rewrite zlookup_zalter_ne.
Qed.

(** Step 2d keeps the invariant and settles one more edge of [u]. *)
Lemma relax_inv u t pend st st' :
  search_inv routes stops0 u (t :: pend) st →
  u ∈ closed st →
  (∀ r, zlookup routes t = Some r → route_x r = u) →
  relax routes u st t = Done st' →
  search_inv routes stops0 u pend st' ∧ closed st' = closed st.
Proof.
  intros Hinv Hu Hsrc Hrel. unfold relax in Hrel.
  apply bind_Done in Hrel as (r & Hr%load_Done & Hrel).
  pose proof (Hsrc r Hr) as Hx. pose proof (lookup_routes_elem t r Hr) as Hin.
  pose proof (wf_weight r Hin) as Hw.
  destruct (inv_closed Hinv u Hu) as [Hult Huopt].
  destruct (inv_real Hinv u Hult) as [pu Hpu].
  assert (Hpv : reach routes 0 (route_y r) (route_y r :: pu)
                  (gof (nodes st) u + route_d r)%R).
  { by apply (reach_step routes 0 u (route_y r) pu _ r). }
  (* the invariant once the edge [t] is known to be relaxed in [st] itself *)
  assert (Hsame : (gof (nodes st) (route_y r) <= gof (nodes st) u + route_d r)%R →
                  search_inv routes stops0 u pend st).
  { intros Hle. destruct Hinv. constructor; try done.
    intros x t0 r0 Hxc Hr0 Hx0.
    destruct (inv_relaxed0 x t0 r0 Hxc Hr0 Hx0) as [?|[-> [->|?]%elem_of_cons]];
      [by left| |by right].
    left. rewrite Hr in Hr0. by injection Hr0 as <-. }
  case_bool_decide as Hvcl.
  { injection Hrel as <-. split; [|done]. apply Hsame.
    destruct (inv_closed Hinv _ Hvcl) as [_ Hvopt]. by apply Hvopt in Hpv. }
  apply bind_Done in Hrel as (su & Hsu%load_Done & Hrel).
  apply bind_Done in Hrel as (sv & Hsv%load_Done & Hrel).
  pose proof (gof_lookup _ _ _ Hsu) as Hgu. pose proof (gof_lookup _ _ _ Hsv) as Hgv.
  destruct (dlt (dadd (stop_g su) (route_d r)) (stop_g sv)) eqn:Hlt.
  2:{ injection Hrel as <-. split; [|done]. apply Hsame.
      apply exact_dlt_false in Hlt. cbn [dadd exact] in Hlt. lra. }
  apply exact_dlt in Hlt. cbn [dadd exact] in Hlt.
  apply bind_Done in Hrel as (hv & Hhv%assigned_Done & [= <-]).
  split; [|done].
  set (v := route_y r) in *.
  remember (stop_g su + route_d r)%R as g' eqn:Hg'.
  assert (Huv : u ≠ v) by (intros ->; done).
  pose proof (inv_bound Hinv u) as Hbu. pose proof (inv_bound Hinv v) as Hbv.
  assert (Hv0 : v ≠ 0).
  { intros Hv0. assert (gof (nodes st) v = 0%R) as H0.
    { rewrite Hv0. apply (inv_start Hinv). }
    lra. }
  assert (Hgn : ∀ w, w ≠ v → gof (zalter (discover u g' hv) v (nodes st)) w
                             = gof (nodes st) w).
  { intros w Hwv. by rewrite gof_zalter, decide_False. }
  assert (Hgy : gof (zalter (discover u g' hv) v (nodes st)) v = g').
  { by rewrite gof_zalter, decide_True, Hsv. }
  assert (Hl : ∀ w, w ≠ v →
             zlookup (zalter (discover u g' hv) v (nodes st)) w = zlookup (nodes st) w).
  { intros w Hwv. by apply zlookup_zalter_ne. }
  assert (Hlv : zlookup (zalter (discover u g' hv) v (nodes st)) v
                = Some (discover u g' hv sv)).
  { by rewrite zlookup_zalter, Hsv. }
  assert (Hfr : ∀ w, w ∈ (if bool_decide (v ∈ frontier st) then frontier st
                          else frontier st ++ [v]) ↔ w = v ∨ w ∈ frontier st).
  { intros w. destruct (bool_decide_reflect (v ∈ frontier st)).
    - split; [by right|]. by intros [->|?].
    - rewrite elem_of_app, list_elem_of_singleton. tauto. }
  assert (Hnew : (v ∉ closed st)
                 ∧ (gof (zalter (discover u g' hv) v (nodes st)) v < DBL_MAX)%R
                 ∧ ∃ s hv0, zlookup (zalter (discover u g' hv) v (nodes st)) v = Some s
                            ∧ stop_h s = Some hv0 ∧ stop_f s = Some (stop_g s + hv0)%R).
  { rewrite Hgy. split_and!; [done|lra|].
    exists (discover (ar := exact) u g' hv sv), hv. by split_and!. }
  constructor; cbn [nodes frontier closed].
  - intros w s. destruct (decide (w = v)) as [->|Hwv].
    + rewrite Hlv. intros [= <-]. by apply (inv_shape Hinv v sv).
    + rewrite Hl by done. apply (inv_shape Hinv).
  - rewrite Hgn by done. apply (inv_start Hinv).
  - intros w. destruct (decide (w = v)) as [->|Hwv].
    + rewrite Hgy. lra.
    + rewrite Hgn by done. apply (inv_bound Hinv).
  - intros w Hwf%Hfr. destruct (decide (w = v)) as [->|Hwv]; [done|].
    destruct Hwf as [?|Hwf]; [done|].
    rewrite Hgn, Hl by done. apply (inv_front Hinv w Hwf).
  - intros w Hwc Hwf. rewrite Hfr in Hwf.
    rewrite Hgn by tauto. apply (inv_unseen Hinv); tauto.
  - intros w Hwc. rewrite Hgn by (intros ->; done).
    apply (inv_closed Hinv w Hwc).
  - intros x t0 r0 Hxc Hr0 Hx0.
    assert (x ≠ v) as Hxv by (intros ->; done).
    rewrite (Hgn x) by done.
    destruct (inv_relaxed Hinv x t0 r0 Hxc Hr0 Hx0) as [Hle|[-> [->|?]%elem_of_cons]].
    + left. destruct (decide (route_y r0 = v)) as [Hy0|Hy0].
      * rewrite Hy0, Hgy. rewrite Hy0 in Hle. lra.
      * by rewrite Hgn.
    + left. rewrite Hr in Hr0. injection Hr0 as <-. fold v. rewrite Hgy. lra.
    + by right.
  - intros w. destruct (decide (w = v)) as [->|Hwv].
    + rewrite Hgy. intros _. exists (v :: pu). rewrite Hg', <- Hgu. exact Hpv.
    + rewrite Hgn by done. apply (inv_real Hinv).
  - intros w s. destruct (decide (w = v)) as [->|Hwv].
    + rewrite Hlv. intros [= <-]. right. cbn. split; [done|].
      exists r. rewrite Hgn by done. split_and!; try done.
      by rewrite Hgu.
    + rewrite Hl by done. intros Hs.
      destruct (inv_from Hinv w s Hs) as [?|(Hfc & r0 & ? & ? & ? & Hgs)]; [by left|].
      right. split; [done|]. exists r0. split_and!; try done.
      rewrite Hgn; [done|]. intros Heq. by rewrite Heq in Hfc.
Qed.


(** Step 2c: closing the selected node. *)
Lemma close_inv u0 st u su :
  search_inv routes stops0 u0 [] st →
  u ∈ frontier st →
  (∀ w, w ∈ frontier st → (fof (nodes st) u <= fof (nodes st) w)%R) →
  zlookup (nodes st) u = Some su →
  search_inv routes stops0 u (stop_n su)
    {| nodes := nodes st; frontier := filter (fun w => w ≠ u) (frontier st);
       closed := u :: closed st |}.
Proof.
  intros Hinv Hu Hmin Hsu.
  destruct (inv_front Hinv u Hu) as (Hucl & Hult & _).
  constructor; cbn [nodes frontier closed].
  - apply (inv_shape Hinv).
  - apply (inv_start Hinv).
  - apply (inv_bound Hinv).
  - intros w [Hwu Hw]%list_elem_of_filter.
    destruct (inv_front Hinv w Hw) as (Hwc & ? & ?).
    split_and!; try done. by apply not_elem_of_cons.
  - intros w [Hwu Hwc]%not_elem_of_cons Hwf. apply (inv_unseen Hinv); [done|].
    intros Hw. apply Hwf. by apply list_elem_of_filter.
  - intros w [->|Hw]%elem_of_cons.
    + split; [done|]. intros p c. by apply (selected_optimal u0 st).
    + apply (inv_closed Hinv w Hw).
  - intros x t r [->|Hx]%elem_of_cons Hr Hxr.
    + right. split; [done|].
      destruct (inv_shape Hinv u su Hsu) as (s0 & Hs0 & -> & _).
      apply (wf_edges u s0 Hs0). by exists r.
    + destruct (inv_relaxed Hinv x t r Hx Hr Hxr) as [?|[_ []%elem_of_nil]].
      by left.
  - apply (inv_real Hinv).
  - intros w s Hs.
    destruct (inv_from Hinv w s Hs) as [?|[? ?]]; [by left|].
    right. split; [by right|done].
Qed.



(** Step 1 establishes the invariant. *)
Lemma init_inv s0 h0 :
  zlookup stops0 0 = Some s0 →
  stop_h s0 = Some h0 →
  search_inv routes stops0 0 []
    {| nodes := zalter (fun s => set_f (set_g s (of_int 0)) (Some h0)) 0 stops0;
       frontier := [0]; closed := [] |}.
Proof.
  intros Hs0 Hh0.
  set (ns := zalter (fun s => set_f (set_g s (of_int 0)) (Some h0)) 0 stops0).
  assert (Hl0 : zlookup ns 0 = Some (set_f (set_g s0 (of_int 0)) (Some h0))).
  { subst ns. by rewrite zlookup_zalter, Hs0. }
  assert (Hl : ∀ w, w ≠ 0 → zlookup ns w = zlookup stops0 w).
  { intros w Hw. subst ns. by apply zlookup_zalter_ne. }
  assert (Hg0 : gof ns 0 = 0%R) by (unfold gof; by rewrite Hl0).
  assert (Hgn : ∀ w, w ≠ 0 → gof ns w = DBL_MAX).
  { intros w Hw. unfold gof. rewrite Hl by done.
    destruct (zlookup stops0 w) as [s|] eqn:Hs; [|done].
    apply (wf_init s). by apply (lookup_routes_elem_gen _ _ _ Hs). }
  pose proof exact_DBL_MAX_pos as Hpos.
  constructor; cbn [nodes frontier closed].
  - intros w s. destruct (decide (w = 0)) as [->|Hw].
    + rewrite Hl0. intros [= <-]. by exists s0.
    + rewrite Hl by done. intros Hs. by exists s.
  - done.
  - intros w. destruct (decide (w = 0)) as [->|Hw].
    + rewrite Hg0. lra.
    + rewrite Hgn by done. lra.
  - intros w ->%list_elem_of_singleton. rewrite Hg0. split_and!; [apply not_elem_of_nil|lra|].
    eexists _, h0. split_and!; [exact Hl0|done|]. cbn. f_equal. lra.
  - intros w _ Hw. apply Hgn. intros ->. apply Hw. by left.
  - by intros w ?%elem_of_nil.
  - by intros x t r ?%elem_of_nil.
  - intros w. destruct (decide (w = 0)) as [->|Hw].
    + intros _. exists [0]. rewrite Hg0. exact (reach_start (ar := exact) routes 0).
    + rewrite Hgn by done. lra.
  - intros w s. destruct (decide (w = 0)) as [->|Hw].
    + rewrite Hl0. intros [= <-]. left. cbn. split; [|by left].
      destruct (wf_init s0) as [_ ->]; [|done]. by apply (lookup_routes_elem_gen _ _ _ Hs0).
    + rewrite Hl by done. intros Hs. left.
      destruct (wf_init s) as [-> ->]; [by apply (lookup_routes_elem_gen _ _ _ Hs)|].
      split; [done|by right].
Qed.


(** *** The search returns *)

Hypothesis wf_target : ∀ r, r ∈ routes → is_Some (zlookup stops0 (route_y r)).
Hypothesis wf_heuristic : ∀ s, s ∈ stops0 → is_Some (stop_h s).

Lemma chain_ok_ext ns ns' cl :
  (∀ z, z ∈ cl → zlookup ns' z = zlookup ns z) → chain_ok ns cl → chain_ok ns' cl.
Proof.
  induction cl as [|z cl IH]; intros Hext; [done|]. cbn. intros [Hz Hcl]. split.
  - rewrite Hext by (by left). exact Hz.
  - apply IH; [|done]. intros w Hw. apply Hext. by right.
Qed.

Lemma relax_frame u st t st' :
  relax routes u st t = Done st' →
  closed st' = closed st
  ∧ length (nodes st') = length (nodes st)
  ∧ ∀ z, z ∈ closed st → zlookup (nodes st') z = zlookup (nodes st) z.
Proof.
  unfold relax. intros (r & Hr & Hrel)%bind_Done.
  destruct (bool_decide_reflect (route_y r ∈ closed st)) as [|Hv].
  { by injection Hrel as <-. }
  apply bind_Done in Hrel as (su & Hsu & Hrel).
  apply bind_Done in Hrel as (sv & Hsv & Hrel).
  destruct (dlt _ _).
  - apply bind_Done in Hrel as (hv & Hhv & [= <-]). cbn. split_and!; [done|..].
    + apply length_zalter.
    + intros z Hz. apply zlookup_zalter_ne. intros Heq. apply Hv. by rewrite Heq.
  - by injection Hrel as <-.
Qed.

Lemma relax_returns u t pend st :
  search_inv routes stops0 u (t :: pend) st →
  length (nodes st) = length stops0 →
  u ∈ closed st →
  (∃ r, zlookup routes t = Some r ∧ route_x r = u) →
  ∃ st', relax routes u st t = Done st'.
Proof.
  intros Hinv Hlen Hu (r & Hr & Hx). unfold relax, load. rewrite Hr. cbn.
  destruct (bool_decide_reflect (route_y r ∈ closed st)) as [|Hv]; [by eexists|].
  destruct (inv_closed Hinv u Hu) as [[su Hsu]%gof_lt_valid _].
  destruct (proj2 (zlookup_is_Some (nodes st) (route_y r))) as [sv Hsv].
  { rewrite Hlen. apply zlookup_is_Some, wf_target. by eapply lookup_routes_elem. }
  rewrite Hsu, Hsv. cbn.
  destruct (Rlt_dec _ _); [|by eexists].
  destruct (inv_shape Hinv _ _ Hsv) as (s0 & Hs0 & _ & Hh).
  destruct (wf_heuristic s0) as [hv Hhv]; [by eapply lookup_routes_elem_gen|].
  rewrite Hh, Hhv. cbn. by eexists.
Qed.

Lemma relax_all_returns u pend st :
  search_inv routes stops0 u pend st →
  length (nodes st) = length stops0 →
  u ∈ closed st →
  chain_ok (nodes st) (closed st) →
  (∀ t, t ∈ pend → ∃ r, zlookup routes t = Some r ∧ route_x r = u) →
  ∃ st', foldO (relax routes u) st pend = Done st'
         ∧ search_inv routes stops0 u [] st'
         ∧ length (nodes st') = length stops0
         ∧ closed st' = closed st
         ∧ chain_ok (nodes st') (closed st').
Proof.
  revert st. induction pend as [|t pend IH]; intros st Hinv Hlen Hu Hch Hsrc.
  { exists st. by split_and!. }
  destruct (relax_returns u t pend st Hinv Hlen Hu) as [st1 Hst1].
  { apply Hsrc. by left. }
  destruct (relax_frame u st t st1 Hst1) as (Hcl & Hlen1 & Hfr).
  destruct (relax_inv u t pend st st1 Hinv Hu) as [Hinv1 _];
    [|done|].
  { intros r Hr. destruct (Hsrc t ltac:(by left)) as (r' & Hr' & Hx). congruence. }
  destruct (IH st1) as (st' & Hrun & Hinv' & Hlen' & Hcl' & Hch'); try done.
  - congruence.
  - by rewrite Hcl.
  - rewrite Hcl. by apply (chain_ok_ext (nodes st)).
  - intros t' ?. apply Hsrc. by right.
  - exists st'. cbn [foldO]. rewrite Hst1. cbn. split_and!; try done; congruence.
Qed.

Lemma before_returns ns c b sc sb fc fb :
  zlookup ns c = Some sc → zlookup ns b = Some sb →
  stop_f sc = Some fc → stop_f sb = Some fb →
  before ns c b = Done (dlt fc fb || (negb (dlt fb fc) && bool_decide (c < b))).
Proof.
  intros Hc Hb Hfc Hfb. unfold before, load, assigned.
  rewrite Hc. cbn. rewrite Hb. cbn. rewrite Hfc. cbn. by rewrite Hfb.
Qed.

Lemma select_min_returns ns best rest :
  (∀ w, w ∈ best :: rest → ∃ s fv, zlookup ns w = Some s ∧ stop_f s = Some fv) →
  ∃ u, select_min ns best rest = Done u.
Proof.
  revert best. induction rest as [|c rest IH]; intros best Hf; [by eexists|].
  cbn [select_min].
  destruct (Hf c ltac:(right; by left)) as (sc & fc & Hc & Hfc).
  destruct (Hf best ltac:(by left)) as (sb & fb & Hb & Hfb).
  rewrite (before_returns ns c best sc sb fc fb) by done. cbn.
  apply IH. intros w [->|Hw]%elem_of_cons.
  - destruct (_ || _); [by exists sc, fc|by exists sb, fb].
  - apply Hf. by do 2 right.
Qed.

Lemma reconstruct_mono fuel ns cur path :
  reconstruct fuel ns cur = Done path → reconstruct (S fuel) ns cur = Done path.
Proof.
  revert cur path. induction fuel as [|fuel IH]; intros cur path; [done|].
  intros Hrec. cbn [reconstruct] in Hrec |- *.
  apply bind_Done in Hrec as (s & Hs & Hrec). rewrite Hs. cbn.
  case_decide; [done|].
  apply bind_Done in Hrec as (rest & Hrest%IH & [= <-]).
  cbn [reconstruct] in Hrest. by rewrite Hrest.
Qed.

Lemma reconstruct_closed ns cl cur :
  chain_ok ns cl → (∀ z, z ∈ cl → is_Some (zlookup ns z)) → cur ∈ cl →
  ∃ path, reconstruct (length cl) ns cur = Done path.
Proof.
  revert cur. induction cl as [|z cl IH]; intros cur Hch Hval Hcur;
    [by apply elem_of_nil in Hcur|].
  destruct Hch as [Hz Hch].
  assert (∀ w, w ∈ cl → ∃ path, reconstruct (length cl) ns w = Done path) as IH'.
  { intros w Hw. apply IH; [done| |done]. intros w' ?. apply Hval. by right. }
  destruct (decide (cur ∈ cl)) as [Hin|Hout].
  { destruct (IH' cur Hin) as [path Hp]. exists path. by apply reconstruct_mono. }
  apply elem_of_cons in Hcur as [->|?]; [|done].
  destruct (Hval z ltac:(by left)) as [s Hs].
  cbn [length reconstruct]. unfold load. rewrite Hs. cbn.
  case_decide as Hneg; [by eexists|].
  destruct (Hz s Hs) as [?|Hf]; [done|].
  destruct (IH' _ Hf) as [rest ->]. by eexists.
Qed.

Lemma closed_bound st u0 pend :
  search_inv routes stops0 u0 pend st →
  NoDup (closed st) →
  (length (closed st) ≤ length (nodes st))%nat.
Proof.
  intros Hinv Hnd.
  assert (closed st ⊆+ seqZ 0 (Z.of_nat (length (nodes st)))) as Hsub.
  { apply NoDup_submseteq; [done|]. intros z Hz. apply elem_of_seqZ.
    destruct (inv_closed Hinv z Hz) as [Hv%gof_lt_valid%zlookup_is_Some _]. lia. }
  apply submseteq_length in Hsub. rewrite length_seqZ in Hsub. lia.
Qed.

Lemma open_bound st u0 pend u :
  search_inv routes stops0 u0 pend st →
  NoDup (closed st) →
  u ∈ frontier st →
  (S (length (closed st)) ≤ length (nodes st))%nat.
Proof.
  intros Hinv Hnd Hu.
  destruct (inv_front Hinv u Hu) as (Hucl & Hv%gof_lt_valid%zlookup_is_Some & _).
  assert (u :: closed st ⊆+ seqZ 0 (Z.of_nat (length (nodes st)))) as Hsub.
  { apply NoDup_submseteq; [by constructor|]. intros z [->|Hz]%elem_of_cons.
    - apply elem_of_seqZ. lia.
    - apply elem_of_seqZ.
      destruct (inv_closed Hinv z Hz) as [Hz'%gof_lt_valid%zlookup_is_Some _]. lia. }
  apply submseteq_length in Hsub. rewrite length_seqZ in Hsub. cbn [length] in Hsub. lia.
Qed.

Lemma reconstruct_returns st u0 pend cur :
  search_inv routes stops0 u0 pend st →
  NoDup (closed st) →
  chain_ok (nodes st) (closed st) →
  cur ∈ frontier st →
  ∃ path, reconstruct (length (nodes st)) (nodes st) cur = Done path.
Proof.
  intros Hinv Hnd Hch Hcur.
  pose proof (open_bound st u0 pend cur Hinv Hnd Hcur) as Hb.
  destruct (inv_front Hinv cur Hcur) as (_ & _ & s & _ & Hs & _).
  assert (∃ path, reconstruct (S (length (closed st))) (nodes st) cur = Done path)
    as [path Hp].
  { cbn [reconstruct]. unfold load. rewrite Hs. cbn.
    case_decide as Hneg; [by eexists|].
    destruct (inv_from Hinv cur s Hs) as [[? _]|[Hf _]]; [done|].
    destruct (reconstruct_closed (nodes st) (closed st) (stop_from s)) as [rest ->];
      [done| |done|by eexists].
    intros z Hz. by destruct (inv_closed Hinv z Hz) as [?%gof_lt_valid _]. }
  exists path. clear -Hp Hb.
  induction Hb as [|n Hn IH]; [done|]. by apply reconstruct_mono.
Qed.

Lemma Done_bind {S T} (x : S) (k : S → outcome T) : Done x ≫= k = k x.
Proof. done. Qed.

Lemma search_loop_round fuel goal st c cs :
  frontier st = c :: cs →
  search_loop (S fuel) routes goal st
  = (u ← select_min (nodes st) c cs;
     if decide (u = goal) then
       path ← reconstruct (length (nodes st)) (nodes st) u;
       mret (Found path, nodes st)
     else
       su ← load (nodes st) u;
       st' ← foldO (relax routes u)
                   {| nodes := nodes st;
                      frontier := filter (fun w => w ≠ u) (frontier st);
                      closed := u :: closed st |}
                   (stop_n su);
       search_loop fuel routes goal st').
Proof. intros Hfr. cbn [search_loop]. by rewrite Hfr. Qed.

(** With [fuel] rounds left for the nodes that are not closed yet, step 2
    returns. *)
Lemma search_loop_returns fuel goal u0 st :
  search_inv routes stops0 u0 [] st →
  length (nodes st) = length stops0 →
  NoDup (closed st) →
  chain_ok (nodes st) (closed st) →
  (length (nodes st) < length (closed st) + fuel)%nat →
  ∃ v ns, search_loop fuel routes goal st = Done (v, ns).
Proof.
  revert u0 st. induction fuel as [|fuel IH]; intros u0 st Hinv Hlen Hnd Hch Hfuel.
  { pose proof (closed_bound st u0 [] Hinv Hnd). lia. }
  destruct (frontier st) as [|c cs] eqn:Hfr.
  { cbn [search_loop]. rewrite Hfr. by eexists _, _. }
  rewrite (search_loop_round fuel goal st c cs Hfr).
  destruct (select_min_returns (nodes st) c cs) as [u Hsel].
  { intros w Hw. rewrite <- Hfr in Hw.
    destruct (inv_front Hinv w Hw) as (_ & _ & s & hv & Hs & _ & Hf).
    by exists s, (stop_g s + hv)%R. }
  rewrite Hsel, Done_bind.
  apply select_min_spec in Hsel as [Hu Hmin]. rewrite <- Hfr in Hu, Hmin.
  destruct (decide (u = goal)) as [->|Hne].
  { destruct (reconstruct_returns st u0 [] goal) as [path ->]; try done.
    rewrite Done_bind. by eexists _, _. }
  destruct (inv_front Hinv u Hu) as (Hucl & _ & su & _ & Hsu & _).
  rewrite (proj2 (load_Done _ _ _) Hsu), Done_bind.
  pose proof (close_inv u0 st u su Hinv Hu Hmin Hsu) as Hinv1.
  destruct (relax_all_returns u (stop_n su) _ Hinv1)
    as (st' & Hrun & Hinv' & Hlen' & Hcl' & Hch').
  - done.
  - by left.
  - split; [|done]. intros s Hs. cbn [nodes] in Hs. rewrite Hsu in Hs. injection Hs as <-.
    destruct (inv_from Hinv u su Hsu) as [[? _]|[? _]]; [by left|by right].
  - intros t Ht. destruct (inv_shape Hinv u su Hsu) as (s0 & Hs0 & Hn & _).
    rewrite Hn in Ht. by apply (wf_edges u s0 Hs0).
  - rewrite Hrun, Done_bind. cbn [nodes closed] in Hlen', Hcl'.
    apply (IH u st'); try done.
    + rewrite Hcl'. by constructor.
    + rewrite Hcl', Hlen', <- Hlen. cbn [length]. lia.
Qed.

(** [find_path] returns on a graph with at least one node: success or
    failure, never a fault, never out of rounds. *)
Lemma find_path_returns :
  stops0 ≠ [] →
  ∃ v ns, find_path stops0 routes (Z.of_nat (length stops0)) = Done (v, ns).
Proof.
  intros Hne. unfold find_path.
  destruct (proj2 (zlookup_is_Some stops0 0)) as [s0 Hs0].
  { assert (length stops0 ≠ 0%nat) by (by intros ?%nil_length_inv). lia. }
  destruct (wf_heuristic s0) as [h0 Hh0]; [by eapply lookup_routes_elem_gen|].
  rewrite (proj2 (load_Done _ _ _) Hs0), Done_bind.
  rewrite (proj2 (assigned_Done _ _) Hh0), Done_bind.
  apply (search_loop_returns _ _ 0).
  - by apply (init_inv s0 h0).
  - apply length_zalter.
  - constructor.
  - done.
  - cbn [nodes closed length]. rewrite length_zalter. lia.
Qed.

End Astar.

(** *** The search on the built graph *)

Section BuiltExact.
Local Existing Instance exact.

Lemma built_edge_lists grid ind0 u su :
  zlookup (rt_stops (build_graph grid ind0)) u = Some su →
  ∀ t, t ∈ stop_n su
       ↔ ∃ r, zlookup (rt_routes (build_graph grid ind0)) t = Some r ∧ route_x r = u.
Proof.
  intros [Hu Hs]%zlookup_Some.
  apply build_graph_lookup in Hs as (c & e & Hc & He & ->).
  rewrite Z2Nat.id by done. cbn [stop_n with_edges set_n].
  intros t. unfold edges_from. rewrite list_elem_of_filter, elem_of_seqZ. split.
  - intros [Hx _]. destruct (zlookup _ t) as [r|]; [|done].
    exists r. split; [done|]. by injection Hx.
  - intros (r & Hr & Hx). rewrite Hr. split; [cbn; by rewrite Hx|].
    apply zlookup_lt in Hr. lia.
Qed.

Lemma built_nodes_init grid ind0 s :
  s ∈ rt_stops (build_graph grid ind0) → stop_g s = DBL_MAX ∧ stop_from s = -1.
Proof.
  intros [u (c & e & _ & _ & ->)%build_graph_lookup]%list_elem_of_lookup_1. done.
Qed.

(** The edges of the built graph, between the nodes of two cells. *)
Lemma built_edge grid ind0 r :
  sentinel ind0 →
  r ∈ rt_routes (build_graph grid ind0) →
  ∃ (k k' : nat) c c' e,
    route_x r = Z.of_nat k ∧ route_y r = Z.of_nat k'
    ∧ open_interior grid !! k = Some c ∧ open_interior grid !! k' = Some c'
    ∧ last (node_at <$> open_interior grid) = Some e
    ∧ route_d r = euclid (node_at c') (node_at c).
Proof.
  intros Hsen Hr.
  destruct (build_graph_linked grid ind0) as (Hroutes & _). cbv zeta in Hroutes.
  rewrite Hroutes in Hr.
  apply list_elem_of_fmap in Hr as ([c c'] & -> & Hp).
  apply links_spec in Hp as [Hc Hl].
  apply links_of_spec in Hl as (Hpc & Hpc' & _).
  destruct (init_stops_ind grid ind0 _ _ Hsen Hpc) as (k & Hk & Hik).
  destruct (init_stops_ind grid ind0 _ _ Hsen Hpc') as (k' & Hk' & Hik').
  rewrite <- surjective_pairing in Hk, Hk'.
  destruct (init_stops_lookup grid ind0 k c Hk) as (e & He & Hs & _).
  destruct (init_stops_lookup grid ind0 k' c' Hk') as (e' & He' & Hs' & _).
  exists k, k', c, c', e. cbn [route_x route_y route_d edge_of fill_route fst snd].
  rewrite Hik, Hik', !zlookup_of_nat, Hs, Hs'. by split_and!.
Qed.

Lemma built_hof grid ind0 (k : nat) c e :
  open_interior grid !! k = Some c →
  last (node_at <$> open_interior grid) = Some e →
  hof (rt_stops (build_graph grid ind0)) (Z.of_nat k) = euclid e (node_at c).
Proof.
  intros Hk He. unfold hof. rewrite zlookup_of_nat.
  assert (rt_stops (build_graph grid ind0) !! k
          = Some (with_edges (edges_from (rt_routes (build_graph grid ind0)) (Z.of_nat k))
                             (with_h e (node_at c)))) as ->.
  { apply build_graph_lookup. by exists c, e. }
  done.
Qed.

Lemma built_weight grid ind0 r :
  sentinel ind0 → r ∈ rt_routes (build_graph grid ind0) → (0 <= route_d r)%R.
Proof.
  intros Hsen Hr.
  destruct (built_edge grid ind0 r Hsen Hr) as (k & k' & c & c' & e & _ & _ & _ & _ & _ & ->).
  apply sqrt_pos.
Qed.

Lemma built_consistent grid ind0 r :
  sentinel ind0 → r ∈ rt_routes (build_graph grid ind0) →
  (hof (rt_stops (build_graph grid ind0)) (route_x r)
   <= route_d r + hof (rt_stops (build_graph grid ind0)) (route_y r))%R.
Proof.
  intros Hsen Hr.
  destruct (built_edge grid ind0 r Hsen Hr)
    as (k & k' & c & c' & e & -> & -> & Hk & Hk' & He & ->).
  rewrite (built_hof grid ind0 k c e), (built_hof grid ind0 k' c' e) by done.
  rewrite Rplus_comm. unfold euclid. cbn [dsqrt dadd dpow2 dsub exact].
  apply triangle.
Qed.

Lemma built_target grid ind0 r :
  sentinel ind0 → r ∈ rt_routes (build_graph grid ind0) →
  is_Some (zlookup (rt_stops (build_graph grid ind0)) (route_y r)).
Proof.
  intros Hsen Hr.
  destruct (built_edge grid ind0 r Hsen Hr)
    as (k & k' & c & c' & e & _ & -> & _ & Hk' & He & _).
  rewrite zlookup_of_nat. eexists. apply build_graph_lookup. by exists c', e.
Qed.

Lemma built_heuristic grid ind0 s :
  s ∈ rt_stops (build_graph grid ind0) → is_Some (stop_h s).
Proof.
  intros [u (c & e & _ & _ & ->)%build_graph_lookup]%list_elem_of_lookup_1. by eexists.
Qed.

Lemma built_length grid ind0 :
  st_len (init_stops grid ind0) = Z.of_nat (length (rt_stops (build_graph grid ind0))).
Proof.
  destruct (init_stops_spec grid ind0) as (_ & -> & _).
  destruct (build_graph_linked grid ind0) as (_ & _ & -> & _).
  by rewrite init_stops_length.
Qed.

(** On the graph built from a grid with an open interior cell, [find_path]
    returns: the rounds and the walk back along the [from] links end within
    the bounds that the model gives them, and every index is in range. *)
Lemma find_path_returns_on_built_graph grid ind0 :
  sentinel ind0 → open_interior grid ≠ [] →
  let st := init_stops grid ind0 in
  let rs := build_graph grid ind0 in
  ∃ v ns, find_path (rt_stops rs) (rt_routes rs) (st_len st) = Done (v, ns).
Proof.
  intros Hsen Hne st rs. unfold st. rewrite built_length.
  apply find_path_returns.
  - apply built_edge_lists.
  - intros r. by apply built_weight.
  - intros r. by apply built_consistent.
  - apply built_nodes_init.
  - intros r. by apply built_target.
  - apply built_heuristic.
  - intros Hnil. apply (f_equal length) in Hnil.
    destruct (build_graph_linked grid ind0) as (_ & _ & Hlen & _).
    rewrite Hnil, init_stops_length in Hlen.
    by destruct (open_interior grid).
Qed.

End BuiltExact.


(** ** What the loops read and how far the counters go *)

Lemma foldl_ext_in {S X} (f g : S → X → S) (s : S) (l : list X) :
  (∀ s x, x ∈ l → f s x = g s x) → foldl f s l = foldl g s l.
Proof.
  revert s. induction l as [|x l IH]; intros s Hext; [done|]. cbn.
  rewrite Hext by (by left). apply IH. intros s' y Hy. apply Hext. by right.
Qed.

Lemma length_bind_le {X Y} (f : X → list Y) (l : list X) (n : nat) :
  (∀ x, (length (f x) ≤ n)%nat) → (length (l ≫= f) ≤ n * length l)%nat.
Proof.
  intros Hf. induction l as [|x l IH]; [cbn; lia|].
  cbn [mbind list_bind]. change (list_bind _ _ f l) with (l ≫= f). rewrite length_app. cbn [length].
  pose proof (Hf x). lia.
Qed.

Section Bounds.
Context {ar : Arith}.

Lemma length_links ind : (length (links ind) ≤ 512)%nat.
Proof.
  unfold links.
  pose proof (length_bind_le (fun c => (fun c' => (c, c')) <$> links_of ind c) interior 8) as H.
  change (length interior) with 64%nat in H. etrans; [apply H|lia].
  intros c. rewrite length_fmap. apply length_links_of.
Qed.

Lemma rt_len_foldl (ind : table) ps st :
  rt_len (foldl (fun st p => append_edge (ind p.1.1 p.1.2) (ind p.2.1 p.2.2) st) st ps)
  = rt_len st + Z.of_nat (length ps).
Proof.
  revert st. induction ps as [|p ps IH]; intros st; [cbn; lia|].
  cbn [foldl]. rewrite IH. cbn [rt_len append_edge length]. lia.
Qed.

(** X1: the counters stay small.  For every grid and every initial lookup
    table [init_stops] leaves [0 <= s_len <= 64], one node at most per
    interior cell; for every lookup table and node table [init_routes] leaves
    [0 <= r_len <= 512], eight edges at most per interior cell.  No [int] of
    the program comes near its bounds. *)
Theorem counters_bounded grid ind0 ind stops s_len :
  0 ≤ st_len (init_stops grid ind0) ≤ (MAP_SIZE_ROWS - 2) * (MAP_SIZE_COLS - 2)
  ∧ 0 ≤ rt_len (init_routes ind stops s_len)
      ≤ 8 * ((MAP_SIZE_ROWS - 2) * (MAP_SIZE_COLS - 2)).
Proof.
  split.
  - destruct (init_stops_spec grid ind0) as (_ & -> & _).
    pose proof (length_filter (is_open grid) interior) as H.
    change (length interior) with 64%nat in H. unfold open_interior.
    change ((MAP_SIZE_ROWS - 2) * (MAP_SIZE_COLS - 2)) with 64. lia.
  - rewrite init_routes_links, rt_len_foldl. cbn [rt_len].
    pose proof (length_links ind).
    change ((MAP_SIZE_ROWS - 2) * (MAP_SIZE_COLS - 2)) with 64. lia.
Qed.

Lemma scan_stops_ext grid grid' ind0 :
  (∀ i j, 1 ≤ i ≤ 8 → 1 ≤ j ≤ 8 → grid i j = 0 ↔ grid' i j = 0) →
  scan_stops grid ind0 = scan_stops grid' ind0.
Proof.
  intros Hg. unfold scan_stops. rewrite !foldl_nested.
  apply foldl_ext_in. intros st [i j] [Hi Hj]%interior_spec. cbn [fst snd].
  unfold scan_cell. specialize (Hg i j Hi Hj).
  destruct (decide (grid i j = 0)), (decide (grid' i j = 0)); tauto.
Qed.

(** X2: [init_stops] reads [map] at the interior cells only, and only
    whether the entry is zero: two maps that are zero at the same interior
    cells give the same node table, count and lookup table, whatever they hold
    on the border. *)
Theorem init_stops_reads_interior grid grid' ind0 :
  (∀ i j, 1 ≤ i ≤ MAP_SIZE_ROWS - 2 → 1 ≤ j ≤ MAP_SIZE_COLS - 2 →
          grid i j = 0 ↔ grid' i j = 0) →
  init_stops grid ind0 = init_stops grid' ind0.
Proof.
  intros Hg. unfold init_stops. by rewrite (scan_stops_ext grid grid' ind0).
Qed.

Lemma link_around_ext ind ind' i j st :
  1 ≤ i ≤ 8 → 1 ≤ j ≤ 8 →
  (∀ i j, 0 ≤ i < MAP_SIZE_ROWS → 0 ≤ j < MAP_SIZE_COLS →
          0 ≤ ind i j ∨ 0 ≤ ind' i j → ind i j = ind' i j) →
  link_around ind i j st = link_around ind' i j st.
Proof.
  intros Hi Hj Hind. unfold link_around.
  assert (0 ≤ ind i j ∨ 0 ≤ ind' i j → ind i j = ind' i j) as Hij
    by (apply Hind; unfold MAP_SIZE_ROWS, MAP_SIZE_COLS; lia).
  destruct (decide (0 ≤ ind i j)) as [Hpos|Hneg], (decide (0 ≤ ind' i j)) as [Hpos'|Hneg'];
    [|lia..|done].
  apply foldl_ext_in. intros st' k Hk%elem_of_seqZ.
  apply foldl_ext_in. intros st'' l Hl%elem_of_seqZ.
  unfold link_cell.
  assert (0 ≤ ind k l ∨ 0 ≤ ind' k l → ind k l = ind' k l) as Hkl
    by (apply Hind; unfold MAP_SIZE_ROWS, MAP_SIZE_COLS; lia).
  case_decide; [done|].
  destruct (decide (0 ≤ ind k l)), (decide (0 ≤ ind' k l)); [|lia..|done].
  by rewrite Hij, Hkl by (by left).
Qed.

(** X3: [init_routes] reads [ind] inside its bounds only, and uses an entry
    only when it is not negative: two lookup tables that agree inside the
    bounds wherever one of them is not negative give the same edge table,
    count and node table. *)
Theorem init_routes_reads_table_in_range ind ind' stops s_len :
  (∀ i j, 0 ≤ i < MAP_SIZE_ROWS → 0 ≤ j < MAP_SIZE_COLS →
          0 ≤ ind i j ∨ 0 ≤ ind' i j → ind i j = ind' i j) →
  init_routes ind stops s_len = init_routes ind' stops s_len.
Proof.
  intros Hind. unfold init_routes. rewrite !foldl_nested.
  apply foldl_ext_in. intros st [i j] [Hi Hj]%interior_spec.
  by apply link_around_ext.
Qed.

(** X4: [init_stops] writes [ind] at the open interior cells and nowhere
    else.  Whatever the table held before, the entry of the [k]-th open
    interior cell is [k] afterwards, and every other entry, in particular that
    of a blocked or border cell, keeps the value it had: the table is not
    reset. *)
Theorem init_stops_writes_open_cells_only grid ind0 :
  let st := init_stops grid ind0 in
  (∀ (k : nat) c, open_interior grid !! k = Some c → st_ind st c.1 c.2 = Z.of_nat k)
  ∧ (∀ i j, (i, j) ∉ open_interior grid → st_ind st i j = ind0 i j).
Proof. by destruct (init_stops_spec grid ind0) as (_ & _ & ? & ?). Qed.

End Bounds.

(** ** The shape of the edge table *)

Lemma NoDup_around c : NoDup (around c).
Proof.
  unfold around. apply NoDup_bind.
  - intros k1 k2 [k l] _ _ (l1 & H1%list_elem_of_singleton & _)%list_elem_of_bind
      (l2 & H2%list_elem_of_singleton & _)%list_elem_of_bind. congruence.
  - intros k _. apply NoDup_bind.
    + intros l1 l2 [k' l] _ _ H1%list_elem_of_singleton H2%list_elem_of_singleton.
      congruence.
    + intros. apply NoDup_singleton.
    + apply NoDup_seqZ.
  - apply NoDup_seqZ.
Qed.

Lemma NoDup_links_of ind c : NoDup (links_of ind c).
Proof.
  unfold links_of. case_decide; [|constructor]. apply NoDup_filter, NoDup_around.
Qed.

Lemma NoDup_links ind : NoDup (links ind).
Proof.
  unfold links. apply NoDup_bind.
  - intros c1 c2 [a b] _ _ (? & [= -> _] & _)%list_elem_of_fmap
      (? & [= -> _] & _)%list_elem_of_fmap. done.
  - intros c _. apply NoDup_fmap_2; [|apply NoDup_links_of]. by intros ? ? [= ->].
  - apply NoDup_interior.
Qed.

Section Layout.
Context {ar : Arith}.

(** From a table of sentinels, the entries that are not negative are those
    of the open interior cells. *)
Lemma open_iff_nonneg grid ind0 c :
  sentinel ind0 →
  0 ≤ st_ind (init_stops grid ind0) c.1 c.2 ↔ c ∈ open_interior grid.
Proof.
  intros Hsen. split.
  - intros H. destruct c. by eapply nonneg_ind_open.
  - intros [k Hk]%list_elem_of_lookup_1.
    destruct (init_stops_spec grid ind0) as (_ & _ & Hi & _). rewrite (Hi k c Hk). lia.
Qed.

(** The cells behind an edge of the built graph. *)
Lemma route_cells grid ind0 r :
  sentinel ind0 →
  r ∈ rt_routes (build_graph grid ind0) →
  ∃ c c', c ∈ open_interior grid ∧ c' ∈ open_interior grid ∧ adjacent8 c c'
          ∧ (c, c') ∈ links (st_ind (init_stops grid ind0))
          ∧ route_x r = st_ind (init_stops grid ind0) c.1 c.2
          ∧ route_y r = st_ind (init_stops grid ind0) c'.1 c'.2
          ∧ route_d r = cell_dist c' c.
Proof.
  intros Hsen Hr.
  destruct (build_graph_linked grid ind0) as (Hroutes & _). cbv zeta in Hroutes.
  rewrite Hroutes in Hr.
  apply list_elem_of_fmap in Hr as ([c c'] & -> & Hp).
  pose proof Hp as Hp0.
  apply links_spec in Hp as [Hc Hl].
  apply links_of_spec in Hl as (Hpc & Hpc' & Hne & Hrow & Hcol).
  pose proof (proj1 (open_iff_nonneg grid ind0 c Hsen) Hpc) as Ho.
  pose proof (proj1 (open_iff_nonneg grid ind0 c' Hsen) Hpc') as Ho'.
  exists c, c'. split_and!; try done.
  apply list_elem_of_lookup_1 in Ho as [k Hk], Ho' as [k' Hk'].
  destruct (init_stops_lookup grid ind0 k c Hk) as (e & _ & Hx0 & Hix).
  destruct (init_stops_lookup grid ind0 k' c' Hk') as (e' & _ & Hy0 & Hiy).
  cbn [route_d edge_of fill_route fst snd].
  rewrite Hix, Hiy, !zlookup_of_nat, Hx0, Hy0. done.
Qed.

(** X5: from a lookup table of sentinels, the edge table has no edge from a
    node to itself and no two edges with the same source and target. *)
Theorem edges_simple grid ind0 :
  sentinel ind0 →
  let rs := build_graph grid ind0 in
  (∀ r, r ∈ rt_routes rs → route_x r ≠ route_y r)
  ∧ NoDup ((fun r => (route_x r, route_y r)) <$> rt_routes rs).
Proof.
  intros Hsen rs. split.
  - intros r (c & c' & Hc & Hc' & (Hne & _) & _ & -> & -> & _)%route_cells; [|done].
    intros Heq. apply Hne. eapply ind_inj; [done| |done].
    by apply open_iff_nonneg.
  - destruct (build_graph_linked grid ind0) as (Hroutes & _). cbv zeta in Hroutes.
    unfold rs. rewrite Hroutes, <- list_fmap_compose.
    apply NoDup_fmap_2_strong; [|apply NoDup_links].
    intros [c1 c1'] [c2 c2'] H1 H2. cbn. intros [= Hx Hy].
    apply links_spec in H1 as [_ (? & ? & _)%links_of_spec].
    apply links_spec in H2 as [_ (? & ? & _)%links_of_spec].
    f_equal; by eapply ind_inj.
Qed.

End Layout.

(** ** Edges in the order of their source *)

Lemma StronglySorted_bind {X Y} (R : relation Y) (S : relation X) (f : X → list Y) l :
  StronglySorted S l →
  (∀ x, x ∈ l → StronglySorted R (f x)) →
  (∀ x1 x2 y1 y2, x1 ∈ l → x2 ∈ l → S x1 x2 → y1 ∈ f x1 → y2 ∈ f x2 → R y1 y2) →
  StronglySorted R (l ≫= f).
Proof.
  induction 1 as [|x l Hl IH Hx]; intros Hin Hcross; [constructor|].
  rewrite bind_cons. apply StronglySorted_app_2.
  - intros y1 y2 Hy1 (x2 & Hy2 & Hx2)%list_elem_of_bind.
    apply (Hcross x x2); [by left|by right| |done|done].
    rewrite Forall_forall in Hx. by apply Hx.
  - apply Hin. by left.
  - apply IH.
    + intros x' Hx'. apply Hin. by right.
    + intros x1 x2 y1 y2 H1 H2. apply Hcross; by right.
Qed.

Lemma StronglySorted_all {X} (R : relation X) (l : list X) :
  (∀ x y, x ∈ l → y ∈ l → R x y) → StronglySorted R l.
Proof.
  induction l as [|x l IH]; intros HR; constructor.
  - apply IH. intros y z Hy Hz. apply HR; by right.
  - apply Forall_forall. intros y Hy. apply HR; [by left|by right].
Qed.

Lemma StronglySorted_lookup_lt {X} (R : relation X) (l : list X) (i j : nat) a b :
  StronglySorted R l → l !! i = Some a → l !! j = Some b → (i < j)%nat → R a b.
Proof.
  intros Hs Hi Hj Hij. rewrite <- (take_drop j l) in Hs.
  eapply StronglySorted_app_1_elem_of; [done| |].
  - apply list_elem_of_lookup. exists i. rewrite lookup_take_lt by done. done.
  - apply list_elem_of_lookup. exists 0%nat. rewrite lookup_drop, Nat.add_0_r. done.
Qed.

Lemma StronglySorted_interior : StronglySorted scanned_before interior.
Proof. apply (bool_decide_unpack _). vm_compute. exact I. Qed.

Lemma total_app l1 l2 : total (l1 ++ l2) = total l1 + total l2.
Proof. unfold total. induction l1 as [|x l1 IH]; cbn; lia. Qed.

Lemma total_add {X} (f g : X → Z) (l : list X) :
  total ((fun x => f x + g x) <$> l) = total (f <$> l) + total (g <$> l).
Proof. unfold total. induction l as [|x l IH]; cbn; lia. Qed.

Lemma total_le {X} (f : X → Z) (l : list X) b :
  (∀ x, x ∈ l → f x ≤ b) → total (f <$> l) ≤ b * Z.of_nat (length l).
Proof.
  unfold total. induction l as [|x l IH]; intros Hb; [cbn; lia|].
  cbn [fmap list_fmap foldr length].
  assert (f x ≤ b) by (apply Hb; by left).
  assert (foldr Z.add 0 (f <$> l) ≤ b * Z.of_nat (length l))
    by (apply IH; intros y Hy; apply Hb; by right).
  change (list_fmap X Z f l) with (f <$> l). lia.
Qed.

Lemma total_zero {X} (f : X → Z) (l : list X) :
  (∀ x, x ∈ l → f x = 0) → total (f <$> l) = 0.
Proof.
  unfold total. induction l as [|x l IH]; intros Hz; [done|].
  cbn [fmap list_fmap foldr]. rewrite (Hz x) by (by left).
  change (list_fmap X Z f l) with (f <$> l). rewrite IH; [done|].
  intros y Hy. apply Hz. by right.
Qed.

Lemma total_indicator (x : Z) (n : nat) :
  0 ≤ x < Z.of_nat n →
  total ((fun u : nat => if decide (x = Z.of_nat u) then 1 else 0) <$> seq 0 n) = 1.
Proof.
  induction n as [|n IH]; intros Hx; [lia|].
  rewrite seq_S, fmap_app, total_app. cbn [fmap list_fmap total foldr Nat.add].
  destruct (decide (x = Z.of_nat n)) as [->|Hne].
  - rewrite total_zero; [lia|]. intros u ?%elem_of_seq. case_decide; lia.
  - rewrite IH by lia. lia.
Qed.

Section Blocks.
Context {ar : Arith}.

(** In an edge table sorted by source, the edges of source [u] are a run of
    indices. *)
Lemma edges_from_sorted routes u :
  StronglySorted Z.le (route_x <$> routes) →
  edges_from routes u
  = seqZ (Z.of_nat (length (filter (fun r => route_x r < u) routes)))
         (Z.of_nat (length (filter (fun r => route_x r = u) routes))).
Proof.
  induction routes as [|r routes IH] using rev_ind; intros Hs; [done|].
  rewrite fmap_app in Hs. apply StronglySorted_app in Hs as (Hle & Hs & _).
  assert (∀ r', r' ∈ routes → route_x r' ≤ route_x r) as Hle'.
  { intros r' Hr'. apply Hle; [by apply list_elem_of_fmap_2|by left]. }
  rewrite edges_from_snoc, !filter_app, !length_app, IH by done.
  rewrite !filter_cons, !filter_nil.
  assert (route_x r = u →
          (length (filter (fun r0 => (route_x r0 < u)%Z) routes)
           + length (filter (fun r0 => route_x r0 = u) routes) = length routes)%nat) as Hall.
  { intros Hu. clear -Hle' Hu. induction routes as [|r' routes IH]; [done|].
    rewrite !filter_cons. pose proof (Hle' r' ltac:(by left)).
    specialize (IH ltac:(intros; apply Hle'; by right)).
    repeat case_decide; cbn [length]; lia. }
  assert (route_x r < u → filter (fun r0 => route_x r0 = u) routes = []) as Hnone.
  { intros Hlt. apply filter_none. intros r' Hr'%Hle'. lia. }
  set (a := length (filter (fun r0 => route_x r0 < u) routes)) in *.
  set (n := length (filter (fun r0 => route_x r0 = u) routes)) in *.
  destruct (decide (route_x r = u)) as [Hu|Hu].
  - rewrite decide_False by lia. cbn [length]. rewrite Nat.add_0_r.
    replace (n + 1)%nat with (S n) by lia.
    rewrite seqZ_S. do 2 f_equal. specialize (Hall Hu). lia.
  - rewrite app_nil_r. destruct (decide (route_x r < u)) as [Hlt|Hge].
    + cbn [length]. rewrite Nat.add_0_r. unfold n. rewrite (Hnone Hlt).
      cbn [length]. by rewrite !seqZ_nil by lia.
    + cbn [length]. by rewrite !Nat.add_0_r.
Qed.

(** Every edge whose source is one of [n] nodes is in the list of one of
    them. *)
Lemma total_edges_from routes (n : nat) :
  Forall (fun r => 0 ≤ route_x r < Z.of_nat n) routes →
  total ((fun u : nat => Z.of_nat (length (edges_from routes (Z.of_nat u)))) <$> seq 0 n)
  = Z.of_nat (length routes).
Proof.
  induction routes as [|r routes IH] using rev_ind; intros Hx.
  - by apply total_zero.
  - apply Forall_app in Hx as [Hx Hr]. apply Forall_inv in Hr.
    rewrite length_app, Nat2Z.inj_add. cbn [length].
    rewrite <- (IH Hx). change (Z.of_nat 1) with 1.
    rewrite <- (total_indicator (route_x r) n Hr), <- total_add.
    f_equal. apply list_fmap_ext. intros _ u _.
    rewrite edges_from_snoc, length_app. case_decide; cbn [length]; lia.
Qed.

(** The cells are scanned in the order of their nodes. *)
Lemma links_sorted grid ind0 :
  sentinel ind0 →
  StronglySorted Z.le (route_x <$> rt_routes (build_graph grid ind0)).
Proof.
  intros Hsen.
  destruct (build_graph_linked grid ind0) as (Hroutes & _). cbv zeta in Hroutes.
  rewrite Hroutes, <- list_fmap_compose.
  apply (StronglySorted_fmap _
           (fun p q => st_ind (init_stops grid ind0) p.1.1 p.1.2
                       ≤ st_ind (init_stops grid ind0) q.1.1 q.1.2)); [done|].
  unfold links.
  apply (StronglySorted_bind _ scanned_before); [apply StronglySorted_interior|..].
  - intros c _. apply StronglySorted_all.
    intros p q (? & -> & _)%list_elem_of_fmap (? & -> & _)%list_elem_of_fmap. done.
  - intros c1 c2 p q _ _ Hbefore (c1' & -> & H1)%list_elem_of_fmap
      (c2' & -> & H2)%list_elem_of_fmap. cbn [fst snd].
    apply links_of_spec in H1 as (H1 & _), H2 as (H2 & _).
    apply open_iff_nonneg in H1 as [k1 Hk1]%list_elem_of_lookup_1; [|done].
    apply open_iff_nonneg in H2 as [k2 Hk2]%list_elem_of_lookup_1; [|done].
    destruct (init_stops_spec grid ind0) as (_ & _ & Hi & _).
    rewrite (Hi k1 c1 Hk1), (Hi k2 c2 Hk2).
    destruct (decide (k1 < k2)%nat) as [|Hge]; [lia|]. exfalso.
    assert (StronglySorted scanned_before (open_interior grid)) as Hso
      by apply StronglySorted_filter, StronglySorted_interior.
    destruct (decide (k1 = k2)) as [->|Hne].
    + rewrite Hk1 in Hk2. injection Hk2 as ->. unfold scanned_before in Hbefore. lia.
    + pose proof (StronglySorted_lookup_lt _ _ k2 k1 c2 c1 Hso Hk2 Hk1 ltac:(lia)) as Hb.
      unfold scanned_before in Hbefore, Hb. lia.
Qed.

(** X6: from a lookup table of sentinels, the edges are appended in order of
    their source node, so the edge list [n] of every node [u] is a run of
    consecutive indices of the edge table: the [n_len] indices that follow
    those of the edges with a smaller source. *)
Theorem edge_lists_are_runs grid ind0 :
  sentinel ind0 →
  let rs := build_graph grid ind0 in
  StronglySorted Z.le (route_x <$> rt_routes rs)
  ∧ ∀ u s, zlookup (rt_stops rs) u = Some s →
      stop_n s = seqZ (Z.of_nat (length (filter (fun r => route_x r < u) (rt_routes rs))))
                      (stop_n_len s).
Proof.
  intros Hsen rs. split; [by apply links_sorted|].
  intros u s [Hu Hs]%zlookup_Some.
  apply build_graph_lookup in Hs as (c & e & _ & _ & ->).
  cbn [stop_n stop_n_len with_edges set_n set_n_len].
  rewrite Z2Nat.id by done. fold rs.
  rewrite (edges_from_sorted (rt_routes rs) u) by (by apply links_sorted).
  by rewrite length_seqZ, Z2Nat.id by lia.
Qed.

Lemma built_lens grid ind0 :
  stop_n_len <$> rt_stops (build_graph grid ind0)
  = (fun u : nat => Z.of_nat (length (edges_from (rt_routes (build_graph grid ind0))
                                                 (Z.of_nat u))))
    <$> seq 0 (length (rt_stops (build_graph grid ind0))).
Proof.
  apply list_eq. intros u. rewrite !list_lookup_fmap.
  destruct (rt_stops (build_graph grid ind0) !! u) as [s|] eqn:Hs.
  - rewrite lookup_seq_lt by (by eapply lookup_lt_Some).
    apply build_graph_lookup in Hs as (c & e & _ & _ & ->). done.
  - rewrite lookup_ge_None_2; [done|]. rewrite length_seq. by apply lookup_ge_None_1.
Qed.

(** X7: from a lookup table of sentinels, the edge counts [n_len] of the
    nodes add up to [r_len]: every edge is in the list of one node exactly.
    So [r_len] is at most [8 * s_len]. *)
Theorem edge_counts_add_up grid ind0 :
  sentinel ind0 →
  let st := init_stops grid ind0 in
  let rs := build_graph grid ind0 in
  total (stop_n_len <$> rt_stops rs) = rt_len rs
  ∧ rt_len rs ≤ 8 * st_len st.
Proof.
  intros Hsen st rs.
  destruct (build_graph_linked grid ind0) as (Hroutes & Hlen & Hn & Hst).
  fold st rs in Hroutes, Hlen, Hn, Hst.
  assert (rt_len rs = Z.of_nat (length (rt_routes rs))) as Hrl
    by (by rewrite Hlen, Hroutes, length_fmap).
  assert (total (stop_n_len <$> rt_stops rs) = rt_len rs) as Htot.
  { unfold rs. rewrite built_lens. fold rs. rewrite Hrl. apply total_edges_from.
    apply Forall_forall. intros r Hr.
    destruct (route_cells grid ind0 r Hsen Hr) as (c & c' & Hc & _ & _ & _ & -> & _).
    split; [by apply open_iff_nonneg|].
    rewrite Hn. apply ind_in_range; [done|]. by apply open_iff_nonneg. }
  split; [done|]. rewrite <- Htot.
  assert (st_len st = Z.of_nat (length (rt_stops rs))) as ->.
  { rewrite Hn. unfold st. rewrite init_stops_length.
    by destruct (init_stops_spec grid ind0) as (_ & -> & _). }
  apply total_le. intros s [u Hs]%list_elem_of_lookup_1.
  apply build_graph_lookup in Hs as (c & e & _ & _ & ->).
  cbn [stop_n_len with_edges set_n set_n_len]. fold rs. rewrite Hroutes.
  rewrite length_edges_from.
  pose proof (links_from_bound (st_ind st) (st_stops st) (Z.of_nat u) interior
                NoDup_interior) as Hb.
  unfold links.
  assert (∀ c c' : Z * Z, c ∈ interior → c' ∈ interior → 0 ≤ st_ind st c.1 c.2 →
            st_ind st c.1 c.2 = st_ind st c'.1 c'.2 → c = c') as Hinj.
  { intros c1 c2 _ _ ? ?. by eapply ind_inj. }
  specialize (Hb Hinj). lia.
Qed.

(** X8: from a lookup table of sentinels, [n_len] of the node of an open
    interior cell is the number of open interior cells that touch it by a side
    or a corner; a node without such a neighbour keeps [n_len = 0]. *)
Theorem degree_counts_open_neighbours grid ind0 c :
  sentinel ind0 →
  c ∈ open_interior grid →
  let st := init_stops grid ind0 in
  let rs := build_graph grid ind0 in
  ∃ s, zlookup (rt_stops rs) (st_ind st c.1 c.2) = Some s
       ∧ stop_n_len s = Z.of_nat (length (filter (adjacent8 c) (open_interior grid))).
Proof.
  intros Hsen Hc st rs.
  destruct (open_cell_node grid ind0 c Hc) as (k & s & Hk & Hi & Hs & _).
  fold st in Hi. fold rs in Hs. exists s. rewrite Hi. split; [done|].
  rewrite zlookup_of_nat in Hs. apply build_graph_lookup in Hs as (c0 & e & _ & _ & ->).
  cbn [stop_n_len with_edges set_n set_n_len]. f_equal.
  destruct (build_graph_linked grid ind0) as (Hroutes & _). fold st in Hroutes.
  rewrite Hroutes, length_edges_from.
  rewrite <- (length_fmap (fun c' => (c, c')) (filter (adjacent8 c) (open_interior grid))).
  apply Permutation_length, NoDup_Permutation.
  - apply NoDup_filter, NoDup_links.
  - apply NoDup_fmap_2; [by intros ? ? [= ->]|]. apply NoDup_filter, NoDup_filter, NoDup_interior.
  - intros [c1 c2]. rewrite list_elem_of_filter, list_elem_of_fmap.
    cbn [route_x edge_of fill_route fst snd]. rewrite links_spec, links_of_spec. split.
    + intros (Hx & Hc1 & Hp1 & Hp2 & Hne & Hrow & Hcol).
      assert (c1 = c) as ->.
      { eapply ind_inj; [done|done|]. fold st. by rewrite Hx, Hi. }
      exists c2. split; [done|]. apply list_elem_of_filter. split; [done|].
      by apply (open_iff_nonneg grid ind0 c2 Hsen).
    + intros (c' & [= -> ->] & [Hadj Ho]%list_elem_of_filter).
      destruct Hadj as (Hne & Hrow & Hcol). split_and!; try done; try lia.
      * apply open_interior_spec in Hc as [? _]. destruct c. by apply interior_spec.
      * by apply (open_iff_nonneg grid ind0 c' Hsen).
Qed.

End Blocks.

(** ** Weights, heuristic and report *)

Lemma axis_aligned_sym c c' : axis_aligned c c' ↔ axis_aligned c' c.
Proof. unfold axis_aligned. intuition congruence. Qed.

Lemma adjacent8_sym c c' : adjacent8 c c' → adjacent8 c' c.
Proof. unfold adjacent8. intros (? & ? & ?). split_and!; [congruence|lia..]. Qed.

Lemma open_interior_interior grid c : c ∈ open_interior grid → c ∈ interior.
Proof. by intros [_ ?]%list_elem_of_filter. Qed.

Lemma ieee_cell_dist_sym c c' :
  c ∈ interior → c' ∈ interior → adjacent8 c c' →
  cell_dist (ar := ieee) c c' = cell_dist (ar := ieee) c' c.
Proof.
  intros Hc Hc' Hadj.
  rewrite (ieee_cell_dist c c' Hc Hadj), (ieee_cell_dist c' c Hc' (adjacent8_sym _ _ Hadj)).
  destruct (decide (axis_aligned c c')) as [H|H], (decide (axis_aligned c' c)) as [H'|H'];
    try done; exfalso; first [apply H'|apply H]; by apply axis_aligned_sym.
Qed.

Lemma exact_cell_dist_sym c c' :
  adjacent8 c c' →
  cell_dist (ar := exact) c c' = cell_dist (ar := exact) c' c.
Proof.
  intros Hadj.
  rewrite (exact_cell_dist c c' Hadj), (exact_cell_dist c' c (adjacent8_sym _ _ Hadj)).
  destruct (decide (axis_aligned c c')) as [H|H], (decide (axis_aligned c' c)) as [H'|H'];
    try done; exfalso; first [apply H'|apply H]; by apply axis_aligned_sym.
Qed.

(** X9: from a lookup table of sentinels, the weight of every edge is [1.0]
    or [sqrt(2.0)] in IEEE binary64 arithmetic, and 1 or the square root of 2
    in exact arithmetic. *)
Theorem edge_weights grid ind0 :
  sentinel ind0 →
  (∀ r, r ∈ rt_routes (build_graph (ar := ieee) grid ind0) →
        route_d r = 1%float ∨ route_d r = PrimFloat.sqrt 2%float)
  ∧ (∀ r, r ∈ rt_routes (build_graph (ar := exact) grid ind0) →
          route_d r = 1%R ∨ route_d r = R_sqrt.sqrt 2%R).
Proof.
  intros Hsen. split; intros r Hr;
    destruct (route_cells grid ind0 r Hsen Hr) as (c & c' & Hc & Hc' & Hadj & _ & _ & _ & ->).
  - rewrite (ieee_cell_dist c c')
      by (first [done|by apply (open_interior_interior grid)]).
    case_decide; [by left|by right].
  - rewrite (exact_cell_dist c c') by done. case_decide; [by left|by right].
Qed.

Section Symmetric.
Context {ar : Arith}.

Lemma reverse_edge grid ind0 r :
  sentinel ind0 →
  r ∈ rt_routes (build_graph grid ind0) →
  ∃ c c' r', c ∈ open_interior grid ∧ c' ∈ open_interior grid ∧ adjacent8 c c'
    ∧ r' ∈ rt_routes (build_graph grid ind0)
    ∧ route_x r' = route_y r ∧ route_y r' = route_x r
    ∧ route_d r = cell_dist c' c ∧ route_d r' = cell_dist c c'.
Proof.
  intros Hsen Hr.
  destruct (route_cells grid ind0 r Hsen Hr) as (c & c' & Hc & Hc' & Hadj & _ & Hx & Hy & Hd).
  destruct (adjacent_edge grid ind0 c' c Hc' Hc (adjacent8_sym _ _ Hadj))
    as (t & r' & _ & _ & Ht & Hx' & Hy' & _ & _ & _ & _ & _ & Hd').
  exists c, c', r'. split_and!; try done; try congruence.
  by eapply lookup_routes_elem_gen.
Qed.

End Symmetric.

(** X13: from a lookup table of sentinels, the edge table is symmetric: for
    every edge there is the edge back, with the same weight, in IEEE binary64
    and in exact arithmetic. *)
Theorem edges_go_both_ways grid ind0 :
  sentinel ind0 →
  (∀ r, r ∈ rt_routes (build_graph (ar := ieee) grid ind0) →
     ∃ r', r' ∈ rt_routes (build_graph (ar := ieee) grid ind0)
           ∧ route_x r' = route_y r ∧ route_y r' = route_x r ∧ route_d r' = route_d r)
  ∧ (∀ r, r ∈ rt_routes (build_graph (ar := exact) grid ind0) →
       ∃ r', r' ∈ rt_routes (build_graph (ar := exact) grid ind0)
             ∧ route_x r' = route_y r ∧ route_y r' = route_x r ∧ route_d r' = route_d r).
Proof.
  intros Hsen. split; intros r Hr;
    destruct (reverse_edge grid ind0 r Hsen Hr)
      as (c & c' & r' & Hc & Hc' & Hadj & Hr' & Hx & Hy & -> & Hd');
    exists r'; split_and!; try done; rewrite Hd'.
  - apply ieee_cell_dist_sym; first [done|by apply (open_interior_interior grid)].
  - by apply exact_cell_dist_sym.
Qed.

Lemma ieee_cell_dist_self c : c ∈ interior → cell_dist (ar := ieee) c c = 0%float.
Proof.
  destruct c as [i j]. intros [Hi Hj]%interior_spec. unfold cell_dist.
  cbn [dsqrt dadd dpow2 dsub of_int ieee fst snd].
  rewrite !ieee_sub_small by lia. rewrite !Z.sub_diag. reflexivity.
Qed.

Lemma exact_cell_dist_self c : cell_dist (ar := exact) c c = 0%R.
Proof.
  unfold cell_dist. cbn [dsqrt dadd dpow2 dsub of_int exact fst snd].
  rewrite !Rminus_diag, Rsqr_0, Rplus_0_l. apply sqrt_0.
Qed.

Section Goal.
Context {ar : Arith}.

Lemma goal_heuristic grid ind0 :
  open_interior grid ≠ [] →
  ∃ c e, last (open_interior grid) = Some c
         ∧ last (st_stops (init_stops grid ind0)) = Some e
         ∧ stop_h e = Some (cell_dist c c).
Proof.
  intros Hne. destruct (init_stops_spec grid ind0) as (Hs & _). cbv zeta in Hs.
  destruct (last (open_interior grid)) as [c|] eqn:Hc; [|by apply last_None in Hc].
  rewrite fmap_last, Hc in Hs. cbn [fmap option_fmap option_map] in Hs.
  exists c, (with_h (node_at c) (node_at c)). split; [done|]. split; [|done].
  by rewrite Hs, !fmap_last, Hc.
Qed.

End Goal.

(** X10: on a grid with at least one open interior cell, [h] of the goal,
    the last-created node, is zero, in IEEE binary64 and in exact
    arithmetic. *)
Theorem goal_heuristic_is_zero grid ind0 :
  open_interior grid ≠ [] →
  (∃ e, last (st_stops (init_stops (ar := ieee) grid ind0)) = Some e
        ∧ stop_h e = Some 0%float)
  ∧ (∃ e, last (st_stops (init_stops (ar := exact) grid ind0)) = Some e
          ∧ stop_h e = Some 0%R).
Proof.
  intros Hne. split.
  - destruct (goal_heuristic (ar := ieee) grid ind0 Hne) as (c & e & Hc & He & Hh).
    exists e. split; [done|]. rewrite Hh, ieee_cell_dist_self; [done|].
    eapply open_interior_interior, last_Some_elem_of, Hc.
  - destruct (goal_heuristic (ar := exact) grid ind0 Hne) as (c & e & Hc & He & Hh).
    exists e. split; [done|]. by rewrite Hh, exact_cell_dist_self.
Qed.


Section MainFacts.
Context {ar : Arith}.

Lemma print_result_null r al c rep c' :
  print_result None r al c = Done (rep, c') →
  rep = Impossible ∨ rep = PathPrinted 0 [].
Proof.
  unfold print_result, mbind at 1, M_bind at 1, lift at 1.
  destruct r as [[[p|] stops]|e]; [| |done].
  - destruct p as [|v p].
    + cbn. intros [= <- _]. by right.
    + cbn [length]. rewrite reverse_seqZ_S. done.
  - cbn. intros [= <- _]. by left.
Qed.

(** X12: whatever the body of [find_path] does, and whatever the allocator
    does, when [main] gets to the end of its report it has printed
    [IMPOSSIBLE] or the header of a path of length 0: it never prints the
    coordinates of a node, since it reads them through its null [path]. *)
Theorem main_prints_no_node fp grid ind0 al c rep c' :
  main_with fp grid ind0 al c = Done (rep, c') →
  rep = Impossible ∨ rep = PathPrinted 0 [].
Proof.
  destruct (init_stops_chk grid ind0 al c) as [[st c1]|e] eqn:Hs.
  - destruct (init_routes_chk (st_ind st) (st_stops st) (st_len st) al c1)
      as [[rs c2]|e] eqn:Hr.
    + rewrite (main_with_run fp grid ind0 al c st c1 rs c2 Hs Hr).
      apply print_result_null.
    + unfold main_with, mbind at 1, M_bind at 1. rewrite Hs.
      unfold mbind at 1, M_bind at 1. by rewrite Hr.
  - unfold main_with, mbind at 1, M_bind at 1. by rewrite Hs.
Qed.

(** X15: from a lookup table of sentinels, [main] calls [realloc] once per
    open interior cell and twice per edge before it calls [find_path] on the
    built graph; when one of these calls fails it stores through a null
    pointer, and otherwise it reports on the result of [find_path] on the built
    graph. *)
Theorem main_runs_the_stages fp grid ind0 al c :
  sentinel ind0 →
  let st := init_stops grid ind0 in
  let rs := build_graph grid ind0 in
  let n := (length (open_interior grid) + 2 * length (rt_routes rs))%nat in
  main_with fp grid ind0 al c
  = if forallb al (seq c n)
    then print_result None (fp (rt_stops rs) (rt_routes rs) (st_len st)) al (c + n)%nat
    else Fault NullStore.
Proof.
  intros Hsen st rs n. subst st rs n.
  pose proof (init_stops_chk_spec grid ind0 al c) as Hs.
  assert (∀ c1, init_routes_chk (st_ind (init_stops grid ind0))
                  (st_stops (init_stops grid ind0)) (st_len (init_stops grid ind0)) al c1
                = after_allocs al c1 (2 * length (rt_routes (build_graph grid ind0)))
                               (build_graph grid ind0)) as Hr.
  { intros c1. apply init_routes_chk_spec.
    - intros i j. by apply ind_in_range.
    - apply init_stops_no_edges. }
  rewrite seq_app, forallb_app.
  unfold after_allocs in Hs, Hr.
  destruct (forallb al (seq c (length (open_interior grid)))) eqn:H1.
  - specialize (Hr (c + length (open_interior grid))%nat).
    destruct (forallb al (seq (c + length (open_interior grid)) _)) eqn:H2.
    + rewrite (main_with_run fp grid ind0 al c _ _ _ _ Hs Hr). cbn [andb].
      by rewrite Nat.add_assoc.
    + unfold main_with, mbind at 1, M_bind at 1. rewrite Hs.
      unfold mbind at 1, M_bind at 1. by rewrite Hr.
  - unfold main_with, mbind at 1, M_bind at 1. by rewrite Hs.
Qed.

End MainFacts.

(** ** A lookup table that [init_stops] has not filled *)

Lemma M_bind_Done {S T} (m : M S) (k : S → M T) al c r :
  (m ≫= k) al c = Done r ↔ ∃ x c1, m al c = Done (x, c1) ∧ k x al c1 = Done r.
Proof.
  unfold mbind, M_bind. destruct (m al c) as [[x c1]|e]; split.
  - intros H. by exists x, c1.
  - by intros (? & ? & [= <- <-] & ?).
  - done.
  - by intros (? & ? & ? & _).
Qed.

Lemma M_bind_Fault {S T} (m : M S) (k : S → M T) al c e :
  (m ≫= k) al c = Fault e ↔
  m al c = Fault e ∨ ∃ x c1, m al c = Done (x, c1) ∧ k x al c1 = Fault e.
Proof.
  unfold mbind, M_bind. destruct (m al c) as [[x c1]|e']; split.
  - intros H. right. by exists x, c1.
  - intros [?|(? & ? & [= <- <-] & ?)]; done.
  - intros [= ->]. by left.
  - intros [[= ->]|(? & ? & ? & _)]; done.
Qed.

Lemma lift_Done {T} (o : outcome T) al c x c1 :
  lift o al c = Done (x, c1) ↔ o = Done x ∧ c1 = c.
Proof.
  unfold lift. destruct o; split;
    [by intros [= -> ->]|by intros [[= ->] ->]|done|by intros []].
Qed.

Lemma lift_Fault {T} (o : outcome T) al c e : lift o al c = Fault e ↔ o = Fault e.
Proof. unfold lift. destruct o; split; congruence. Qed.

Lemma store_Done {T} (p : option (list T)) i f l' :
  store p i f = Done l' → ∃ l, p = Some l ∧ l' = zalter f i l.
Proof.
  unfold store. destruct p as [l|]; [|done]. case_decide; [|done].
  intros [= <-]. by exists l.
Qed.

Lemma store_Fault {T} (l : list T) i f e :
  store (Some l) i f = Fault e → e = OutOfRange.
Proof. unfold store. case_decide; [done|]. by intros [= <-]. Qed.

Lemma load_Fault {T} (l : list T) i e : load l i = Fault e → e = OutOfRange.
Proof. unfold load. destruct (zlookup l i); [done|]. by intros [= <-]. Qed.

Lemma foldM_Done {S X} (P : S → Prop) (Q : X → Prop) (f : S → X → M S) l al :
  (∀ s x c s' c', x ∈ l → P s → f s x al c = Done (s', c') → P s' ∧ Q x) →
  ∀ s c s' c', P s → foldM f s l al c = Done (s', c') → P s' ∧ Forall Q l.
Proof.
  induction l as [|x l IH]; intros Hf s c s' c' HP Hrun.
  { cbn in Hrun. injection Hrun as <- <-. by split. }
  cbn [foldM] in Hrun. apply M_bind_Done in Hrun as (s1 & c1 & Hx & Hrun).
  destruct (Hf s x c s1 c1 ltac:(by left) HP Hx) as [HP1 HQ].
  destruct (IH ltac:(intros ? ? ? ? ? ?; apply Hf; by right) s1 c1 s' c' HP1 Hrun) as [? ?].
  split; [done|]. by constructor.
Qed.

Lemma foldM_Fault {S X} (P : fault → Prop) (f : S → X → M S) l al :
  (∀ s x c e, f s x al c = Fault e → P e) →
  ∀ s c e, foldM f s l al c = Fault e → P e.
Proof.
  intros Hf. induction l as [|x l IH]; intros s c e Hrun; [done|].
  cbn [foldM] in Hrun. apply M_bind_Fault in Hrun as [Hx|(s1 & c1 & _ & Hrun)].
  - by eapply Hf.
  - by eapply IH.
Qed.

Section Unchecked.
Context {ar : Arith}.

(** When the body of the innermost loop returns, the node table has kept its
    length and the two entries it read, if it linked them, are indices of the
    node table. *)
Lemma link_cell_chk_Done ind i j k l st al c st' c' :
  link_cell_chk ind i j k l st al c = Done (st', c') →
  length (rt_stops st') = length (rt_stops st)
  ∧ (¬ (k = i ∧ l = j) → 0 ≤ ind k l →
     0 ≤ ind i j < Z.of_nat (length (rt_stops st))
     ∧ ind k l < Z.of_nat (length (rt_stops st))).
Proof.
  unfold link_cell_chk. case_decide as Hkl; [intros [= <- _]; tauto|].
  case_decide as Hpos; [|intros [= <- _]; tauto].
  cbv zeta.
  intros (p & c1 & _ & (routes & c2 & _ & (sy & c3 & [Hy _]%lift_Done
    & (sx & c4 & [Hx _]%lift_Done & (routes' & c5 & _ & (q & c6 & _ & (n & c7 & _
    & (stops' & c8 & [Hst _]%lift_Done & Hret)%M_bind_Done)%M_bind_Done)%M_bind_Done
    )%M_bind_Done)%M_bind_Done)%M_bind_Done)%M_bind_Done)%M_bind_Done.
  injection Hret as <- _. cbn [rt_stops].
  apply store_Done in Hst as (l0 & [= <-] & ->).
  apply load_Done, zlookup_lt in Hy, Hx.
  rewrite length_zalter. split; [done|]. intros _ _. lia.
Qed.

Lemma link_cell_chk_Fault ind i j k l st al c e :
  (∀ n, al n = true) →
  link_cell_chk ind i j k l st al c = Fault e → e = OutOfRange.
Proof.
  intros Hal. unfold link_cell_chk. case_decide; [done|]. case_decide; [|done].
  cbv zeta.
  intros [Hf|(p & c1 & Hp & Hrun)]%M_bind_Fault; [done|].
  unfold try_realloc in Hp. injection Hp as <- <-. rewrite Hal in Hrun.
  apply M_bind_Fault in Hrun as [Hf%lift_Fault|(routes & c2 & _ & Hrun)];
    [by eapply store_Fault|].
  apply M_bind_Fault in Hrun as [Hf%lift_Fault|(sy & c3 & _ & Hrun)];
    [by eapply load_Fault|].
  apply M_bind_Fault in Hrun as [Hf%lift_Fault|(sx & c4 & _ & Hrun)];
    [by eapply load_Fault|].
  apply M_bind_Fault in Hrun as [Hf%lift_Fault|(routes' & c5 & _ & Hrun)];
    [by eapply store_Fault|].
  apply M_bind_Fault in Hrun as [Hf|(q & c6 & Hq & Hrun)]; [done|].
  unfold try_realloc in Hq. injection Hq as <- <-. rewrite Hal in Hrun.
  apply M_bind_Fault in Hrun as [Hf%lift_Fault|(n & c7 & _ & Hrun)];
    [by eapply store_Fault|].
  apply M_bind_Fault in Hrun as [Hf%lift_Fault|(stops' & c8 & _ & Hrun)];
    [by eapply store_Fault|].
  done.
Qed.

Lemma init_routes_chk_Done ind stops s_len al c rs c' :
  init_routes_chk ind stops s_len al c = Done (rs, c') →
  ∀ p, p ∈ links ind →
    0 ≤ ind p.1.1 p.1.2 < Z.of_nat (length stops)
    ∧ 0 ≤ ind p.2.1 p.2.2 < Z.of_nat (length stops).
Proof.
  intros Hrun [[i j] [k l]] [[Hi Hj]%interior_spec Hl]%links_spec.
  apply links_of_spec in Hl as (Hpos & Hpos' & Hne & Hk & Hl). cbn [fst snd] in *.
  set (n0 := length stops).
  set (Q4 := fun i j k l => ¬ (k = i ∧ l = j) → 0 ≤ ind k l →
               0 ≤ ind i j < Z.of_nat n0 ∧ ind k l < Z.of_nat n0).
  assert (∀ i j st c st' c', length (rt_stops st) = n0 →
            link_around_chk ind i j st al c = Done (st', c') →
            length (rt_stops st') = n0
            ∧ (0 ≤ ind i j → Forall (fun k => Forall (Q4 i j k) (seqZ (j - 1) 3))
                                     (seqZ (i - 1) 3))) as Haround.
  { clear. intros i j st c st' c' Hn. unfold link_around_chk.
    case_decide; [|intros [= <- _]; split; [done|intros; lia]].
    intros Hrun. eapply (foldM_Done (fun st => length (rt_stops st) = n0)) in Hrun
      as [? ?]; [by split| |done].
    intros s k c0 s1 c1 _ Hs Hk.
    eapply (foldM_Done (fun st => length (rt_stops st) = n0)); [|done|exact Hk].
    intros s2 l c2 s3 c3 _ Hs2 Hcell.
    apply link_cell_chk_Done in Hcell as [Hlen HQ]. split; [congruence|].
    unfold Q4. by rewrite <- Hs2. }
  unfold init_routes_chk in Hrun.
  eapply (foldM_Done (fun st => length (rt_stops st) = n0)
            (fun i => Forall (fun j => 0 ≤ ind i j →
               Forall (fun k => Forall (Q4 i j k) (seqZ (j - 1) 3)) (seqZ (i - 1) 3)) cols))
    in Hrun as [_ HQ]; [| |done].
  - assert (i ∈ rows) as Hir by (unfold rows, MAP_SIZE_ROWS; apply elem_of_seqZ; lia).
    assert (j ∈ cols) as Hjc by (unfold cols, MAP_SIZE_COLS; apply elem_of_seqZ; lia).
    rewrite Forall_forall in HQ. specialize (HQ i Hir).
    rewrite Forall_forall in HQ. specialize (HQ j Hjc Hpos).
    rewrite Forall_forall in HQ. specialize (HQ k ltac:(apply elem_of_seqZ; lia)).
    rewrite Forall_forall in HQ. specialize (HQ l ltac:(apply elem_of_seqZ; lia)).
    unfold Q4 in HQ. destruct HQ as [? ?]; [|done|lia].
    intros [-> ->]. done.
  - intros s i' c0 s1 c1 _ Hs Hrow.
    eapply (foldM_Done (fun st => length (rt_stops st) = n0)); [|done|exact Hrow].
    intros s2 j' c2 s3 c3 _ Hs2 Hcell. by eapply Haround.
Qed.

Lemma init_routes_chk_Fault ind stops s_len al c e :
  (∀ n, al n = true) →
  init_routes_chk ind stops s_len al c = Fault e → e = OutOfRange.
Proof.
  intros Hal. unfold init_routes_chk.
  apply (foldM_Fault (fun e => e = OutOfRange)). intros s i c0 e0.
  apply (foldM_Fault (fun e => e = OutOfRange)). intros s1 j c1 e1.
  unfold link_around_chk. case_decide; [|done].
  apply (foldM_Fault (fun e => e = OutOfRange)). intros s2 k c2 e2.
  apply (foldM_Fault (fun e => e = OutOfRange)). intros s3 l c3 e3.
  by apply link_cell_chk_Fault.
Qed.

(** X14: [init_routes] trusts the lookup table.  Whatever the table and the
    node table, when it returns, every entry it has linked is an index of the
    node table; it never compares an entry with [s_len].  When no [realloc]
    fails, all that can go wrong is an index outside a table. *)
Theorem init_routes_trusts_the_table ind stops s_len al c :
  (∀ rs c', init_routes_chk ind stops s_len al c = Done (rs, c') →
     ∀ p, p ∈ links ind →
       0 ≤ ind p.1.1 p.1.2 < Z.of_nat (length stops)
       ∧ 0 ≤ ind p.2.1 p.2.2 < Z.of_nat (length stops))
  ∧ (∀ e, (∀ n, al n = true) →
       init_routes_chk ind stops s_len al c = Fault e → e = OutOfRange).
Proof.
  split.
  - intros rs c'. apply init_routes_chk_Done.
  - intros e Hal. by apply init_routes_chk_Fault.
Qed.

End Unchecked.

(** ** The heuristic along a path *)

Section Admissible.
Local Existing Instance exact.




End Admissible.

(** ** The heuristic in IEEE binary64 *)

(** By evaluation at every pair of interior cells. *)
Lemma ieee_cell_dist_small e c :
  e ∈ interior → c ∈ interior → small_nonneg (cell_dist (ar := ieee) e c) = true.
Proof.
  assert (forallb (fun e => forallb (fun c => small_nonneg (cell_dist (ar := ieee) e c))
                                    interior) interior = true) as Hall
    by (vm_compute; reflexivity).
  intros He Hc. rewrite forallb_forall in Hall.
  specialize (Hall e ltac:(by apply list_elem_of_In)). rewrite forallb_forall in Hall.
  apply Hall. by apply list_elem_of_In.
Qed.

Section Rounded.
Local Existing Instance ieee.

(** X17: in IEEE binary64, for every grid, the heuristic [h] of every node
    is assigned and is a number from 0 to below 10: rounding produces no NaN
    and no infinity. *)
Theorem heuristic_values_are_small grid ind0 :
  Forall (fun s => ∃ h, stop_h s = Some h ∧ small_nonneg h = true)
         (st_stops (init_stops grid ind0))
  ∧ Forall (fun s => ∃ h, stop_h s = Some h ∧ small_nonneg h = true)
           (rt_stops (build_graph grid ind0)).
Proof.
  assert (∀ c e, c ∈ open_interior grid →
            last (node_at <$> open_interior grid) = Some e →
            small_nonneg (euclid e (node_at c)) = true) as Hsmall.
  { intros c e Hc He. rewrite fmap_last in He.
    destruct (last (open_interior grid)) as [ce|] eqn:Hce; [|done].
    injection He as <-. apply (ieee_cell_dist_small ce c).
    - eapply open_interior_interior, last_Some_elem_of, Hce.
    - by eapply open_interior_interior. }
  split; apply Forall_forall; intros s [k Hs]%list_elem_of_lookup_1.
  - destruct (lookup_lt_is_Some_2 (open_interior grid) k) as [c Hc].
    { rewrite <- (init_stops_length grid ind0). by eapply lookup_lt_Some. }
    destruct (init_stops_lookup grid ind0 k c Hc) as (e & He & Hs' & _).
    rewrite Hs in Hs'. injection Hs' as ->. eexists. split; [done|].
    apply Hsmall; [by eapply list_elem_of_lookup_2|done].
  - apply build_graph_lookup in Hs as (c & e & Hc & He & ->). eexists. split; [done|].
    apply Hsmall; [by eapply list_elem_of_lookup_2|done].
Qed.

Lemma last_open_interior grid :
  grid 8 8 = 0 → last (open_interior grid) = Some (8, 8).
Proof.
  intros H88. unfold open_interior.
  change interior with (removelast interior ++ [(8, 8)]).
  rewrite filter_app, filter_cons, filter_nil.
  rewrite decide_True by done. apply last_snoc.
Qed.

(** X18: in IEEE binary64 the heuristic is not consistent.  From a lookup
    table of sentinels, on every grid where the cells (4, 4), (5, 5) and
    (8, 8) are open, the goal is the node of (8, 8) and along the edge from the
    node of (4, 4) to the node of (5, 5) the weight plus [h] of the target is
    below [h] of the source: the three numbers are the roundings of the square
    roots of 2, 18 and 32. *)
Theorem rounding_breaks_consistency grid ind0 :
  sentinel ind0 →
  grid 4 4 = 0 → grid 5 5 = 0 → grid 8 8 = 0 →
  let rs := build_graph grid ind0 in
  ∃ r sx sy hx hy,
    r ∈ rt_routes rs
    ∧ zlookup (rt_stops rs) (route_x r) = Some sx
    ∧ zlookup (rt_stops rs) (route_y r) = Some sy
    ∧ stop_h sx = Some hx ∧ stop_h sy = Some hy
    ∧ PrimFloat.ltb (PrimFloat.add (route_d r) hy) hx = true.
Proof.
  intros Hsen H44 H55 H88 rs.
  assert ((4, 4) ∈ open_interior grid) as Hc by (apply open_interior_spec; cbn; lia).
  assert ((5, 5) ∈ open_interior grid) as Hc' by (apply open_interior_spec; cbn; lia).
  assert (adjacent8 (4, 4) (5, 5)) as Hadj by (unfold adjacent8; cbn; split; [done|lia]).
  destruct (adjacent_edge grid ind0 (4, 4) (5, 5) Hc Hc' Hadj)
    as (t & r & _ & _ & Ht & Hx & Hy & _ & _ & _ & _ & _ & Hd).
  apply list_elem_of_lookup_1 in Hc as [k Hk], Hc' as [k' Hk'].
  destruct (init_stops_lookup grid ind0 k _ Hk) as (_ & _ & _ & Hi).
  destruct (init_stops_lookup grid ind0 k' _ Hk') as (_ & _ & _ & Hi').
  cbn [fst snd] in Hx, Hy, Hi, Hi'. rewrite Hi in Hx. rewrite Hi' in Hy.
  assert (last (node_at <$> open_interior grid) = Some (node_at (8, 8))) as He
    by (by rewrite fmap_last, last_open_interior).
  exists r. eexists _, _, _, _. fold rs in Ht. rewrite Hx, Hy, !zlookup_of_nat.
  split_and!.
  - by eapply lookup_routes_elem_gen.
  - apply build_graph_lookup. by eexists _, _.
  - apply build_graph_lookup. by eexists _, _.
  - done.
  - done.
  - rewrite Hd. reflexivity.
Qed.

End Rounded.

(** * The properties at sample grids *)

Section Samples.
Local Existing Instance ieee.

Lemma open_interior_two_cells : open_interior two_cells = [(1, 1); (1, 2)].
Proof. reflexivity. Qed.

Lemma open_interior_all_blocked : open_interior all_blocked = [].
Proof. reflexivity. Qed.

(** C3 on the grid of two cells. *)
Lemma init_stops_nodes_witness :
  open_interior two_cells ≠ []
  ∧ st_len (init_stops (ar := ieee) two_cells no_node) = 2
  ∧ coords <$> st_stops (init_stops (ar := ieee) two_cells no_node)
    = [(1%float, 1%float); (1%float, 2%float)].
Proof.
  assert (open_interior two_cells ≠ []) as Hne by (by rewrite open_interior_two_cells).
  split; [exact Hne|].
  destruct (init_stops_nodes (ar := ieee) two_cells no_node Hne) as (Hlen & Hco & _).
  split; [exact Hlen|exact Hco].
Defined.

(** C5 on the grid of two cells. *)
Lemma heuristic_is_distance_to_goal_witness :
  open_interior two_cells ≠ []
  ∧ ∃ e, last (st_stops (init_stops (ar := ieee) two_cells no_node)) = Some e
         ∧ Forall (fun s => stop_h s = Some (euclid e s))
                  (st_stops (init_stops (ar := ieee) two_cells no_node)).
Proof.
  assert (open_interior two_cells ≠ []) as Hne by (by rewrite open_interior_two_cells).
  split; [exact Hne|].
  destruct (heuristic_is_distance_to_goal (ar := ieee) two_cells no_node Hne)
    as (e & He & _ & Hh & _).
  exists e. split; [exact He|exact Hh].
Defined.

(** C6 on the grid of two cells. *)
Lemma lookup_table_and_edges_witness :
  sentinel no_node
  ∧ ∀ r, r ∈ rt_routes (build_graph (ar := ieee) two_cells no_node) →
      ∃ c c', c ∈ open_interior two_cells ∧ c' ∈ open_interior two_cells
              ∧ adjacent8 c c'
              ∧ route_x r = st_ind (init_stops (ar := ieee) two_cells no_node) c.1 c.2
              ∧ route_y r = st_ind (init_stops (ar := ieee) two_cells no_node) c'.1 c'.2.
Proof.
  split; [exact sentinel_no_node|].
  exact (proj2 (proj2 (lookup_table_and_edges (ar := ieee) two_cells no_node
                         sentinel_no_node))).
Defined.

(** C10 on the grid of two cells. *)
Lemma outgoing_edge_lists_witness :
  sentinel no_node
  ∧ rt_len (build_graph (ar := ieee) two_cells no_node)
    = Z.of_nat (length (rt_routes (build_graph (ar := ieee) two_cells no_node))).
Proof.
  split; [exact sentinel_no_node|].
  exact (proj1 (outgoing_edge_lists (ar := ieee) two_cells no_node sentinel_no_node)).
Defined.

(** C4 on the grid of two cells: the edge from cell (1, 1) to cell (1, 2). *)
Lemma adjacent_cells_linked_witness :
  ((1, 1) ∈ open_interior two_cells ∧ (1, 2) ∈ open_interior two_cells
   ∧ adjacent8 (1, 1) (1, 2))
  ∧ edge_between (ar := ieee) two_cells no_node (1, 1) (1, 2) 1%float
  ∧ edge_between (ar := exact) two_cells no_node (1, 1) (1, 2) 1%R.
Proof.
  assert ((1, 1) ∈ open_interior two_cells) as H1
    by (rewrite open_interior_two_cells; by left).
  assert ((1, 2) ∈ open_interior two_cells) as H2
    by (rewrite open_interior_two_cells; right; by left).
  assert (adjacent8 (1, 1) (1, 2)) as Hadj by (unfold adjacent8; cbn; split; [done|lia]).
  split; [by split_and!|].
  exact (adjacent_cells_linked two_cells no_node (1, 1) (1, 2) H1 H2 Hadj).
Defined.

(** C8 on the grid of two cells, with a [realloc] that never succeeds. *)
Lemma realloc_failure_is_null_store_witness :
  sentinel no_node
  ∧ init_stops_chk (ar := ieee) two_cells no_node (fun _ => false) 0%nat
    = Fault NullStore.
Proof.
  split; [exact sentinel_no_node|].
  exact (proj1 (realloc_failure_is_null_store (ar := ieee) two_cells no_node
                  (fun _ => false) 0%nat sentinel_no_node)).
Defined.

(** C8, the claim as stated fails: with a [realloc] that fails, [init_stops]
    on the grid of one cell, [init_routes] on the graph of the grid of two
    cells (the edge table grows, the edge list of node 0 does not) and [main]
    end in a store through the null pointer, not in an error result. *)
Lemma realloc_failure_unreported :
  init_stops_chk (ar := ieee) one_cell no_node (fun _ => false) 0%nat = Fault NullStore
  ∧ init_routes_chk (ar := ieee)
      (st_ind (init_stops (ar := ieee) two_cells no_node))
      (st_stops (init_stops (ar := ieee) two_cells no_node))
      (st_len (init_stops (ar := ieee) two_cells no_node))
      (fun k => bool_decide (k = 0)%nat) 0%nat = Fault NullStore
  ∧ main (ar := ieee) two_cells no_node (fun _ => false) 0%nat = Fault NullStore.
Proof. split_and!; vm_compute; reflexivity. Qed.

(** C7 on the grid whose cells are all blocked. *)
Lemma degenerate_grid_unreported_witness :
  (sentinel no_node ∧ open_interior all_blocked = [])
  ∧ init_stops_chk (ar := ieee) all_blocked no_node (fun _ => true) 0%nat
    = Done ({| st_stops := []; st_len := 0; st_ind := no_node |}, 0%nat).
Proof.
  split; [split; [exact sentinel_no_node|exact open_interior_all_blocked]|].
  exact (proj1 (degenerate_grid_unreported (ar := ieee) all_blocked no_node
                  (fun _ => true) 0%nat sentinel_no_node open_interior_all_blocked)).
Defined.

(** C7, the claim as stated fails on the grid whose cells are all blocked:
    with a [find_path] that reports failure [main] prints [IMPOSSIBLE], the
    report of a grid without a path; with [find_path] as the specification
    describes it, step 1 indexes node 0 of the empty node table. *)
Lemma degenerate_grid_faults :
  open_interior all_blocked = []
  ∧ main_with (ar := ieee) (fun _ _ _ => Done (NoPath, [])) all_blocked no_node
      (fun _ => true) 0%nat = Done (Impossible, 0%nat)
  ∧ main (ar := ieee) all_blocked no_node (fun _ => true) 0%nat = Fault OutOfRange.
Proof. split_and!; vm_compute; reflexivity. Qed.

(** C2 on the grid of one cell, where start and goal coincide: [find_path]
    succeeds with the path [[0]], and [main] loads through its null [path]. *)
Lemma main_loads_null_path_witness :
  main (ar := ieee) one_cell no_node (fun _ => true) 0%nat = Fault NullLoad.
Proof.
  apply (main_loads_null_path (ar := ieee) find_path one_cell no_node (fun _ => true) 0%nat
           (init_stops one_cell no_node) 1%nat
           (build_graph one_cell no_node) 1%nat
           [0]
           (match find_path (rt_stops (build_graph one_cell no_node))
                            (rt_routes (build_graph one_cell no_node))
                            (st_len (init_stops one_cell no_node))
            with Done (_, ns) => ns | Fault _ => [] end)).
  - vm_compute. reflexivity.
  - vm_compute. reflexivity.
  - vm_compute. reflexivity.
  - discriminate.
Defined.

End Samples.

Section SamplesExact.
Local Existing Instance exact.




End SamplesExact.


(** * Further properties at sample grids *)

Section MoreSamples.
Local Existing Instance ieee.

Lemma open_interior_corner_cells : open_interior corner_cells = [(1, 1); (1, 2); (2, 2)].
Proof. reflexivity. Qed.

(** X2 on a grid whose border cells are all open. *)
Lemma init_stops_reads_interior_witness :
  init_stops (ar := ieee) open_border no_node = init_stops (ar := ieee) all_blocked no_node.
Proof.
  apply (init_stops_reads_interior (ar := ieee) open_border all_blocked no_node).
  intros i j Hi Hj. unfold open_border, all_blocked.
  rewrite decide_True by (split; [exact Hi|exact Hj]). reflexivity.
Defined.

(** X3 on the grid of three cells, with the table read as 0 outside its
    bounds. *)
Lemma init_routes_reads_table_in_range_witness :
  init_routes (ar := ieee) (padded (st_ind (init_stops corner_cells no_node)))
              (st_stops (init_stops corner_cells no_node)) 3
  = build_graph (ar := ieee) corner_cells no_node.
Proof.
  apply (init_routes_reads_table_in_range (ar := ieee)).
  intros i j Hi Hj _. unfold padded.
  rewrite decide_True by (split; [exact Hi|exact Hj]). reflexivity.
Defined.

(** X5 on the grid of three cells. *)
Lemma edges_simple_witness :
  sentinel no_node
  ∧ (∀ r, r ∈ rt_routes (build_graph (ar := ieee) corner_cells no_node) →
          route_x r ≠ route_y r)
  ∧ NoDup ((fun r => (route_x r, route_y r))
             <$> rt_routes (build_graph (ar := ieee) corner_cells no_node)).
Proof.
  split; [exact sentinel_no_node|].
  exact (edges_simple (ar := ieee) corner_cells no_node sentinel_no_node).
Defined.

(** X6 on the grid of three cells: the sources of the six edges and the edge
    lists of the three nodes. *)
Lemma edge_lists_are_runs_witness :
  sentinel no_node
  ∧ route_x <$> rt_routes (build_graph (ar := ieee) corner_cells no_node)
    = [0; 0; 1; 1; 2; 2]
  ∧ stop_n <$> rt_stops (build_graph (ar := ieee) corner_cells no_node)
    = [[0; 1]; [2; 3]; [4; 5]]
  ∧ StronglySorted Z.le
      (route_x <$> rt_routes (build_graph (ar := ieee) corner_cells no_node)).
Proof.
  split; [exact sentinel_no_node|]. split; [reflexivity|]. split; [reflexivity|].
  exact (proj1 (edge_lists_are_runs (ar := ieee) corner_cells no_node sentinel_no_node)).
Defined.

(** X7 on the grid of three cells. *)
Lemma edge_counts_add_up_witness :
  sentinel no_node
  ∧ total (stop_n_len <$> rt_stops (build_graph (ar := ieee) corner_cells no_node))
    = rt_len (build_graph (ar := ieee) corner_cells no_node)
  ∧ rt_len (build_graph (ar := ieee) corner_cells no_node)
    ≤ 8 * st_len (init_stops (ar := ieee) corner_cells no_node).
Proof.
  split; [exact sentinel_no_node|].
  exact (edge_counts_add_up (ar := ieee) corner_cells no_node sentinel_no_node).
Defined.

(** X8 on the grid of three cells, at cell (1, 1). *)
Lemma degree_counts_open_neighbours_witness :
  (sentinel no_node ∧ (1, 1) ∈ open_interior corner_cells)
  ∧ ∃ s, zlookup (rt_stops (build_graph (ar := ieee) corner_cells no_node))
                 (st_ind (init_stops (ar := ieee) corner_cells no_node) 1 1) = Some s
         ∧ stop_n_len s
           = Z.of_nat (length (filter (adjacent8 (1, 1)) (open_interior corner_cells))).
Proof.
  assert ((1, 1) ∈ open_interior corner_cells) as H1
    by (rewrite open_interior_corner_cells; by left).
  split; [split; [exact sentinel_no_node|exact H1]|].
  exact (degree_counts_open_neighbours (ar := ieee) corner_cells no_node (1, 1)
           sentinel_no_node H1).
Defined.

(** X9 on the grid of three cells: the weights of the six edges. *)
Lemma edge_weights_witness :
  sentinel no_node
  ∧ route_d <$> rt_routes (build_graph (ar := ieee) corner_cells no_node)
    = [1%float; PrimFloat.sqrt 2%float; 1%float; 1%float; PrimFloat.sqrt 2%float; 1%float]
  ∧ ∀ r, r ∈ rt_routes (build_graph (ar := ieee) corner_cells no_node) →
         route_d r = 1%float ∨ route_d r = PrimFloat.sqrt 2%float.
Proof.
  split; [exact sentinel_no_node|]. split; [reflexivity|].
  exact (proj1 (edge_weights corner_cells no_node sentinel_no_node)).
Defined.

(** X13 on the grid of three cells. *)
Lemma edges_go_both_ways_witness :
  sentinel no_node
  ∧ ∀ r, r ∈ rt_routes (build_graph (ar := ieee) corner_cells no_node) →
      ∃ r', r' ∈ rt_routes (build_graph (ar := ieee) corner_cells no_node)
            ∧ route_x r' = route_y r ∧ route_y r' = route_x r ∧ route_d r' = route_d r.
Proof.
  split; [exact sentinel_no_node|].
  exact (proj1 (edges_go_both_ways corner_cells no_node sentinel_no_node)).
Defined.

(** X10 on the grid of three cells: the heuristics of the three nodes. *)
Lemma goal_heuristic_is_zero_witness :
  open_interior corner_cells ≠ []
  ∧ stop_h <$> st_stops (init_stops (ar := ieee) corner_cells no_node)
    = [Some (PrimFloat.sqrt 2%float); Some 1%float; Some 0%float]
  ∧ ∃ e, last (st_stops (init_stops (ar := ieee) corner_cells no_node)) = Some e
         ∧ stop_h e = Some 0%float.
Proof.
  assert (open_interior corner_cells ≠ []) as Hne
    by (by rewrite open_interior_corner_cells).
  split; [exact Hne|]. split; [reflexivity|].
  exact (proj1 (goal_heuristic_is_zero corner_cells no_node Hne)).
Defined.

(** X12 on the grid of three cells, with a [find_path] that reports success
    and leaves [*p_len] at 0. *)
Lemma main_prints_no_node_witness :
  main_with (ar := ieee) (fun _ _ _ => Done (Found [], [])) corner_cells no_node
            (fun _ => true) 0%nat
  = Done (PathPrinted 0 [], 15%nat)
  ∧ (PathPrinted (ar := ieee) 0 [] = Impossible
     ∨ PathPrinted (ar := ieee) 0 [] = PathPrinted 0 []).
Proof.
  assert (main_with (ar := ieee) (fun _ _ _ => Done (Found [], [])) corner_cells no_node
            (fun _ => true) 0%nat = Done (PathPrinted 0 [], 15%nat)) as Hrun
    by (vm_compute; reflexivity).
  split; [exact Hrun|].
  exact (main_prints_no_node (ar := ieee) _ corner_cells no_node (fun _ => true) 0%nat
           (PathPrinted 0 []) 15%nat Hrun).
Defined.

(** X15 on the grid of three cells, with a [realloc] that always succeeds:
    three calls for the nodes and twelve for the six edges. *)
Lemma main_runs_the_stages_witness :
  sentinel no_node
  ∧ main (ar := ieee) corner_cells no_node (fun _ => true) 0%nat
    = print_result None
        (find_path (rt_stops (build_graph (ar := ieee) corner_cells no_node))
                   (rt_routes (build_graph (ar := ieee) corner_cells no_node)) 3)
        (fun _ => true) 15%nat.
Proof.
  split; [exact sentinel_no_node|].
  exact (main_runs_the_stages (ar := ieee) find_path corner_cells no_node (fun _ => true)
           0%nat sentinel_no_node).
Defined.

(** X14 on a lookup table that holds 0 everywhere and an empty node table:
    the first pair of neighbours is linked to node 0, which does not exist. *)
Lemma init_routes_trusts_the_table_witness :
  init_routes_chk (ar := ieee) (fun _ _ => 0) [] 0 (fun _ => true) 0%nat
  = Fault OutOfRange
  ∧ OutOfRange = OutOfRange.
Proof.
  assert (init_routes_chk (ar := ieee) (fun _ _ => 0) [] 0 (fun _ => true) 0%nat
          = Fault OutOfRange) as Hrun by (vm_compute; reflexivity).
  split; [exact Hrun|].
  exact (proj2 (init_routes_trusts_the_table (ar := ieee) (fun _ _ => 0) [] 0
                  (fun _ => true) 0%nat) OutOfRange (fun _ => eq_refl) Hrun).
Defined.

End MoreSamples.

Section MoreSamplesExact.
Local Existing Instance exact.





End MoreSamplesExact.

Section MoreSamplesRounded.
Local Existing Instance ieee.

(** X17 on the grid of three cells. *)
Lemma heuristic_values_are_small_witness :
  stop_h <$> rt_stops (build_graph (ar := ieee) corner_cells no_node)
  = [Some (PrimFloat.sqrt 2%float); Some 1%float; Some 0%float]
  ∧ Forall (fun s => ∃ h, stop_h s = Some h ∧ small_nonneg h = true)
           (rt_stops (build_graph (ar := ieee) corner_cells no_node)).
Proof.
  split; [reflexivity|].
  exact (proj2 (heuristic_values_are_small corner_cells no_node)).
Defined.

(** X18 on the grid whose cells are all open. *)
Lemma rounding_breaks_consistency_witness :
  (sentinel no_node ∧ all_open 4 4 = 0 ∧ all_open 5 5 = 0 ∧ all_open 8 8 = 0)
  ∧ ∃ r sx sy hx hy,
      r ∈ rt_routes (build_graph (ar := ieee) all_open no_node)
      ∧ zlookup (rt_stops (build_graph (ar := ieee) all_open no_node)) (route_x r) = Some sx
      ∧ zlookup (rt_stops (build_graph (ar := ieee) all_open no_node)) (route_y r) = Some sy
      ∧ stop_h sx = Some hx ∧ stop_h sy = Some hy
      ∧ PrimFloat.ltb (PrimFloat.add (route_d r) hy) hx = true.
Proof.
  split; [split_and!; [exact sentinel_no_node|reflexivity..]|].
  exact (rounding_breaks_consistency all_open no_node sentinel_no_node
           eq_refl eq_refl eq_refl).
Defined.

End MoreSamplesRounded.
